(** * Red-black tree of lemonyxk/gods (trees/redblacktree), verified over a
      shallow embedding.

    The Go code is a pointer structure: nodes carry [Left], [Right] and
    [Parent] links and every operation mutates nodes in place.  The embedding
    keeps that: nodes live in an arena ([store], a list of cells), a
    pointer is [option nat] ([None] is Go's [nil]), and every function of
    the source is a function on the tree state that may fail ([None]
    stands for a Go panic such as a nil dereference, or for fuel that ran
    out in a loop).

    Go's [int] is modelled by [Z]: the only [int] of the tree is [size],
    which counts live nodes of the arena and cannot reach the word size. *)

From stdpp Require Import base option list sets sorting strings.
From Stdlib Require Import ZArith Lia.

#[global] Set Warnings "-clear-no-such-hyp".

(** ** Data model *)

(** [type color bool] with [black, red = true, false]. *)
Inductive rbcolor := black | red.

#[global] Instance rbcolor_eq_dec : EqDecision rbcolor.
Proof. solve_decision. Defined.

(** A pointer to a node: an index in the arena, or nil. *)
Abbreviation ptr := (option nat).

Record Node (K V : Type) := mkNode {
  Key : K;
  Value : V;
  color : rbcolor;
  Left : ptr;
  Right : ptr;
  Parent : ptr
}.
Arguments mkNode {K V}.
Arguments Key {K V}.
Arguments Value {K V}.
Arguments color {K V}.
Arguments Left {K V}.
Arguments Right {K V}.
Arguments Parent {K V}.

(** The tree: root pointer, size counter, and the arena its nodes live in.
    The comparator is fixed at construction; it is a parameter of the
    development. *)
Record Tree (K V : Type) := mkTree {
  Root : ptr;
  size : Z;
  store : list (Node K V)
}.
Arguments mkTree {K V}.
Arguments Root {K V}.
Arguments size {K V}.
Arguments store {K V}.

(** [position] of an iterator: [begin, between, end = 0, 1, 2]. *)
Inductive position := pos_begin | pos_between | pos_end.

#[global] Instance position_eq_dec : EqDecision position.
Proof. solve_decision. Defined.

Record Iterator := mkIterator {
  node : ptr;
  pos : position
}.

(** Field updates of a node. *)
Section NodeUpdates.
Context {K V : Type}.
Implicit Types n : Node K V.

Definition set_Key (k : K) n := mkNode k (Value n) (color n) (Left n) (Right n) (Parent n).
Definition set_Value (v : V) n := mkNode (Key n) v (color n) (Left n) (Right n) (Parent n).
Definition set_color (c : rbcolor) n := mkNode (Key n) (Value n) c (Left n) (Right n) (Parent n).
Definition set_Left (p : ptr) n := mkNode (Key n) (Value n) (color n) p (Right n) (Parent n).
Definition set_Right (p : ptr) n := mkNode (Key n) (Value n) (color n) (Left n) p (Parent n).
Definition set_Parent (p : ptr) n := mkNode (Key n) (Value n) (color n) (Left n) (Right n) p.
End NodeUpdates.

(** ** The state monad of the mutating methods *)

Section Monad.
Context {K V : Type}.

Definition M (A : Type) : Type := Tree K V → option (A * Tree K V).

Definition ret {A} (a : A) : M A := λ t, Some (a, t).
Definition bind {A B} (m : M A) (f : A → M B) : M B :=
  λ t, match m t with Some (a, t') => f a t' | None => None end.
Definition panic {A} : M A := λ _, None.

(** Reading through a pointer; nil (or a dangling index) panics. *)
Definition deref (t : Tree K V) (p : ptr) : option (Node K V) :=
  match p with Some i => store t !! i | None => None end.

Definition get (p : ptr) : M (Node K V) :=
  λ t, match deref t p with Some n => Some (n, t) | None => None end.

(** Running a read-only function inside the monad. *)
Definition ask {A} (f : Tree K V → option A) : M A :=
  λ t, match f t with Some a => Some (a, t) | None => None end.

(** Writing one field through a pointer. *)
Definition modify (p : ptr) (f : Node K V → Node K V) : M unit :=
  λ t, match p with
       | Some i =>
           match store t !! i with
           | Some n => Some (tt, mkTree (Root t) (size t) (<[i := f n]> (store t)))
           | None => None
           end
       | None => None
       end.

Definition set_Root (r : ptr) : M unit :=
  λ t, Some (tt, mkTree r (size t) (store t)).

Definition set_size (f : Z → Z) : M unit :=
  λ t, Some (tt, mkTree (Root t) (f (size t)) (store t)).

(** [&Node{Key: key, Value: value, color: red}]: a fresh cell of the arena. *)
Definition alloc (n : Node K V) : M ptr :=
  λ t, Some (Some (length (store t)), mkTree (Root t) (size t) (store t ++ [n])).
End Monad.

Notation "x <- m ;; k" := (bind m (λ x, k))
  (at level 100, m at next level, right associativity).
Notation "m ;;; k" := (bind m (λ _, k))
  (at level 100, right associativity).

Section RedBlackTree.
Context {K V : Type}.
Variable Comparator : K → K → Z.
(** Go's zero values of the key and value types ([make([]T, n)],
    [utils.AnyEmpty]). *)
Variable zeroK : K.
Variable zeroV : V.

Abbreviation Node := (Node K V).
Abbreviation Tree := (Tree K V).
Abbreviation M := (@M K V).

(** [NewWith(comparator)] *)
Definition NewWith : Tree := mkTree None 0 [].

(** [nodeColor]: nil is black. *)
Definition nodeColor (t : Tree) (p : ptr) : option rbcolor :=
  match p with
  | None => Some black
  | Some _ => n ← deref t p; Some (color n)
  end.

(** [node.grandparent()] *)
Definition grandparent (t : Tree) (nd : ptr) : option ptr :=
  match nd with
  | None => Some None
  | Some _ =>
      n ← deref t nd;
      match Parent n with
      | None => Some None
      | Some _ => p ← deref t (Parent n); Some (Parent p)
      end
  end.

(** [node.sibling()] *)
Definition sibling (t : Tree) (nd : ptr) : option ptr :=
  match nd with
  | None => Some None
  | Some _ =>
      n ← deref t nd;
      match Parent n with
      | None => Some None
      | Some _ =>
          p ← deref t (Parent n);
          if bool_decide (nd = Left p) then Some (Right p) else Some (Left p)
      end
  end.

(** [node.uncle()] *)
Definition uncle (t : Tree) (nd : ptr) : option ptr :=
  match nd with
  | None => Some None
  | Some _ =>
      n ← deref t nd;
      match Parent n with
      | None => Some None
      | Some _ =>
          p ← deref t (Parent n);
          match Parent p with
          | None => Some None
          | Some _ => sibling t (Parent n)
          end
      end
  end.

(** [tree.replaceNode(old, new)] *)
Definition replaceNode (old new : ptr) : M unit :=
  o <- get old ;;
  (match Parent o with
   | None => set_Root new
   | Some _ =>
       p <- get (Parent o) ;;
       if bool_decide (old = Left p)
       then modify (Parent o) (set_Left new)
       else modify (Parent o) (set_Right new)
   end) ;;;
  match new with
  | None => ret tt
  | Some _ => o' <- get old ;; modify new (set_Parent (Parent o'))
  end.

(** [tree.rotateLeft(node)] *)
Definition rotateLeft (nd : ptr) : M unit :=
  n <- get nd ;;
  let right := Right n in
  replaceNode nd right ;;;
  r <- get right ;;
  modify nd (set_Right (Left r)) ;;;
  r <- get right ;;
  (match Left r with
   | None => ret tt
   | Some _ => modify (Left r) (set_Parent nd)
   end) ;;;
  modify right (set_Left nd) ;;;
  modify nd (set_Parent right).

(** [tree.rotateRight(node)] *)
Definition rotateRight (nd : ptr) : M unit :=
  n <- get nd ;;
  let left := Left n in
  replaceNode nd left ;;;
  l <- get left ;;
  modify nd (set_Left (Right l)) ;;;
  l <- get left ;;
  (match Right l with
   | None => ret tt
   | Some _ => modify (Right l) (set_Parent nd)
   end) ;;;
  modify left (set_Right nd) ;;;
  modify nd (set_Parent left).

(** *** Insertion fix-up *)

(** Go's short-circuit [a && b]. *)
Definition andM (a b : M bool) : M bool :=
  x <- a ;; if (x : bool) then b else ret false.

(** The pointer tests of the fix-up: [node == node.Parent.Left] and so on;
    each dereferences what the Go expression dereferences. *)
Definition is_left_child (nd : ptr) : M bool :=
  n <- get nd ;; p <- get (Parent n) ;; ret (bool_decide (nd = Left p)).
Definition is_right_child (nd : ptr) : M bool :=
  n <- get nd ;; p <- get (Parent n) ;; ret (bool_decide (nd = Right p)).
Definition parent_is_left_of (nd g : ptr) : M bool :=
  n <- get nd ;; gn <- get g ;; ret (bool_decide (Parent n = Left gn)).
Definition parent_is_right_of (nd g : ptr) : M bool :=
  n <- get nd ;; gn <- get g ;; ret (bool_decide (Parent n = Right gn)).

(** [tree.insertCase5(node)] *)
Definition insertCase5 (nd : ptr) : M unit :=
  n <- get nd ;;
  modify (Parent n) (set_color black) ;;;
  g <- ask (λ t, grandparent t nd) ;;
  modify g (set_color red) ;;;
  c1 <- andM (is_left_child nd) (parent_is_left_of nd g) ;;
  if (c1 : bool) then rotateRight g
  else
    c2 <- andM (is_right_child nd) (parent_is_right_of nd g) ;;
    if (c2 : bool) then rotateLeft g else ret tt.

(** [tree.insertCase4(node)] *)
Definition insertCase4 (nd : ptr) : M unit :=
  g <- ask (λ t, grandparent t nd) ;;
  c1 <- andM (is_right_child nd) (parent_is_left_of nd g) ;;
  if (c1 : bool) then
    n <- get nd ;;
    rotateLeft (Parent n) ;;;
    n' <- get nd ;;
    insertCase5 (Left n')
  else
    c2 <- andM (is_left_child nd) (parent_is_right_of nd g) ;;
    if (c2 : bool) then
      n <- get nd ;;
      rotateRight (Parent n) ;;;
      n' <- get nd ;;
      insertCase5 (Right n')
    else insertCase5 nd.

(** [tree.insertCase3(node)]; [rec] is the call back into [insertCase1]. *)
Definition insertCase3 (rec : ptr → M unit) (nd : ptr) : M unit :=
  u <- ask (λ t, uncle t nd) ;;
  c <- ask (λ t, nodeColor t u) ;;
  match c with
  | red =>
      n <- get nd ;;
      modify (Parent n) (set_color black) ;;;
      modify u (set_color black) ;;;
      g <- ask (λ t, grandparent t nd) ;;
      modify g (set_color red) ;;;
      g' <- ask (λ t, grandparent t nd) ;;
      rec g'
  | black => insertCase4 nd
  end.

(** [tree.insertCase2(node)] *)
Definition insertCase2 (rec : ptr → M unit) (nd : ptr) : M unit :=
  n <- get nd ;;
  c <- ask (λ t, nodeColor t (Parent n)) ;;
  match c with
  | black => ret tt
  | red => insertCase3 rec nd
  end.

(** [tree.insertCase1(node)]; the recursion climbs two levels per call, the
    fuel bounds its depth. *)
Fixpoint insertCase1 (fuel : nat) (nd : ptr) : M unit :=
  match fuel with
  | O => panic
  | S fuel' =>
      n <- get nd ;;
      match Parent n with
      | None => modify nd (set_color black)
      | Some _ => insertCase2 (insertCase1 fuel') nd
      end
  end.

(** *** Put *)

(** The descent loop of [Put]: [inr] is the early return of the
    [compare == 0] case, [inl (insertedNode, node)] is the normal exit. *)
Fixpoint Put_loop (fuel : nat) (key : K) (value : V) (nd : ptr) : M (ptr * ptr + unit) :=
  match fuel with
  | O => panic
  | S fuel' =>
      n <- get nd ;;
      let compare := Comparator key (Key n) in
      if (compare =? 0)%Z then
        modify nd (set_Key key) ;;;
        modify nd (set_Value value) ;;;
        ret (inr tt)
      else if (compare <? 0)%Z then
        match Left n with
        | None =>
            new <- alloc (mkNode key value red None None None) ;;
            modify nd (set_Left new) ;;;
            ret (inl (new, nd))
        | Some _ => Put_loop fuel' key value (Left n)
        end
      else
        match Right n with
        | None =>
            new <- alloc (mkNode key value red None None None) ;;
            modify nd (set_Right new) ;;;
            ret (inl (new, nd))
        | Some _ => Put_loop fuel' key value (Right n)
        end
  end.

(** Fuel of a loop or recursion that follows links of the tree: no simple
    path in the arena is longer than the arena. *)
Definition fuel_of (t : Tree) : nat := S (length (store t)).

(** [tree.Put(key, value)] *)
Definition Put (key : K) (value : V) : M unit :=
  λ t,
  match Root t with
  | None =>
      (new <- alloc (mkNode key value red None None None) ;;
       set_Root new ;;;
       insertCase1 (S (fuel_of t)) new ;;;
       set_size (λ s, s + 1)%Z) t
  | Some _ =>
      (r <- Put_loop (fuel_of t) key value (Root t) ;;
       match r with
       | inr _ => ret tt
       | inl (insertedNode, nd) =>
           modify insertedNode (set_Parent nd) ;;;
           insertCase1 (S (fuel_of t)) insertedNode ;;;
           set_size (λ s, s + 1)%Z
       end) t
  end.

(** *** Lookup and ordered queries *)

Fixpoint lookup_loop (fuel : nat) (t : Tree) (key : K) (nd : ptr) : option ptr :=
  match fuel with
  | O => None
  | S fuel' =>
      match nd with
      | None => Some None
      | Some _ =>
          n ← deref t nd;
          let compare := Comparator key (Key n) in
          if (compare =? 0)%Z then Some nd
          else if (compare <? 0)%Z then lookup_loop fuel' t key (Left n)
          else lookup_loop fuel' t key (Right n)
      end
  end.

(** [tree.lookup(key)] *)
Definition lookup (t : Tree) (key : K) : option ptr :=
  lookup_loop (fuel_of t) t key (Root t).

(** [tree.Get(key)] *)
Definition Get (t : Tree) (key : K) : option (V * bool) :=
  nd ← lookup t key;
  match nd with
  | Some _ => n ← deref t nd; Some (Value n, true)
  | None => Some (zeroV, false)
  end.

Fixpoint Left_loop (fuel : nat) (t : Tree) (parent current : ptr) : option ptr :=
  match fuel with
  | O => None
  | S fuel' =>
      match current with
      | None => Some parent
      | Some _ => n ← deref t current; Left_loop fuel' t current (Left n)
      end
  end.

(** [tree.Left()]: the left-most node or nil. *)
Definition Left_ (t : Tree) : option ptr := Left_loop (fuel_of t) t None (Root t).

Fixpoint Right_loop (fuel : nat) (t : Tree) (parent current : ptr) : option ptr :=
  match fuel with
  | O => None
  | S fuel' =>
      match current with
      | None => Some parent
      | Some _ => n ← deref t current; Right_loop fuel' t current (Right n)
      end
  end.

(** [tree.Right()]: the right-most node or nil. *)
Definition Right_ (t : Tree) : option ptr := Right_loop (fuel_of t) t None (Root t).

Fixpoint Floor_loop (fuel : nat) (t : Tree) (key : K) (floor : ptr) (found : bool)
    (nd : ptr) : option (ptr * bool) :=
  match fuel with
  | O => None
  | S fuel' =>
      match nd with
      | None => if found then Some (floor, true) else Some (None, false)
      | Some _ =>
          n ← deref t nd;
          let compare := Comparator key (Key n) in
          if (compare =? 0)%Z then Some (nd, true)
          else if (compare <? 0)%Z then Floor_loop fuel' t key floor found (Left n)
          else Floor_loop fuel' t key nd true (Right n)
      end
  end.

(** [tree.Floor(key)] *)
Definition Floor (t : Tree) (key : K) : option (ptr * bool) :=
  Floor_loop (fuel_of t) t key None false (Root t).

Fixpoint Ceiling_loop (fuel : nat) (t : Tree) (key : K) (ceiling : ptr) (found : bool)
    (nd : ptr) : option (ptr * bool) :=
  match fuel with
  | O => None
  | S fuel' =>
      match nd with
      | None => if found then Some (ceiling, true) else Some (None, false)
      | Some _ =>
          n ← deref t nd;
          let compare := Comparator key (Key n) in
          if (compare =? 0)%Z then Some (nd, true)
          else if (compare <? 0)%Z then Ceiling_loop fuel' t key nd true (Left n)
          else Ceiling_loop fuel' t key ceiling found (Right n)
      end
  end.

(** [tree.Ceiling(key)] *)
Definition Ceiling (t : Tree) (key : K) : option (ptr * bool) :=
  Ceiling_loop (fuel_of t) t key None false (Root t).

(** [node.maximumNode()] *)
Fixpoint maximumNode_loop (fuel : nat) (t : Tree) (nd : ptr) : option ptr :=
  match fuel with
  | O => None
  | S fuel' =>
      n ← deref t nd;
      match Right n with
      | None => Some nd
      | Some _ => maximumNode_loop fuel' t (Right n)
      end
  end.

Definition maximumNode (t : Tree) (nd : ptr) : option ptr :=
  match nd with
  | None => Some None
  | Some _ => maximumNode_loop (fuel_of t) t nd
  end.

(** *** Deletion fix-up *)

(** The colour tests of the deletion cases; [&&] is short-circuit, so
    [sibling.Left] is only read when the tests before it hold. *)
Definition color_is (c : rbcolor) (p : ptr) : M bool :=
  c' <- ask (λ t, nodeColor t p) ;; ret (bool_decide (c' = c)).
Definition parent_color_is (c : rbcolor) (nd : ptr) : M bool :=
  n <- get nd ;; color_is c (Parent n).
Definition left_color_is (c : rbcolor) (p : ptr) : M bool :=
  n <- get p ;; color_is c (Left n).
Definition right_color_is (c : rbcolor) (p : ptr) : M bool :=
  n <- get p ;; color_is c (Right n).

(** [tree.deleteCase6(node)] *)
Definition deleteCase6 (nd : ptr) : M unit :=
  sib <- ask (λ t, sibling t nd) ;;
  n <- get nd ;;
  pc <- ask (λ t, nodeColor t (Parent n)) ;;
  modify sib (set_color pc) ;;;
  n <- get nd ;;
  modify (Parent n) (set_color black) ;;;
  c1 <- andM (is_left_child nd) (right_color_is red sib) ;;
  if (c1 : bool) then
    s <- get sib ;;
    modify (Right s) (set_color black) ;;;
    n <- get nd ;;
    rotateLeft (Parent n)
  else
    c2 <- left_color_is red sib ;;
    if (c2 : bool) then
      s <- get sib ;;
      modify (Left s) (set_color black) ;;;
      n <- get nd ;;
      rotateRight (Parent n)
    else ret tt.

(** [tree.deleteCase5(node)] *)
Definition deleteCase5 (nd : ptr) : M unit :=
  sib <- ask (λ t, sibling t nd) ;;
  c1 <- andM (is_left_child nd)
          (andM (color_is black sib)
             (andM (left_color_is red sib) (right_color_is black sib))) ;;
  (if (c1 : bool) then
     modify sib (set_color red) ;;;
     s <- get sib ;;
     modify (Left s) (set_color black) ;;;
     rotateRight sib
   else
     c2 <- andM (is_right_child nd)
             (andM (color_is black sib)
                (andM (right_color_is red sib) (left_color_is black sib))) ;;
     if (c2 : bool) then
       modify sib (set_color red) ;;;
       s <- get sib ;;
       modify (Right s) (set_color black) ;;;
       rotateLeft sib
     else ret tt) ;;;
  deleteCase6 nd.

(** [tree.deleteCase4(node)] *)
Definition deleteCase4 (nd : ptr) : M unit :=
  sib <- ask (λ t, sibling t nd) ;;
  c <- andM (parent_color_is red nd)
         (andM (color_is black sib)
            (andM (left_color_is black sib) (right_color_is black sib))) ;;
  if (c : bool) then
    modify sib (set_color red) ;;;
    n <- get nd ;;
    modify (Parent n) (set_color black)
  else deleteCase5 nd.

(** [tree.deleteCase3(node)]; [rec] is the call back into [deleteCase1]. *)
Definition deleteCase3 (rec : ptr → M unit) (nd : ptr) : M unit :=
  sib <- ask (λ t, sibling t nd) ;;
  c <- andM (parent_color_is black nd)
         (andM (color_is black sib)
            (andM (left_color_is black sib) (right_color_is black sib))) ;;
  if (c : bool) then
    modify sib (set_color red) ;;;
    n <- get nd ;;
    rec (Parent n)
  else deleteCase4 nd.

(** [tree.deleteCase2(node)] *)
Definition deleteCase2 (rec : ptr → M unit) (nd : ptr) : M unit :=
  sib <- ask (λ t, sibling t nd) ;;
  c <- color_is red sib ;;
  (if (c : bool) then
     n <- get nd ;;
     modify (Parent n) (set_color red) ;;;
     modify sib (set_color black) ;;;
     l <- is_left_child nd ;;
     n <- get nd ;;
     if (l : bool) then rotateLeft (Parent n) else rotateRight (Parent n)
   else ret tt) ;;;
  deleteCase3 rec nd.

(** [tree.deleteCase1(node)]; the recursion climbs one level per call. *)
Fixpoint deleteCase1 (fuel : nat) (nd : ptr) : M unit :=
  match fuel with
  | O => panic
  | S fuel' =>
      n <- get nd ;;
      match Parent n with
      | None => ret tt
      | Some _ => deleteCase2 (deleteCase1 fuel') nd
      end
  end.

(** *** Remove *)

(** [tree.Remove(key)] *)
Definition Remove (key : K) : M unit :=
  λ t,
  (nd <- ask (λ t, lookup t key) ;;
   match nd with
   | None => ret tt
   | Some _ =>
       n <- get nd ;;
       nd <- (match Left n, Right n with
              | Some _, Some _ =>
                  pred <- ask (λ t, maximumNode t (Left n)) ;;
                  pn <- get pred ;;
                  modify nd (set_Key (Key pn)) ;;;
                  pn <- get pred ;;
                  modify nd (set_Value (Value pn)) ;;;
                  ret pred
              | _, _ => ret nd
              end) ;;
       n <- get nd ;;
       (match Left n, Right n with
        | Some _, Some _ => ret tt
        | _, _ =>
            let child := match Right n with None => Left n | Some _ => Right n end in
            (match color n with
             | black =>
                 c <- ask (λ t, nodeColor t child) ;;
                 modify nd (set_color c) ;;;
                 deleteCase1 (fuel_of t) nd
             | red => ret tt
             end) ;;;
            replaceNode nd child ;;;
            n <- get nd ;;
            match Parent n, child with
            | None, Some _ => modify child (set_color black)
            | _, _ => ret tt
            end
        end) ;;;
       set_size (λ s, s - 1)%Z
   end) t.

(** ** Iterator *)

(** [tree.Iterator()] and [tree.IteratorAt(node)].  The iterator's [tree]
    field is a pointer to the tree: the methods below take the current tree
    state as an argument. *)
Definition Iterator_ : Iterator := mkIterator None pos_begin.
Definition IteratorAt (nd : ptr) : Iterator := mkIterator nd pos_between.

(** The inner loops of [Next]: down the left spine, and up the parents until
    the comparator finds an ancestor that is not smaller. *)
Fixpoint Next_down (fuel : nat) (t : Tree) (nd : ptr) : option ptr :=
  match fuel with
  | O => None
  | S fuel' =>
      n ← deref t nd;
      match Left n with
      | None => Some nd
      | Some _ => Next_down fuel' t (Left n)
      end
  end.

Fixpoint Next_up (fuel : nat) (t : Tree) (key : K) (nd : ptr) : option ptr :=
  match fuel with
  | O => None
  | S fuel' =>
      n ← deref t nd;
      match Parent n with
      | None => Some None
      | Some _ =>
          p ← deref t (Parent n);
          if (Comparator key (Key p) <=? 0)%Z then Some (Parent n)
          else Next_up fuel' t key (Parent n)
      end
  end.

(** [iterator.Next()]: the result and the iterator after the call. *)
Definition Next (t : Tree) (it : Iterator) : option (bool * Iterator) :=
  let at_end := Some (false, mkIterator None pos_end) in
  let between (nd : ptr) := Some (true, mkIterator nd pos_between) in
  match pos it with
  | pos_end => at_end
  | pos_begin =>
      left ← Left_ t;
      match left with
      | None => at_end
      | Some _ => between left
      end
  | pos_between =>
      n ← deref t (node it);
      match Right n with
      | Some _ => nd ← Next_down (fuel_of t) t (Right n); between nd
      | None =>
          match Parent n with
          | Some _ =>
              nd ← Next_up (fuel_of t) t (Key n) (node it);
              match nd with
              | Some _ => between nd
              | None => at_end
              end
          | None => at_end
          end
      end
  end.

Fixpoint Prev_down (fuel : nat) (t : Tree) (nd : ptr) : option ptr :=
  match fuel with
  | O => None
  | S fuel' =>
      n ← deref t nd;
      match Right n with
      | None => Some nd
      | Some _ => Prev_down fuel' t (Right n)
      end
  end.

Fixpoint Prev_up (fuel : nat) (t : Tree) (key : K) (nd : ptr) : option ptr :=
  match fuel with
  | O => None
  | S fuel' =>
      n ← deref t nd;
      match Parent n with
      | None => Some None
      | Some _ =>
          p ← deref t (Parent n);
          if (Comparator key (Key p) >=? 0)%Z then Some (Parent n)
          else Prev_up fuel' t key (Parent n)
      end
  end.

(** [iterator.Prev()] *)
Definition Prev (t : Tree) (it : Iterator) : option (bool * Iterator) :=
  let at_begin := Some (false, mkIterator None pos_begin) in
  let between (nd : ptr) := Some (true, mkIterator nd pos_between) in
  match pos it with
  | pos_begin => at_begin
  | pos_end =>
      right ← Right_ t;
      match right with
      | None => at_begin
      | Some _ => between right
      end
  | pos_between =>
      n ← deref t (node it);
      match Left n with
      | Some _ => nd ← Prev_down (fuel_of t) t (Left n); between nd
      | None =>
          match Parent n with
          | Some _ =>
              nd ← Prev_up (fuel_of t) t (Key n) (node it);
              match nd with
              | Some _ => between nd
              | None => at_begin
              end
          | None => at_begin
          end
      end
  end.

(** [iterator.Key()], [iterator.Value()]: a nil node panics. *)
Definition Iterator_Key (t : Tree) (it : Iterator) : option K :=
  n ← deref t (node it); Some (Key n).
Definition Iterator_Value (t : Tree) (it : Iterator) : option V :=
  n ← deref t (node it); Some (Value n).

(** [iterator.Begin()], [End()], [First()], [Last()] *)
Definition Begin (it : Iterator) : Iterator := mkIterator None pos_begin.
Definition End_ (it : Iterator) : Iterator := mkIterator None pos_end.
Definition First (t : Tree) (it : Iterator) : option (bool * Iterator) := Next t (Begin it).
Definition Last (t : Tree) (it : Iterator) : option (bool * Iterator) := Prev t (End_ it).

(** The loop of [Keys]: [keys[i] = it.Key()] panics when [i] is out of
    range. *)
Fixpoint Keys_loop (fuel : nat) (t : Tree) (it : Iterator) (i : nat) (keys : list K)
    : option (list K) :=
  match fuel with
  | O => None
  | S fuel' =>
      r ← Next t it;
      if (r.1 : bool) then
        k ← Iterator_Key t r.2;
        if bool_decide (i < length keys)
        then Keys_loop fuel' t r.2 (S i) (<[i := k]> keys)
        else None
      else Some keys
  end.

(** [tree.Keys()] *)
Definition Keys (t : Tree) : option (list K) :=
  if bool_decide (0 ≤ size t)%Z
  then Keys_loop (S (fuel_of t)) t Iterator_ 0 (replicate (Z.to_nat (size t)) zeroK)
  else None.

Fixpoint Values_loop (fuel : nat) (t : Tree) (it : Iterator) (i : nat) (values : list V)
    : option (list V) :=
  match fuel with
  | O => None
  | S fuel' =>
      r ← Next t it;
      if (r.1 : bool) then
        v ← Iterator_Value t r.2;
        if bool_decide (i < length values)
        then Values_loop fuel' t r.2 (S i) (<[i := v]> values)
        else None
      else Some values
  end.

(** [tree.Values()] *)
Definition Values (t : Tree) : option (list V) :=
  if bool_decide (0 ≤ size t)%Z
  then Values_loop (S (fuel_of t)) t Iterator_ 0 (replicate (Z.to_nat (size t)) zeroV)
  else None.

(** [tree.Clear()] *)
Definition Clear : M unit :=
  λ t, Some (tt, mkTree None 0 (store t)).

(** [tree.Size()], [tree.Empty()] *)
Definition Size (t : Tree) : Z := size t.
Definition Empty (t : Tree) : bool := (size t =? 0)%Z.

End RedBlackTree.

(** * The abstract tree represented by a state

    A state of the arena represents a tree of cells: [ptree] is that tree,
    each node annotated with the arena index it lives at.  A context
    (a list of frames, innermost first) is a tree with a hole; the fix-up
    procedures, which climb through [Parent] links, are specified on a
    subtree in its context. *)

Section Abstraction.
Context {K V : Type}.

Inductive ptree :=
| PLeaf
| PNode (p : nat) (c : rbcolor) (l : ptree) (k : K) (v : V) (r : ptree).

(** Which child of a frame the hole is. *)
Inductive dir := DL | DR.

Record frame := Frame {
  fp : nat;
  fc : rbcolor;
  fk : K;
  fv : V;
  fd : dir;
  fsib : ptree
}.

Definition rootp (T : ptree) : ptr :=
  match T with PLeaf => None | PNode p _ _ _ _ _ => Some p end.

Definition rootc (T : ptree) : rbcolor :=
  match T with PLeaf => black | PNode _ c _ _ _ _ => c end.

Definition plug1 (f : frame) (s : ptree) : ptree :=
  match fd f with
  | DL => PNode (fp f) (fc f) s (fk f) (fv f) (fsib f)
  | DR => PNode (fp f) (fc f) (fsib f) (fk f) (fv f) s
  end.

Fixpoint plug (C : list frame) (s : ptree) : ptree :=
  match C with
  | [] => s
  | f :: C' => plug C' (plug1 f s)
  end.

Definition ctx_top (C : list frame) : ptr :=
  match C with [] => None | f :: _ => Some (fp f) end.

Fixpoint ctx_root (C : list frame) (child : ptr) : ptr :=
  match C with [] => child | f :: C' => ctx_root C' (Some (fp f)) end.

(** The entries of a tree in order: arena index, key, value. *)
Fixpoint inorder (T : ptree) : list (nat * K * V) :=
  match T with
  | PLeaf => []
  | PNode p _ l k v r => inorder l ++ (p, k, v) :: inorder r
  end.

Fixpoint ptrs (T : ptree) : list nat :=
  match T with
  | PLeaf => []
  | PNode p _ l _ _ r => p :: ptrs l ++ ptrs r
  end.

Fixpoint ctx_ptrs (C : list frame) : list nat :=
  match C with
  | [] => []
  | f :: C' => fp f :: ptrs (fsib f) ++ ctx_ptrs C'
  end.

(** The entries of a context before and after its hole. *)
Fixpoint ctx_before (C : list frame) : list (nat * K * V) :=
  match C with
  | [] => []
  | f :: C' =>
      match fd f with
      | DL => ctx_before C'
      | DR => ctx_before C' ++ inorder (fsib f) ++ [(fp f, fk f, fv f)]
      end
  end.

Fixpoint ctx_after (C : list frame) : list (nat * K * V) :=
  match C with
  | [] => []
  | f :: C' =>
      match fd f with
      | DL => (fp f, fk f, fv f) :: inorder (fsib f) ++ ctx_after C'
      | DR => ctx_after C'
      end
  end.

(** The cells of the arena hold the tree [T] whose root has parent [par]. *)
Fixpoint heap_ok (h : list (Node K V)) (par : ptr) (T : ptree) : Prop :=
  match T with
  | PLeaf => True
  | PNode p c l k v r =>
      h !! p = Some (mkNode k v c (rootp l) (rootp r) par)
      ∧ heap_ok h (Some p) l ∧ heap_ok h (Some p) r
  end.

Definition frame_cell (f : frame) (child par : ptr) : Node K V :=
  match fd f with
  | DL => mkNode (fk f) (fv f) (fc f) child (rootp (fsib f)) par
  | DR => mkNode (fk f) (fv f) (fc f) (rootp (fsib f)) child par
  end.

(** The cells of the arena hold the context [C] around a hole whose content
    has root [child]. *)
Fixpoint ctx_ok (h : list (Node K V)) (C : list frame) (child : ptr) : Prop :=
  match C with
  | [] => True
  | f :: C' =>
      h !! fp f = Some (frame_cell f child (ctx_top C'))
      ∧ heap_ok h (Some (fp f)) (fsib f) ∧ ctx_ok h C' (Some (fp f))
  end.

(** [shape T t]: the nodes reachable from the root of [t] are the tree [T],
    every node at its own cell, with the parent links of [T]. *)
Definition shape (T : ptree) (t : Tree K V) : Prop :=
  Root t = rootp T ∧ NoDup (ptrs T) ∧ heap_ok (store t) None T.

(** [represents t T]: [shape], and the size counter counts the nodes. *)
Definition represents (t : Tree K V) (T : ptree) : Prop :=
  shape T t ∧ size t = Z.of_nat (length (ptrs T)).

Lemma rootp_plug C s : rootp (plug C s) = ctx_root C (rootp s).
Proof. revert s; induction C as [|f C IH]; intros s; simpl; [done|]. rewrite IH. by destruct f as [? ? ? ? [] ?]. Qed.

Lemma ptrs_plug C s : ptrs (plug C s) ≡ₚ ctx_ptrs C ++ ptrs s.
Proof.
  revert s; induction C as [|f C IH]; intros s; simpl; [done|].
  rewrite IH. destruct f as [? ? ? ? [] ?]; simpl; solve_Permutation.
Qed.

Lemma inorder_plug C s : inorder (plug C s) = ctx_before C ++ inorder s ++ ctx_after C.
Proof.
  revert s; induction C as [|f C IH]; intros s; simpl; [by rewrite app_nil_r|].
  rewrite IH. destruct f as [? ? ? ? [] ?]; simpl; by rewrite <- ?app_assoc.
Qed.

Lemma heap_ok_plug h C s :
  heap_ok h None (plug C s) ↔ ctx_ok h C (rootp s) ∧ heap_ok h (ctx_top C) s.
Proof.
  revert s; induction C as [|f C IH]; intros s; simpl; [tauto|].
  rewrite IH. destruct f as [? ? ? ? [] ?]; unfold frame_cell; simpl; tauto.
Qed.

Lemma shape_plug C s t :
  shape (plug C s) t ↔
    Root t = ctx_root C (rootp s) ∧ NoDup (ctx_ptrs C ++ ptrs s)
    ∧ ctx_ok (store t) C (rootp s) ∧ heap_ok (store t) (ctx_top C) s.
Proof. unfold shape. by rewrite rootp_plug, ptrs_plug, heap_ok_plug. Qed.

(** Cells outside a tree do not matter to it. *)
Lemma heap_ok_ext h h' par T :
  (∀ p, p ∈ ptrs T → h' !! p = h !! p) → heap_ok h par T → heap_ok h' par T.
Proof.
  revert par; induction T as [|p c l IHl k v r IHr]; intros par Hext; simpl; [done|].
  intros (Hp & Hl & Hr). split_and!.
  - rewrite Hext; [done|]. simpl. set_solver.
  - apply IHl; [|done]. intros q Hq. apply Hext. simpl. set_solver.
  - apply IHr; [|done]. intros q Hq. apply Hext. simpl. set_solver.
Qed.

Lemma ctx_ok_ext h h' C child :
  (∀ p, p ∈ ctx_ptrs C → h' !! p = h !! p) → ctx_ok h C child → ctx_ok h' C child.
Proof.
  revert child; induction C as [|f C IH]; intros child Hext; simpl; [done|].
  intros (Hp & Hs & Hc). split_and!.
  - rewrite Hext; [done|]. set_solver.
  - eapply heap_ok_ext; [|done]. intros q Hq. apply Hext. set_solver.
  - apply IH; [|done]. intros q Hq. apply Hext. set_solver.
Qed.

Lemma heap_ok_insert h par T p n :
  p ∉ ptrs T → heap_ok h par T → heap_ok (<[p := n]> h) par T.
Proof.
  intros Hp. apply heap_ok_ext. intros q Hq.
  apply list_lookup_insert_ne. intros ->. done.
Qed.

Lemma ctx_ok_insert h C child p n :
  p ∉ ctx_ptrs C → ctx_ok h C child → ctx_ok (<[p := n]> h) C child.
Proof.
  intros Hp. apply ctx_ok_ext. intros q Hq.
  apply list_lookup_insert_ne. intros ->. done.
Qed.

Lemma heap_ok_app h par T n :
  heap_ok h par T → heap_ok (h ++ [n]) par T.
Proof.
  revert par; induction T as [|p c l IHl k v r IHr]; intros par; simpl; [done|].
  intros (Hp & Hl & Hr). split_and!; [|by apply IHl|by apply IHr].
  by apply lookup_app_l_Some.
Qed.

Lemma ctx_ok_app h C child n :
  ctx_ok h C child → ctx_ok (h ++ [n]) C child.
Proof.
  revert child; induction C as [|f C IH]; intros child; simpl; [done|].
  intros (Hp & Hs & Hc). split_and!; [|by apply heap_ok_app|by apply IH].
  by apply lookup_app_l_Some.
Qed.

(** Every node of a represented tree is a cell of the arena. *)
Lemma heap_ok_lt h par T p : heap_ok h par T → p ∈ ptrs T → p < length h.
Proof.
  revert par; induction T as [|q c l IHl k v r IHr]; intros par; simpl; [set_solver|].
  intros (Hq & Hl & Hr) Hin.
  apply elem_of_cons in Hin as [->|Hin]; [by eapply lookup_lt_Some|].
  apply elem_of_app in Hin as [Hin|Hin]; eauto.
Qed.

End Abstraction.

Arguments plug : simpl never.

Lemma rootp_notin {K V} (T : @ptree K V) p : p ∉ ptrs T → Some p ≠ rootp T.
Proof. destruct T; simpl; [done|]. intros H [= ->]. set_solver. Qed.

Lemma rootp_in {K V} (T : @ptree K V) p : rootp T = Some p → p ∈ ptrs T.
Proof. destruct T; simpl; [done|]. intros [= ->]. set_solver. Qed.

(** * Symbolic execution of the heap code

    The lemmas and tactics below run the monadic code on a state described
    by [shape]: reads are resolved with the cells that [shape] provides,
    writes pile up as updates of the arena, and [shape] of the final state is
    re-established cell by cell. *)

Section MonadLemmas.
Context {K V : Type}.
Implicit Types (t : Tree K V).

Lemma bind_Some {A B} (m : @M K V A) (f : A → @M K V B) t a t' :
  m t = Some (a, t') → bind m f t = f a t'.
Proof. unfold bind. by intros ->. Qed.

Lemma get_Some t p n : store t !! p = Some n → get (Some p) t = Some (n, t).
Proof. unfold get; simpl. by intros ->. Qed.

Lemma modify_Some t p n f :
  store t !! p = Some n →
  modify (Some p) f t = Some (tt, mkTree (Root t) (size t) (<[p := f n]> (store t))).
Proof. unfold modify. by intros ->. Qed.
End MonadLemmas.

Ltac hstep :=
  match goal with
  | |- context [ <[?i := _]> ?l !! ?i ] =>
      rewrite (list_lookup_insert_eq l i)
        by (rewrite ?length_insert; eapply lookup_lt_Some; eassumption)
  | |- context [ <[?i := _]> ?l !! ?j ] =>
      rewrite (list_lookup_insert_ne l i j) by congruence
  | H : ?l !! ?i = Some _ |- context [ ?l !! ?i ] => rewrite H
  | |- context [bool_decide (Some ?a = Some ?a)] =>
      rewrite (bool_decide_eq_true_2 (Some a = Some a)) by reflexivity
  | |- context [bool_decide (Some ?a = Some ?b)] =>
      rewrite (bool_decide_eq_false_2 (Some a = Some b)) by congruence
  | |- context [bool_decide (Some ?a = rootp ?X)] =>
      rewrite (bool_decide_eq_false_2 (Some a = rootp X))
        by (apply rootp_notin; assumption)
  end.

Ltac hsimpl := simpl; repeat (hstep; simpl).

(** Splitting a list of pointers into its explicit elements and the rest. *)
Ltac nd_split l :=
  lazymatch l with
  | @nil _ => constr:((@nil nat, @nil nat))
  | ?x :: ?r =>
      let pr := nd_split r in
      lazymatch pr with (?e, ?s) => constr:((x :: e, s)) end
  | ?a ++ ?b =>
      let pa := nd_split a in
      let pb := nd_split b in
      lazymatch pa with
      | (?ea, ?sa) =>
          lazymatch pb with
          | (?eb, ?sb) =>
              let e := eval cbn [app] in (ea ++ eb) in constr:((e, sa ++ sb))
          end
      end
  | ?s => constr:((@nil nat, s))
  end.

Ltac ni_decomp H :=
  lazymatch type of H with
  | _ ∉ _ :: _ =>
      let H1 := fresh "Hne" in
      apply not_elem_of_cons in H as [H1 H]; ni_decomp H
  | _ ∉ _ ++ _ =>
      let H1 := fresh "Hni" in
      apply not_elem_of_app in H as [H1 H]; ni_decomp H1; ni_decomp H
  | _ ∉ [] => clear H
  | _ => idtac
  end.

Ltac nd_decomp H :=
  lazymatch type of H with
  | NoDup (_ :: _) =>
      let H1 := fresh "Hni" in
      apply NoDup_cons in H as [H1 H]; ni_decomp H1; nd_decomp H
  | _ => idtac
  end.

(** All the disequalities that a [NoDup] hypothesis gives. *)
Ltac nodup_facts H :=
  let H' := fresh "Hnd" in
  lazymatch type of H with
  | NoDup ?l =>
      let pr := nd_split l in
      lazymatch pr with
      | (?e, ?s) =>
          assert (H' : NoDup (e ++ s))
            by (eapply NoDup_Permutation_proper; [|exact H]; solve_Permutation);
          cbn [app] in H'; nd_decomp H'
      end
  end.

(** The cells and disequalities that [H : shape (plug C W) t] gives. *)
Ltac shape_facts H :=
  let HR := fresh "HR" in
  let HND := fresh "HND" in
  let HC := fresh "HC" in
  let Hh := fresh "Hh" in
  pose proof (proj1 (shape_plug _ _ _) H) as (HR & HND & HC & Hh);
  simpl in HR, HND, HC, Hh; unfold frame_cell in HC; simpl in HC;
  destruct_and?; nodup_facts HND.

(** [shape] of a state whose arena is the old one with some cells updated;
    [HND] is the [NoDup] fact of the old state. *)
Ltac shape_solve HND :=
  lazymatch goal with
  | |- shape (plug ?C ?s) _ => apply (proj2 (shape_plug C s _))
  end;
  simpl; unfold frame_cell; simpl;
  split_and!;
  try done;
  try (hsimpl; reflexivity);
  try (repeat (apply heap_ok_insert; [done|]); done);
  try (repeat (apply ctx_ok_insert; [done|]); done);
  try (eapply NoDup_Permutation_proper; [|exact HND]; solve_Permutation).

Ltac run_prims :=
  unfold bind, get, ask, modify, set_Root, ret, deref, andM,
    set_Left, set_Right, set_Parent, set_color, set_Key, set_Value.

(** ** Rotations *)

Section Rotations.
Context {K V : Type}.
Implicit Types (t : Tree K V) (a b d : @ptree K V) (C : list (@frame K V)).

Definition a_rotateLeft (T : @ptree K V) : option ptree :=
  match T with
  | PNode p c a k v (PNode q c' b k' v' d) => Some (PNode q c' (PNode p c a k v b) k' v' d)
  | _ => None
  end.

Definition a_rotateRight (T : @ptree K V) : option ptree :=
  match T with
  | PNode p c (PNode q c' a k' v' b) k v d => Some (PNode q c' a k' v' (PNode p c b k v d))
  | _ => None
  end.

Lemma rotateLeft_spec C p c a k v q c' b k' v' d t :
  shape (plug C (PNode p c a k v (PNode q c' b k' v' d))) t →
  ∃ t', rotateLeft (Some p) t = Some (tt, t')
        ∧ shape (plug C (PNode q c' (PNode p c a k v b) k' v' d)) t'
        ∧ size t' = size t ∧ length (store t') = length (store t).
Proof.
  intros Hs.
  destruct C as [|[pp pc pk pv [] ps] C]; destruct b as [|rb cb bl kb vb br];
    shape_facts Hs.
  all: unfold rotateLeft, replaceNode; run_prims; hsimpl.
  all: eexists; split; [reflexivity|].
  all: split; [|split; [done|by (simpl; rewrite ?length_insert)]].
  all: shape_solve HND.
Qed.

Lemma rotateRight_spec C p c a k v q c' b k' v' d t :
  shape (plug C (PNode p c (PNode q c' a k' v' b) k v d)) t →
  ∃ t', rotateRight (Some p) t = Some (tt, t')
        ∧ shape (plug C (PNode q c' a k' v' (PNode p c b k v d))) t'
        ∧ size t' = size t ∧ length (store t') = length (store t).
Proof.
  intros Hs.
  destruct C as [|[pp pc pk pv [] ps] C]; destruct b as [|rb cb bl kb vb br];
    shape_facts Hs.
  all: unfold rotateRight, replaceNode; run_prims; hsimpl.
  all: eexists; split; [reflexivity|].
  all: split; [|split; [done|by (simpl; rewrite ?length_insert)]].
  all: shape_solve HND.
Qed.

End Rotations.

(** Unfolding of the monad and of the small helpers of the source. *)
Ltac run_all :=
  cbv beta delta [bind get ask modify set_Root ret deref andM
    set_Left set_Right set_Parent set_color set_Key set_Value
    is_left_child is_right_child parent_is_left_of parent_is_right_of
    grandparent sibling uncle nodeColor
    color_is parent_color_is left_color_is right_color_is];
  hsimpl.

Ltac finish_rot spec Hs1 :=
  let t' := fresh "t'" in
  let Hrun := fresh "Hrun" in
  let Hs' := fresh "Hs'" in
  let Hsz := fresh "Hsz" in
  let Hlen := fresh "Hlen" in
  destruct (spec _ _ _ _ _ _ _ _ _ _ _ _ _ Hs1) as (t' & Hrun & Hs' & Hsz & Hlen);
  exists t'; split_and!;
  [exact Hrun | exact Hs' | rewrite Hsz; reflexivity
  | rewrite Hlen; simpl; rewrite ?length_insert; reflexivity].

Ltac use_spec H :=
  let t' := fresh "t'" in
  let Hrun := fresh "Hrun" in
  let Hs' := fresh "Hs'" in
  let Hsz := fresh "Hsz" in
  let Hlen := fresh "Hlen" in
  destruct H as (t' & Hrun & Hs' & Hsz & Hlen);
  simpl in Hsz, Hlen; rewrite ?length_insert in Hlen.

Ltac finish_with H :=
  let t' := fresh "t'" in
  let Hrun := fresh "Hrun" in
  let Hs' := fresh "Hs'" in
  let Hsz := fresh "Hsz" in
  let Hlen := fresh "Hlen" in
  destruct H as (t' & Hrun & Hs' & Hsz & Hlen);
  simpl in Hsz, Hlen; rewrite ?length_insert in Hlen;
  exists t'; split_and!; [exact Hrun | exact Hs' | congruence | congruence].


(** ** Insertion fix-up: the abstract procedure and its simulation *)

Section InsertFix.
Context {K V : Type}.
Implicit Types (t : Tree K V) (s a b d T : @ptree K V) (C : list (@frame K V)) (f : @frame K V).

Definition set_fc (c : rbcolor) f : @frame K V := Frame (fp f) c (fk f) (fv f) (fd f) (fsib f).
Definition set_fsib (s : @ptree K V) f : @frame K V := Frame (fp f) (fc f) (fk f) (fv f) (fd f) s.
Definition recolor (c : rbcolor) T : @ptree K V :=
  match T with PLeaf => PLeaf | PNode p _ l k v r => PNode p c l k v r end.

Definition a_insertCase5 C s : option (@ptree K V) :=
  match C with
  | fP :: fG :: C2 =>
      let G' := plug1 (set_fc red fG) (plug1 (set_fc black fP) s) in
      match fd fP, fd fG with
      | DL, DL => T ← a_rotateRight G'; Some (plug C2 T)
      | DR, DR => T ← a_rotateLeft G'; Some (plug C2 T)
      | _, _ => Some (plug C2 G')
      end
  | _ => None
  end.

Lemma insertCase5_spec C2 fP fG s n T' t :
  rootp s = Some n →
  shape (plug (fP :: fG :: C2) s) t →
  a_insertCase5 (fP :: fG :: C2) s = Some T' →
  ∃ t', insertCase5 (Some n) t = Some (tt, t') ∧ shape T' t'
        ∧ size t' = size t ∧ length (store t') = length (store t).
Proof.
  intros Hn Hs Ha. destruct s as [|n' cn a kn vn b]; simplify_eq/=.
  destruct fP as [P cP kP vP dP sP], fG as [G cG kG vG dG U].
  destruct dP, dG; simplify_eq/=; shape_facts Hs.
  all: unfold insertCase5; run_all.
  - lazymatch goal with |- context [rotateRight _ ?tc] =>
      assert (Hs1 : shape (plug C2 (PNode G red (PNode P black (PNode n cn a kn vn b) kP vP sP) kG vG U)) tc)
        by shape_solve HND end.
    finish_rot (@rotateRight_spec K V) Hs1.
  - eexists; split; [reflexivity|].
    split; [|split; [done|by (simpl; rewrite ?length_insert)]].
    unfold plug1; simpl. shape_solve HND.
  - eexists; split; [reflexivity|].
    split; [|split; [done|by (simpl; rewrite ?length_insert)]].
    unfold plug1; simpl. shape_solve HND.
  - lazymatch goal with |- context [rotateLeft _ ?tc] =>
      assert (Hs1 : shape (plug C2 (PNode G red U kG vG (PNode P black sP kP vP (PNode n cn a kn vn b)))) tc)
        by shape_solve HND end.
    finish_rot (@rotateLeft_spec K V) Hs1.
Qed.

Definition a_insertCase4 C s : option (@ptree K V) :=
  match C with
  | fP :: fG :: C2 =>
      match fd fP, fd fG, s with
      | DR, DL, PNode n cn a kn vn b =>
          a_insertCase5 (Frame n cn kn vn DL b :: fG :: C2)
            (PNode (fp fP) (fc fP) (fsib fP) (fk fP) (fv fP) a)
      | DL, DR, PNode n cn a kn vn b =>
          a_insertCase5 (Frame n cn kn vn DR a :: fG :: C2)
            (PNode (fp fP) (fc fP) b (fk fP) (fv fP) (fsib fP))
      | DR, DL, PLeaf | DL, DR, PLeaf => None
      | _, _, _ => a_insertCase5 C s
      end
  | _ => None
  end.

Definition a_insertCase3 (arec : list frame → ptree → option ptree) C s : option (@ptree K V) :=
  match C with
  | fP :: fG :: C2 =>
      match fsib fG with
      | PNode u red ul ku vu ur =>
          arec C2 (plug1 (set_fsib (PNode u black ul ku vu ur) (set_fc red fG))
                     (plug1 (set_fc black fP) s))
      | _ => a_insertCase4 C s
      end
  | _ => None
  end.

Definition a_insertCase2 (arec : list frame → ptree → option ptree) C s : option (@ptree K V) :=
  match C with
  | fP :: _ =>
      match fc fP with
      | black => Some (plug C s)
      | red => a_insertCase3 arec C s
      end
  | [] => None
  end.

Fixpoint a_insertCase1 (fuel : nat) C s : option (@ptree K V) :=
  match fuel with
  | O => None
  | S fuel' =>
      match C with
      | [] => Some (recolor black s)
      | _ => a_insertCase2 (a_insertCase1 fuel') C s
      end
  end.

(** A heap procedure started at the root of [s] in context [C] does what
    the abstract procedure says. *)
Definition simulates (proc : ptr → @M K V unit)
    (aproc : list frame → ptree → option (@ptree K V)) : Prop :=
  ∀ C s n T' t,
    rootp s = Some n → shape (plug C s) t → aproc C s = Some T' →
    ∃ t', proc (Some n) t = Some (tt, t') ∧ shape T' t'
          ∧ size t' = size t ∧ length (store t') = length (store t).

Lemma insertCase5_sim : simulates insertCase5 a_insertCase5.
Proof.
  intros C s n T' t Hn Hs Ha. destruct C as [|fP [|fG C2]]; try done.
  by eapply insertCase5_spec.
Qed.

Lemma insertCase4_sim : simulates insertCase4 a_insertCase4.
Proof.
  intros C s n T' t Hn Hs Ha. destruct C as [|fP [|fG C2]]; try done.
  destruct s as [|n' cn a kn vn b]; simplify_eq/=.
  destruct fP as [P cP kP vP dP sP], fG as [G cG kG vG dG U].
  destruct dP, dG; simpl in Ha; shape_facts Hs.
  all: unfold insertCase4; run_all.
  - finish_with (insertCase5_sim _ (PNode _ _ _ _ _ _) _ _ _ eq_refl Hs Ha).
  - assert (Hs1 : shape (plug (Frame G cG kG vG DR U :: C2)
                           (PNode P cP (PNode n cn a kn vn b) kP vP sP)) t) by exact Hs.
    use_spec (rotateRight_spec _ _ _ _ _ _ _ _ _ _ _ _ _ Hs1).
    rewrite Hrun. clear - Hs' Ha Hsz Hlen. shape_facts Hs'. run_all.
    assert (Hs2 : shape (plug (Frame n cn kn vn DR a :: Frame G cG kG vG DR U :: C2)
                           (PNode P cP b kP vP sP)) t') by exact Hs'.
    finish_with (insertCase5_sim _ (PNode _ _ _ _ _ _) _ _ _ eq_refl Hs2 Ha).
  - assert (Hs1 : shape (plug (Frame G cG kG vG DL U :: C2)
                           (PNode P cP sP kP vP (PNode n cn a kn vn b))) t) by exact Hs.
    use_spec (rotateLeft_spec _ _ _ _ _ _ _ _ _ _ _ _ _ Hs1).
    rewrite Hrun. clear - Hs' Ha Hsz Hlen. shape_facts Hs'. run_all.
    assert (Hs2 : shape (plug (Frame n cn kn vn DL b :: Frame G cG kG vG DL U :: C2)
                           (PNode P cP sP kP vP a)) t') by exact Hs'.
    finish_with (insertCase5_sim _ (PNode _ _ _ _ _ _) _ _ _ eq_refl Hs2 Ha).
  - finish_with (insertCase5_sim _ (PNode _ _ _ _ _ _) _ _ _ eq_refl Hs Ha).
Qed.

Lemma insertCase3_sim self aself :
  simulates self aself → simulates (insertCase3 self) (a_insertCase3 aself).
Proof.
  intros Hrec C s n T' t Hn Hs Ha. destruct C as [|fP [|fG C2]]; try done.
  pose proof (insertCase4_sim (fP :: fG :: C2) s n T' t Hn Hs) as H4.
  destruct s as [|n' cn a kn vn b]; simplify_eq/=.
  destruct fP as [P cP kP vP dP sP], fG as [G cG kG vG dG U].
  destruct U as [|u [] ul ku vu ur]; simpl in Ha.
  1,2: destruct dP, dG; shape_facts Hs; unfold insertCase3; run_all; by apply H4.
  clear H4.
  destruct dP, dG; shape_facts Hs; unfold insertCase3; run_all;
    (lazymatch goal with |- context [self _ ?tc] =>
       lazymatch type of Ha with aself ?C ?s = _ =>
         assert (Hs1 : shape (plug C s) tc) by (unfold plug1; simpl; shape_solve HND)
       end end);
    finish_with (Hrec _ (PNode _ _ _ _ _ _) _ _ _ eq_refl Hs1 Ha).
Qed.

Lemma insertCase2_sim self aself :
  simulates self aself → simulates (insertCase2 self) (a_insertCase2 aself).
Proof.
  intros Hrec C s n T' t Hn Hs Ha. destruct C as [|fP C1]; try done.
  pose proof (insertCase3_sim self aself Hrec (fP :: C1) s n T' t Hn Hs) as H3.
  destruct s as [|n' cn a kn vn b]; simplify_eq/=.
  destruct fP as [P [] kP vP dP sP]; simpl in Ha.
  - simplify_eq. destruct dP; shape_facts Hs; unfold insertCase2; run_all.
    all: by eexists.
  - destruct dP; shape_facts Hs; unfold insertCase2; run_all; by apply H3.
Qed.

Lemma insertCase1_sim fuel : simulates (insertCase1 fuel) (a_insertCase1 fuel).
Proof.
  induction fuel as [|fuel IH]; intros C s n T' t Hn Hs Ha; [done|].
  destruct C as [|fP C1].
  - destruct s as [|n' cn a kn vn b]; simplify_eq/=.
    shape_facts Hs. run_all. eexists; split; [reflexivity|].
    split; [|split; [done|by (simpl; rewrite ?length_insert)]].
    change (shape (plug [] (PNode n black a kn vn b))
              {| Root := Root t; size := size t;
                 store := <[n:=mkNode kn vn black (rootp a) (rootp b) None]> (store t) |}).
    shape_solve HND.
  - pose proof (insertCase2_sim _ _ IH (fP :: C1) s n T' t Hn Hs Ha) as H2.
    destruct s as [|n' cn a kn vn b]; simplify_eq/=.
    destruct fP as [P cP kP vP dP sP]. destruct dP; shape_facts Hs; run_all; apply H2.
Qed.

End InsertFix.

(** ** Deletion fix-up: the abstract procedure and its simulation

    The deletion fix-up never looks inside the subtree of the node it is
    started at: it is a function of the context alone. *)

Section DeleteFix.
Context {K V : Type}.
Implicit Types (t : Tree K V) (s a b d T : @ptree K V) (C : list (@frame K V)) (f : @frame K V).

Definition is_black (c : rbcolor) : bool := match c with black => true | red => false end.

Definition a_deleteCase6 C : option (list (@frame K V)) :=
  match C with
  | fP :: C1 =>
      match fsib fP with
      | PNode sp cs sl ks vs sr =>
          match fd fP with
          | DL =>
              match sr with
              | PNode x red xl kx vx xr =>
                  Some (Frame (fp fP) black (fk fP) (fv fP) DL sl
                        :: Frame sp (fc fP) ks vs DL (PNode x black xl kx vx xr) :: C1)
              | _ => None
              end
          | DR =>
              match sl with
              | PNode x red xl kx vx xr =>
                  Some (Frame (fp fP) black (fk fP) (fv fP) DR sr
                        :: Frame sp (fc fP) ks vs DR (PNode x black xl kx vx xr) :: C1)
              | _ => None
              end
          end
      | PLeaf => None
      end
  | [] => None
  end.

Definition a_deleteCase5 C : option (list (@frame K V)) :=
  match C with
  | fP :: C1 =>
      match fsib fP with
      | PNode sp cs sl ks vs sr =>
          match fd fP with
          | DL =>
              match cs, sl with
              | black, PNode x red xl kx vx xr =>
                  if is_black (rootc sr)
                  then a_deleteCase6
                         (set_fsib (PNode x black xl kx vx (PNode sp red xr ks vs sr)) fP :: C1)
                  else a_deleteCase6 C
              | _, _ => a_deleteCase6 C
              end
          | DR =>
              match cs, sr with
              | black, PNode x red xl kx vx xr =>
                  if is_black (rootc sl)
                  then a_deleteCase6
                         (set_fsib (PNode x black (PNode sp red sl ks vs xl) kx vx xr) fP :: C1)
                  else a_deleteCase6 C
              | _, _ => a_deleteCase6 C
              end
          end
      | PLeaf => None
      end
  | [] => None
  end.

Definition a_deleteCase4 C : option (list (@frame K V)) :=
  match C with
  | fP :: C1 =>
      match fsib fP with
      | PNode sp cs sl ks vs sr =>
          if negb (is_black (fc fP)) && is_black cs && is_black (rootc sl) && is_black (rootc sr)
          then Some (set_fsib (PNode sp red sl ks vs sr) (set_fc black fP) :: C1)
          else a_deleteCase5 C
      | PLeaf => None
      end
  | [] => None
  end.

Definition a_deleteCase3 (arec : list frame → option (list frame)) C
    : option (list (@frame K V)) :=
  match C with
  | fP :: C1 =>
      match fsib fP with
      | PNode sp cs sl ks vs sr =>
          if is_black (fc fP) && is_black cs && is_black (rootc sl) && is_black (rootc sr)
          then C1' ← arec C1; Some (set_fsib (PNode sp red sl ks vs sr) fP :: C1')
          else a_deleteCase4 C
      | PLeaf => None
      end
  | [] => None
  end.

Definition a_deleteCase2 (arec : list frame → option (list frame)) C
    : option (list (@frame K V)) :=
  match C with
  | fP :: C1 =>
      match fsib fP with
      | PNode sp red sl ks vs sr =>
          match fd fP with
          | DL => a_deleteCase3 arec
                    (Frame (fp fP) red (fk fP) (fv fP) DL sl :: Frame sp black ks vs DL sr :: C1)
          | DR => a_deleteCase3 arec
                    (Frame (fp fP) red (fk fP) (fv fP) DR sr :: Frame sp black ks vs DR sl :: C1)
          end
      | _ => a_deleteCase3 arec C
      end
  | [] => None
  end.

Fixpoint a_deleteCase1 (fuel : nat) C : option (list (@frame K V)) :=
  match fuel with
  | O => None
  | S fuel' =>
      match C with
      | [] => Some []
      | _ => a_deleteCase2 (a_deleteCase1 fuel') C
      end
  end.

Definition simulates_ctx (proc : ptr → @M K V unit)
    (aproc : list frame → option (list (@frame K V))) : Prop :=
  ∀ C s n C' t,
    rootp s = Some n → shape (plug C s) t → aproc C = Some C' →
    ∃ t', proc (Some n) t = Some (tt, t') ∧ shape (plug C' s) t'
          ∧ size t' = size t ∧ length (store t') = length (store t).

Lemma deleteCase6_sim : simulates_ctx deleteCase6 a_deleteCase6.
Proof.
  intros C s n C' t Hn Hs Ha. destruct C as [|fP C1]; try done.
  destruct s as [|n' cn a kn vn b]; simplify_eq/=.
  destruct fP as [P cP kP vP dP [|sp cs sl ks vs sr]]; try done.
  destruct dP; simpl in Ha.
  - destruct sr as [|x [] xl kx vx xr]; simplify_eq.
    shape_facts Hs. unfold deleteCase6; run_all.
    lazymatch goal with |- context [rotateLeft _ ?tc] =>
      assert (Hs1 : shape (plug C1 (PNode P black (PNode n cn a kn vn b) kP vP
                                      (PNode sp cP sl ks vs (PNode x black xl kx vx xr)))) tc)
        by shape_solve HND end.
    finish_rot (@rotateLeft_spec K V) Hs1.
  - destruct sl as [|x [] xl kx vx xr]; simplify_eq.
    shape_facts Hs. unfold deleteCase6; run_all.
    lazymatch goal with |- context [rotateRight _ ?tc] =>
      assert (Hs1 : shape (plug C1 (PNode P black (PNode sp cP (PNode x black xl kx vx xr) ks vs sr)
                                      kP vP (PNode n cn a kn vn b))) tc)
        by shape_solve HND end.
    finish_rot (@rotateRight_spec K V) Hs1.
Qed.

Lemma deleteCase5_sim : simulates_ctx deleteCase5 a_deleteCase5.
Proof.
  intros C s n C' t Hn Hs Ha. destruct C as [|fP C1]; try done.
  pose proof (deleteCase6_sim (fP :: C1) s n C' t Hn Hs) as H6.
  destruct s as [|n' cn a kn vn b]; simplify_eq/=.
  destruct fP as [P cP kP vP dP [|sp cs sl ks vs sr]]; try done.
  destruct dP, cs, sl as [|xl [] xll kxl vxl xlr], sr as [|xr [] xrl kxr vxr xrr];
    shape_facts Hs; unfold deleteCase5; run_all; try (by apply H6); clear H6.
  - lazymatch goal with |- context [rotateRight _ ?tc] =>
      assert (Hs1 : shape (plug (Frame P cP kP vP DR (PNode n cn a kn vn b) :: C1)
                             (PNode sp red (PNode xl black xll kxl vxl xlr) ks vs PLeaf)) tc)
        by shape_solve HND end.
    use_spec (rotateRight_spec _ _ _ _ _ _ _ _ _ _ _ _ _ Hs1). rewrite Hrun.
    finish_with (deleteCase6_sim
      (Frame P cP kP vP DL (PNode xl black xll kxl vxl (PNode sp red xlr ks vs PLeaf)) :: C1)
      (PNode n cn a kn vn b) n C' t' eq_refl Hs' Ha).
  - lazymatch goal with |- context [rotateRight _ ?tc] =>
      assert (Hs1 : shape (plug (Frame P cP kP vP DR (PNode n cn a kn vn b) :: C1)
                             (PNode sp red (PNode xl black xll kxl vxl xlr) ks vs
                                (PNode xr black xrl kxr vxr xrr))) tc)
        by shape_solve HND end.
    use_spec (rotateRight_spec _ _ _ _ _ _ _ _ _ _ _ _ _ Hs1). rewrite Hrun.
    finish_with (deleteCase6_sim
      (Frame P cP kP vP DL (PNode xl black xll kxl vxl
         (PNode sp red xlr ks vs (PNode xr black xrl kxr vxr xrr))) :: C1)
      (PNode n cn a kn vn b) n C' t' eq_refl Hs' Ha).
  - lazymatch goal with |- context [rotateLeft _ ?tc] =>
      assert (Hs1 : shape (plug (Frame P cP kP vP DL (PNode n cn a kn vn b) :: C1)
                             (PNode sp red PLeaf ks vs (PNode xr black xrl kxr vxr xrr))) tc)
        by shape_solve HND end.
    use_spec (rotateLeft_spec _ _ _ _ _ _ _ _ _ _ _ _ _ Hs1). rewrite Hrun.
    finish_with (deleteCase6_sim
      (Frame P cP kP vP DR (PNode xr black (PNode sp red PLeaf ks vs xrl) kxr vxr xrr) :: C1)
      (PNode n cn a kn vn b) n C' t' eq_refl Hs' Ha).
  - lazymatch goal with |- context [rotateLeft _ ?tc] =>
      assert (Hs1 : shape (plug (Frame P cP kP vP DL (PNode n cn a kn vn b) :: C1)
                             (PNode sp red (PNode xl black xll kxl vxl xlr) ks vs
                                (PNode xr black xrl kxr vxr xrr))) tc)
        by shape_solve HND end.
    use_spec (rotateLeft_spec _ _ _ _ _ _ _ _ _ _ _ _ _ Hs1). rewrite Hrun.
    finish_with (deleteCase6_sim
      (Frame P cP kP vP DR (PNode xr black
         (PNode sp red (PNode xl black xll kxl vxl xlr) ks vs xrl) kxr vxr xrr) :: C1)
      (PNode n cn a kn vn b) n C' t' eq_refl Hs' Ha).
Qed.

Lemma deleteCase4_sim : simulates_ctx deleteCase4 a_deleteCase4.
Proof.
  intros C s n C' t Hn Hs Ha. destruct C as [|fP C1]; try done.
  pose proof (deleteCase5_sim (fP :: C1) s n C' t Hn Hs) as H5.
  destruct s as [|n' cn a kn vn b]; simplify_eq/=.
  destruct fP as [P cP kP vP dP [|sp cs sl ks vs sr]]; try done.
  destruct dP, sl as [|xl cxl xll kxl vxl xlr], sr as [|xr cxr xrl kxr vxr xrr];
    shape_facts Hs; unfold deleteCase4;
    destruct cP, cs; try destruct cxl; try destruct cxr; run_all;
    first [ by apply H5
          | simpl in Ha; simplify_eq; eexists; split; [reflexivity|];
            split; [shape_solve HND|split; [done|by (simpl; rewrite ?length_insert)]] ].
Qed.

Lemma deleteCase3_sim self aself :
  simulates_ctx self aself → simulates_ctx (deleteCase3 self) (a_deleteCase3 aself).
Proof.
  intros Hrec C s n C' t Hn Hs Ha. destruct C as [|fP C1]; try done.
  pose proof (deleteCase4_sim (fP :: C1) s n C' t Hn Hs) as H4.
  destruct s as [|n' cn a kn vn b]; simplify_eq/=.
  destruct fP as [P cP kP vP dP [|sp cs sl ks vs sr]]; try done.
  destruct dP, sl as [|xl cxl xll kxl vxl xlr], sr as [|xr cxr xrl kxr vxr xrr];
    shape_facts Hs; unfold deleteCase3;
    destruct cP, cs; try destruct cxl; try destruct cxr; run_all;
    first [ by apply H4
          | simpl in Ha; destruct (aself C1) as [C1'|] eqn:Hrec1; simplify_eq/=;
            lazymatch goal with |- context [self _ ?tc] =>
              lazymatch type of Hs with
              | shape (plug (Frame _ _ _ _ ?d (PNode _ _ ?SL _ _ ?SR) :: _) _) _ =>
                  assert (Hs1 : shape (plug C1
                            (plug1 (Frame P black kP vP d (PNode sp red SL ks vs SR))
                               (PNode n cn a kn vn b))) tc)
                    by (unfold plug1; simpl; shape_solve HND)
              end
            end;
            finish_with (Hrec C1 (PNode P black _ kP vP _) P C1' _ eq_refl Hs1 Hrec1) ].
Qed.

Lemma deleteCase2_sim self aself :
  simulates_ctx self aself → simulates_ctx (deleteCase2 self) (a_deleteCase2 aself).
Proof.
  intros Hrec C s n C' t Hn Hs Ha. destruct C as [|fP C1]; try done.
  pose proof (deleteCase3_sim self aself Hrec (fP :: C1) s n C' t Hn Hs) as H3.
  destruct s as [|n' cn a kn vn b]; simplify_eq/=.
  destruct fP as [P cP kP vP dP [|sp cs sl ks vs sr]]; try done.
  destruct dP, cs; shape_facts Hs; unfold deleteCase2; run_all; try (by apply H3); clear H3.
  - lazymatch goal with |- context [rotateLeft _ ?tc] =>
      assert (Hs1 : shape (plug C1 (PNode P red (PNode n cn a kn vn b) kP vP
                                      (PNode sp black sl ks vs sr))) tc)
        by shape_solve HND end.
    use_spec (rotateLeft_spec _ _ _ _ _ _ _ _ _ _ _ _ _ Hs1). rewrite Hrun.
    finish_with (deleteCase3_sim self aself Hrec
      (Frame P red kP vP DL sl :: Frame sp black ks vs DL sr :: C1)
      (PNode n cn a kn vn b) n C' t' eq_refl Hs' Ha).
  - lazymatch goal with |- context [rotateRight _ ?tc] =>
      assert (Hs1 : shape (plug C1 (PNode P red (PNode sp black sl ks vs sr) kP vP
                                      (PNode n cn a kn vn b))) tc)
        by shape_solve HND end.
    use_spec (rotateRight_spec _ _ _ _ _ _ _ _ _ _ _ _ _ Hs1). rewrite Hrun.
    finish_with (deleteCase3_sim self aself Hrec
      (Frame P red kP vP DR sr :: Frame sp black ks vs DR sl :: C1)
      (PNode n cn a kn vn b) n C' t' eq_refl Hs' Ha).
Qed.

Lemma deleteCase1_sim fuel : simulates_ctx (deleteCase1 fuel) (a_deleteCase1 fuel).
Proof.
  induction fuel as [|fuel IH]; intros C s n C' t Hn Hs Ha; [done|].
  destruct C as [|fP C1].
  - destruct s as [|n' cn a kn vn b]; simplify_eq/=.
    shape_facts Hs. run_all. by eexists.
  - pose proof (deleteCase2_sim _ _ IH (fP :: C1) s n C' t Hn Hs Ha) as H2.
    destruct s as [|n' cn a kn vn b]; simplify_eq/=.
    destruct fP as [P cP kP vP dP sP]. destruct dP; shape_facts Hs; run_all; apply H2.
Qed.
End DeleteFix.


(** * Red-black invariants on the abstract tree *)

Section Colours.
Context {K V : Type}.
Implicit Types (s a b d T : @ptree K V) (C : list (@frame K V)) (f : @frame K V).

(** [bh T n]: every path from the root of [T] to a leaf passes through [n]
    black nodes, and so it is in every subtree. *)
Fixpoint bh T (n : nat) : Prop :=
  match T with
  | PLeaf => n = 0
  | PNode _ red l _ _ r => bh l n ∧ bh r n
  | PNode _ black l _ _ r =>
      match n with
      | O => False
      | S m => bh l m ∧ bh r m
      end
  end.

(** No red node has a red child. *)
Fixpoint nrr T : Prop :=
  match T with
  | PLeaf => True
  | PNode _ c l _ _ r =>
      (c = red → rootc l = black ∧ rootc r = black) ∧ nrr l ∧ nrr r
  end.

Definition rbtree T : Prop := rootc T = black ∧ nrr T ∧ ∃ n, bh T n.

(** The invariants of a context whose hole takes a subtree of black height
    [n] and root colour [hc]. *)
Fixpoint ctx_inv C (n : nat) (hc : rbcolor) : Prop :=
  match C with
  | [] => True
  | f :: C' =>
      bh (fsib f) n ∧ nrr (fsib f)
      ∧ (fc f = red → hc = black ∧ rootc (fsib f) = black)
      ∧ (C' = [] → fc f = black)
      ∧ ctx_inv C' (match fc f with black => S n | red => n end) (fc f)
  end.

Lemma ctx_inv_mono C n hc : ctx_inv C n hc → ctx_inv C n black.
Proof. destruct C as [|f C]; simpl; [done|]. naive_solver. Qed.

Lemma ctx_inv_red C n : ctx_inv C n red → ∀ hc, ctx_inv C n hc.
Proof. destruct C as [|f C]; simpl; [done|]. intros (?&?&?&?&?) hc. split_and!; try done. naive_solver. Qed.

Lemma rbtree_plug C s :
  rbtree (plug C s) ↔
    ∃ n, bh s n ∧ nrr s ∧ ctx_inv C n (rootc s) ∧ (C = [] → rootc s = black).
Proof.
  unfold rbtree. revert s; induction C as [|f C IH]; intros s.
  - unfold plug. simpl. naive_solver.
  - change (plug (f :: C) s) with (plug C (plug1 f s)). rewrite IH. clear IH.
    destruct f as [p c k v d sib]. unfold plug1; simpl. split.
    + intros (n & Hbh & Hnrr & Hctx & Hroot).
      destruct d, c; simpl in *.
      all: try (destruct n as [|m]; [naive_solver|]).
      all: eexists; split_and!; try naive_solver.
    + intros (n & Hbh & Hnrr & (Hb2 & Hn2 & Hred & Hr2 & Hctx) & _).
      destruct c; [exists (S n)|exists n]; destruct d; simpl in *;
        split_and!; naive_solver.
Qed.

(** The subtree at which the insertion fix-up works: a red node over black
    children of black height [m]. *)
Definition red_ok s (m : nat) : Prop :=
  match s with
  | PNode _ red a _ _ b =>
      bh a m ∧ bh b m ∧ nrr a ∧ nrr b ∧ rootc a = black ∧ rootc b = black
  | _ => False
  end.

Lemma a_insertCase1_rb fuel C s m :
  length C < fuel → red_ok s m → ctx_inv C m black →
  ∃ T', a_insertCase1 fuel C s = Some T' ∧ rbtree T'.
Proof.
  revert C s m. induction fuel as [|fuel IH]; intros C s m Hlen Hs HC; [lia|].
  destruct s as [|n [] a kn vn b]; try done. simpl in Hs.
  destruct C as [|[P cP kP vP dP sP] C1]; simpl.
  { eexists; split; [done|]. split_and!; simpl; [done|naive_solver|exists (S m); naive_solver]. }
  simpl in HC. destruct HC as (HbP & HnP & HrP & HlP & HC1).
  destruct cP.
  { eexists; split; [done|]. apply rbtree_plug. exists m. simpl. split_and!; naive_solver. }
  destruct C1 as [|[G cG kG vG dG U] C2]; [naive_solver|]. simpl in *.
  destruct HC1 as (HbU & HnU & HrU & HlU & HC2).
  destruct cG; [|naive_solver].
  destruct U as [|u [] ul ku vu ur]; simpl in *.
  - destruct dP, dG; simpl; eexists; (split; [done|]); apply rbtree_plug;
      exists (S m); simpl; split_and!; naive_solver.
  - destruct dP, dG; simpl; eexists; (split; [done|]); apply rbtree_plug;
      exists (S m); simpl; split_and!; naive_solver.
  - apply (IH C2 _ (S m)); [lia| |done].
    destruct dP, dG; simpl; naive_solver.
Qed.

Ltac rb_tac :=
  simpl in *;
  repeat match goal with
  | H : _ ∧ _ |- _ => destruct H
  | H : ?c = ?c → _ |- _ => specialize (H eq_refl)
  | H : red = black → _ |- _ => clear H
  | H : black = red → _ |- _ => clear H
  | H : red = black |- _ => discriminate H
  | H : black = red |- _ => discriminate H
  | H : False |- _ => destruct H
  end;
  repeat split; try assumption; try reflexivity; try discriminate;
  try (intros; assumption); try (by eapply ctx_inv_mono).

(** Deletion cases 4 to 6: a black sibling, and the parent or a child of the
    sibling red. *)
Lemma a_deleteCase4_rb P cP kP vP dP sp sl ks vs sr C1 n :
  ctx_inv (Frame P cP kP vP dP (PNode sp black sl ks vs sr) :: C1) (S n) black →
  ¬ (cP = black ∧ rootc sl = black ∧ rootc sr = black) →
  ∃ C', a_deleteCase4 (Frame P cP kP vP dP (PNode sp black sl ks vs sr) :: C1) = Some C'
        ∧ ctx_inv C' n red.
Proof.
  intros HC Hcase.
  destruct sl as [|xl [] xll kxl vxl xlr], sr as [|xr [] xrl kxr vxr xrr];
    destruct cP, dP; try (exfalso; apply Hcase; by repeat split).
  all: eexists; (split; [reflexivity|]); clear Hcase; rb_tac.
Qed.

Lemma a_deleteCase3_red arec P kP vP dP sib C1 :
  a_deleteCase3 arec (Frame P red kP vP dP sib :: C1)
  = a_deleteCase4 (Frame P red kP vP dP sib :: C1).
Proof. by destruct sib. Qed.

Lemma a_deleteCase1_rb fuel C n :
  length C < fuel → ctx_inv C (S n) black →
  ∃ C', a_deleteCase1 fuel C = Some C' ∧ ctx_inv C' n red.
Proof.
  revert C n. induction fuel as [|fuel IH]; intros C n Hlen HC; [lia|].
  destruct C as [|[P cP kP vP dP [|sp cs sl ks vs sr]] C1].
  { by eexists. }
  { simpl in HC. destruct HC as [HC _]. done. }
  cbn [a_deleteCase1]. unfold a_deleteCase2. cbn [fsib fd fp fk fv].
  destruct cs.
  - (* black sibling *)
    unfold a_deleteCase3.
    cbn [fsib fc].
    destruct (is_black cP && is_black black && is_black (rootc sl) && is_black (rootc sr)) eqn:Hc.
    + destruct cP; [|done]. simpl in Hc.
      destruct (rootc sl) eqn:Hsl; [|done]. destruct (rootc sr) eqn:Hsr; [|done].
      simpl in HC. destruct HC as (Hb & Hn & Hr & Hl & HC1).
      destruct (IH C1 (S n)) as (C1' & -> & HC1'); [simpl in Hlen; lia|done|].
      simpl. eexists; split; [done|]. rb_tac.
    + apply a_deleteCase4_rb; [done|].
      intros (-> & Hsl & Hsr). rewrite Hsl, Hsr in Hc. done.
  - (* red sibling *)
    simpl in HC. destruct HC as (Hb & Hn & Hr & Hl & HC1).
    destruct cP; [|by destruct (Hr eq_refl)]. destruct Hn as (Hcol & Hnl & Hnr).
    destruct (Hcol eq_refl) as [Hcl Hcr]. destruct Hb as [Hbl Hbr].
    destruct dP; rewrite a_deleteCase3_red.
    + destruct sl as [|xl [] xll kxl vxl xlr]; simpl in Hbl, Hcl; try done.
      apply a_deleteCase4_rb; [|by intros [? _]].
      rb_tac.
    + destruct sr as [|xr [] xrl kxr vxr xrr]; simpl in Hbr, Hcr; try done.
      apply a_deleteCase4_rb; [|by intros [? _]].
      rb_tac.
Qed.
End Colours.

(** * What the fix-ups keep: the entries in order *)

Ltac lnorm := repeat (first [rewrite <- app_assoc | progress simpl]).
Ltac inorder_norm := rewrite ?inorder_plug; simpl; rewrite ?inorder_plug; lnorm.

Section FixupInorder.
Context {K V : Type}.
Implicit Types (s a b d T : @ptree K V) (C : list (@frame K V)) (f : @frame K V).

Lemma inorder_recolor c T : inorder (recolor c T) = inorder T.
Proof. by destruct T. Qed.


Lemma a_insertCase5_inorder C s T' :
  a_insertCase5 C s = Some T' → inorder T' = inorder (plug C s).
Proof.
  destruct C as [|[P cP kP vP dP sP] [|[G cG kG vG dG U] C2]]; try done.
  destruct dP, dG; simpl; intros [= <-]; inorder_norm; reflexivity.
Qed.

Lemma a_insertCase4_inorder C s T' :
  a_insertCase4 C s = Some T' → inorder T' = inorder (plug C s).
Proof.
  destruct C as [|[P cP kP vP dP sP] [|[G cG kG vG dG U] C2]]; try done.
  destruct dP, dG, s as [|n cn a kn vn b]; simpl; try done;
    intros [= <-]; inorder_norm; reflexivity.
Qed.

Lemma a_insertCase1_inorder fuel C s T' :
  a_insertCase1 fuel C s = Some T' → inorder T' = inorder (plug C s).
Proof.
  revert C s. induction fuel as [|fuel IH]; intros C s; [done|].
  destruct C as [|[P cP kP vP dP sP] C1]; simpl.
  { intros [= <-]. apply inorder_recolor. }
  destruct cP; [by intros [= <-]|].
  destruct C1 as [|[G cG kG vG dG U] C2]; [done|]. simpl.
  pose proof (a_insertCase4_inorder
    (Frame P red kP vP dP sP :: Frame G cG kG vG dG U :: C2) s T') as H4.
  destruct U as [|u [] ul ku vu ur]; try exact H4.
  intros H. apply IH in H. rewrite H. clear.
  destruct dP, dG; inorder_norm; reflexivity.
Qed.

Definition ctx_entries_eq C C' : Prop :=
  ctx_before C' = ctx_before C ∧ ctx_after C' = ctx_after C.

Lemma a_deleteCase6_inorder C C' : a_deleteCase6 C = Some C' → ctx_entries_eq C C'.
Proof.
  destruct C as [|[P cP kP vP dP [|sp cs sl ks vs sr]] C1]; try done.
  destruct dP; simpl.
  - destruct sr as [|x [] xl kx vx xr]; try done. intros [= <-].
    split; lnorm; reflexivity.
  - destruct sl as [|x [] xl kx vx xr]; try done. intros [= <-].
    split; lnorm; reflexivity.
Qed.

Lemma a_deleteCase5_inorder C C' : a_deleteCase5 C = Some C' → ctx_entries_eq C C'.
Proof.
  destruct C as [|[P cP kP vP dP [|sp cs sl ks vs sr]] C1]; try done.
  intros H.
  destruct dP, cs, sl as [|xl [] xll kxl vxl xlr], sr as [|xr [] xrl kxr vxr xrr];
    simpl in H; try done; injection H as <-; split; lnorm; reflexivity.
Qed.

Lemma a_deleteCase4_inorder C C' : a_deleteCase4 C = Some C' → ctx_entries_eq C C'.
Proof.
  destruct C as [|[P cP kP vP dP [|sp cs sl ks vs sr]] C1]; try done.
  unfold a_deleteCase4. cbn [fsib fc].
  destruct (negb (is_black cP) && is_black cs && is_black (rootc sl) && is_black (rootc sr)).
  - intros [= <-]. by destruct dP.
  - apply a_deleteCase5_inorder.
Qed.

Lemma a_deleteCase3_inorder aself C C' :
  (∀ C C', aself C = Some C' → ctx_entries_eq C C') →
  a_deleteCase3 aself C = Some C' → ctx_entries_eq C C'.
Proof.
  intros Hself.
  destruct C as [|[P cP kP vP dP [|sp cs sl ks vs sr]] C1]; try done.
  unfold a_deleteCase3. cbn [fsib fc].
  destruct (is_black cP && is_black cs && is_black (rootc sl) && is_black (rootc sr)).
  - destruct (aself C1) as [C1'|] eqn:E; [|done]. intros [= <-].
    apply Hself in E as [E1 E2]. split; destruct dP; simpl; by rewrite ?E1, ?E2.
  - apply a_deleteCase4_inorder.
Qed.

Lemma a_deleteCase1_inorder fuel C C' :
  a_deleteCase1 fuel C = Some C' → ctx_entries_eq C C'.
Proof.
  revert C C'. induction fuel as [|fuel IH]; intros C C'; [done|].
  destruct C as [|[P cP kP vP dP sib] C1]; [by intros [= <-]|].
  cbn [a_deleteCase1]. unfold a_deleteCase2. cbn [fsib fd fp fk fv].
  intros H.
  destruct sib as [|sp [] sl ks vs sr].
  - by apply (a_deleteCase3_inorder _ _ _ IH) in H.
  - by apply (a_deleteCase3_inorder _ _ _ IH) in H.
  - destruct dP; apply (a_deleteCase3_inorder _ _ _ IH) in H; destruct H as [H1 H2];
      split; rewrite ?H1, ?H2; lnorm; reflexivity.
Qed.

End FixupInorder.

(** * The order of the keys *)

(** The contract of the comparator: a total order on the keys, [0] for equal
    keys, negative for smaller, positive for larger. *)
Class ComparatorOrder {K : Type} (cmp : K → K → Z) : Prop := {
  cmp_eq : ∀ a b, cmp a b = 0%Z ↔ a = b;
  cmp_antisym : ∀ a b, (cmp a b < 0)%Z ↔ (0 < cmp b a)%Z;
  cmp_trans : ∀ a b c, (cmp a b < 0)%Z → (cmp b c < 0)%Z → (cmp a c < 0)%Z
}.

Section Order.
Context {K V : Type}.
Variable Comparator : K → K → Z.
Context `{!ComparatorOrder Comparator}.
Implicit Types (s T : @ptree K V) (C : list (@frame K V)) (e : nat * K * V).

Definition klt (a b : K) : Prop := (Comparator a b < 0)%Z.

Definition entry_key e : K := e.1.2.
Definition keys T : list K := entry_key <$> inorder T.
Definition kvs T : list (K * V) := (λ e, (e.1.2, e.2)) <$> inorder T.

(** The binary-search-tree property, node by node. *)
Fixpoint bst T : Prop :=
  match T with
  | PLeaf => True
  | PNode _ _ l k _ r =>
      (∀ x, x ∈ keys l → klt x k) ∧ (∀ x, x ∈ keys r → klt k x) ∧ bst l ∧ bst r
  end.

(** The same property on the list of entries. *)
Definition sorted_entries (l : list (nat * K * V)) : Prop :=
  StronglySorted klt (entry_key <$> l).

Lemma klt_irrefl a : ¬ klt a a.
Proof. unfold klt. intros H. pose proof (proj2 (cmp_eq a a) eq_refl). lia. Qed.

Lemma klt_trans a b c : klt a b → klt b c → klt a c.
Proof. apply cmp_trans. Qed.

Lemma klt_asym a b : klt a b → ¬ klt b a.
Proof. intros H1 H2. eapply klt_irrefl, klt_trans; eauto. Qed.

Lemma klt_gt a b : (0 < Comparator a b)%Z → klt b a.
Proof. unfold klt. by rewrite cmp_antisym. Qed.

Lemma cmp_lt_neq a b : klt a b → a ≠ b.
Proof. intros H ->. by eapply klt_irrefl. Qed.

Lemma sorted_entries_app (l1 l2 : list (nat * K * V)) :
  sorted_entries (l1 ++ l2) ↔
    (∀ e1 e2, e1 ∈ l1 → e2 ∈ l2 → klt (entry_key e1) (entry_key e2))
    ∧ sorted_entries l1 ∧ sorted_entries l2.
Proof.
  unfold sorted_entries. rewrite fmap_app, StronglySorted_app.
  split; intros (H1 & H2 & H3); split_and!; try done.
  - intros e1 e2 He1 He2. apply H1; by apply list_elem_of_fmap_2.
  - intros x1 x2 (e1 & -> & He1)%list_elem_of_fmap (e2 & -> & He2)%list_elem_of_fmap. eauto.
Qed.

Lemma sorted_entries_cons e (l : list (nat * K * V)) :
  sorted_entries (e :: l) ↔
    (∀ e2, e2 ∈ l → klt (entry_key e) (entry_key e2)) ∧ sorted_entries l.
Proof.
  unfold sorted_entries. rewrite fmap_cons, StronglySorted_cons, Forall_forall.
  split; intros (H1 & H2); split; try done.
  - intros e2 He2. apply H1. by apply list_elem_of_fmap_2.
  - intros x (e2 & -> & He2)%list_elem_of_fmap. eauto.
Qed.

Lemma bst_sorted T : bst T ↔ sorted_entries (inorder T).
Proof.
  induction T as [|p c l IHl k v r IHr]; simpl.
  - split; [intros _; constructor|done].
  - rewrite sorted_entries_app, sorted_entries_cons, IHl, IHr. unfold keys.
    split.
    + intros (Hl & Hr & Sl & Sr). split_and!; try done.
      * intros e1 e2 He1 [->|He2]%elem_of_cons.
        -- apply Hl. by apply list_elem_of_fmap_2.
        -- eapply klt_trans; [apply Hl|apply Hr]; by apply list_elem_of_fmap_2.
      * intros e2 He2. apply Hr. by apply list_elem_of_fmap_2.
    + intros (H & Sl & Hr & Sr). split_and!; try done.
      * intros x (e & -> & He)%list_elem_of_fmap. apply (H e (p, k, v)); set_solver.
      * intros x (e & -> & He)%list_elem_of_fmap. by apply Hr.
Qed.

End Order.

(** * The descent from the root *)

Section Descent.
Context {K V : Type}.
Variable Comparator : K → K → Z.
Implicit Types (s T : @ptree K V) (C : list (@frame K V)) (e : nat * K * V) (t : Tree K V).

(** The descent of [Put], [lookup] and [Remove]: down from the subtree [s]
    in context [C], to the node whose key compares equal to [key] or to the
    leaf where [key] belongs. *)
Fixpoint a_find (key : K) C s : list (@frame K V) * @ptree K V :=
  match s with
  | PLeaf => (C, PLeaf)
  | PNode p c l k v r =>
      if (Comparator key k =? 0)%Z then (C, s)
      else if (Comparator key k <? 0)%Z then a_find key (Frame p c k v DL r :: C) l
      else a_find key (Frame p c k v DR l :: C) r
  end.

Lemma a_find_plug key C s : plug (a_find key C s).1 (a_find key C s).2 = plug C s.
Proof.
  revert C; induction s as [|p c l IHl k v r IHr]; intros C; simpl; [done|].
  repeat case_match; simpl; [done|by rewrite IHl|by rewrite IHr].
Qed.

Lemma a_find_length key C s :
  length (a_find key C s).1 ≤ length C + length (ptrs s).
Proof.
  revert C; induction s as [|p c l IHl k v r IHr]; intros C; simpl; [lia|].
  rewrite length_app.
  repeat case_match; simpl; [lia|..].
  - specialize (IHl (Frame p c k v DL r :: C)). simpl in IHl. lia.
  - specialize (IHr (Frame p c k v DR l :: C)). simpl in IHr. lia.
Qed.

(** The nodes of a represented tree fit in the arena. *)
Lemma heap_ok_ptrs_lt (h : list (Node K V)) par T : heap_ok h par T → ∀ p, p ∈ ptrs T → p < length h.
Proof. intros H p Hp. by eapply heap_ok_lt. Qed.

Lemma shape_length T t : shape T t → length (ptrs T) ≤ length (store t).
Proof.
  intros (_ & HND & Hh).
  assert (ptrs T ⊆+ seq 0 (length (store t))) as Hsub.
  { apply NoDup_submseteq; [done|]. intros p Hp.
    apply elem_of_seq. split; [lia|]. simpl. by eapply heap_ok_lt. }
  apply submseteq_length in Hsub. by rewrite length_seq in Hsub.
Qed.

Lemma ctx_ptrs_length C : length C ≤ length (ctx_ptrs C).
Proof. induction C as [|f C IH]; simpl; [done|]. rewrite length_app. lia. Qed.

Lemma shape_plug_length C s t :
  shape (plug C s) t → length C + length (ptrs s) ≤ length (store t).
Proof.
  intros H. apply shape_length in H. rewrite ptrs_plug, length_app in H.
  pose proof (ctx_ptrs_length C). lia.
Qed.

Lemma shape_lookup C p c l k v r t :
  shape (plug C (PNode p c l k v r)) t →
  store t !! p = Some (mkNode k v c (rootp l) (rootp r) (ctx_top C)).
Proof. rewrite shape_plug. simpl. naive_solver. Qed.

(** [lookup]: the result of the descent. *)
Lemma lookup_loop_spec key t s C fuel :
  length (ptrs s) < fuel → shape (plug C s) t →
  lookup_loop Comparator fuel t key (rootp s) = Some (rootp (a_find key C s).2).
Proof.
  revert C fuel; induction s as [|p c l IHl k v r IHr]; intros C fuel Hf Hs.
  { destruct fuel; [lia|done]. }
  destruct fuel as [|fuel]; [lia|]. simpl in Hf. rewrite length_app in Hf.
  simpl. rewrite (shape_lookup _ _ _ _ _ _ _ _ Hs). simpl.
  destruct (Comparator key k =? 0)%Z; [done|].
  destruct (Comparator key k <? 0)%Z.
  - apply (IHl (Frame p c k v DL r :: C)); [lia|done].
  - apply (IHr (Frame p c k v DR l :: C)); [lia|done].
Qed.

Lemma lookup_spec key t T :
  shape T t → lookup Comparator t key = Some (rootp (a_find key [] T).2).
Proof.
  intros Hs. unfold lookup. destruct Hs as (HR & HND & Hh). rewrite HR.
  apply (lookup_loop_spec key t T []).
  - pose proof (shape_length T t (conj HR (conj HND Hh))). unfold fuel_of. lia.
  - done.
Qed.

End Descent.

Section PutLoop.
Context {K V : Type}.
Variable Comparator : K → K → Z.
Implicit Types (s T : @ptree K V) (C : list (@frame K V)) (e : nat * K * V) (t : Tree K V).

(** The loop of [Put] when the key is in the tree: the node is overwritten
    in place, nothing else changes. *)
Lemma Put_loop_found key value t s C fuel p0 C' q c l k v r :
  rootp s = Some p0 → length (ptrs s) < fuel → shape (plug C s) t →
  a_find Comparator key C s = (C', PNode q c l k v r) →
  ∃ t', Put_loop Comparator fuel key value (Some p0) t = Some (inr tt, t')
        ∧ shape (plug C' (PNode q c l key value r)) t'
        ∧ size t' = size t ∧ Root t' = Root t
        ∧ store t' = <[q := mkNode key value c (rootp l) (rootp r) (ctx_top C')]> (store t).
Proof.
  revert C fuel p0; induction s as [|p cp sl IHl kp vp sr IHr]; intros C fuel p0 Hp Hf Hs Ha.
  { done. }
  destruct fuel as [|fuel]; [lia|]. simpl in Hf. rewrite length_app in Hf.
  simpl in Hp. injection Hp as <-. simpl in Ha.
  cbn [Put_loop]. unfold bind at 1. rewrite (get_Some _ _ _ (shape_lookup _ _ _ _ _ _ _ _ Hs)).
  cbn [Key Left Right].
  destruct (Comparator key kp =? 0)%Z.
  - injection Ha as <- <- <- <- <- <- <-.
    shape_facts Hs. run_all. eexists. split; [reflexivity|].
    split_and!; try done.
    + shape_solve HND.
    + simpl. by rewrite list_insert_insert_eq.
  - destruct (Comparator key kp <? 0)%Z.
    + destruct sl as [|pl cl sll kl vl slr]; [done|]. simpl.
      apply (IHl (Frame p cp kp vp DL sr :: C) fuel pl); [done|lia|done|done].
    + destruct sr as [|pr cr srl kr vr srr]; [done|]. simpl.
      apply (IHr (Frame p cp kp vp DR sl :: C) fuel pr); [done|lia|done|done].
Qed.

(** The loop of [Put] when the key is new: a red cell is allocated and
    linked below the leaf position; its [Parent] is still nil. *)
Lemma Put_loop_new key value t s C fuel p0 C' :
  rootp s = Some p0 → length (ptrs s) < fuel → shape (plug C s) t →
  a_find Comparator key C s = (C', PLeaf) →
  ∃ f C'', C' = f :: C'' ∧
    Put_loop Comparator fuel key value (Some p0) t
    = Some (inl (Some (length (store t)), Some (fp f)),
            mkTree (Root t) (size t)
              (<[fp f := frame_cell f (Some (length (store t))) (ctx_top C'')]>
                 (store t ++ [mkNode key value red None None None]))).
Proof.
  revert C fuel p0; induction s as [|p cp sl IHl kp vp sr IHr]; intros C fuel p0 Hp Hf Hs Ha.
  { done. }
  destruct fuel as [|fuel]; [lia|]. simpl in Hf. rewrite length_app in Hf.
  simpl in Hp. injection Hp as <-. simpl in Ha.
  cbn [Put_loop]. unfold bind at 1. rewrite (get_Some _ _ _ (shape_lookup _ _ _ _ _ _ _ _ Hs)).
  cbn [Key Left Right].
  destruct (Comparator key kp =? 0)%Z; [done|].
  pose proof (shape_lookup _ _ _ _ _ _ _ _ Hs) as Hp.
  assert (p < length (store t)) as Hlt by (by eapply lookup_lt_Some).
  destruct (Comparator key kp <? 0)%Z.
  - destruct sl as [|pl cl sll kl vl slr].
    + simpl in Ha. injection Ha as <-. eexists _, _. split; [done|].
      simpl. unfold bind, alloc, modify, ret. simpl.
      rewrite lookup_app_l by done. rewrite Hp. simpl. reflexivity.
    + simpl. apply (IHl (Frame p cp kp vp DL sr :: C) fuel pl); [done|lia|done|done].
  - destruct sr as [|pr cr srl kr vr srr].
    + simpl in Ha. injection Ha as <-. eexists _, _. split; [done|].
      simpl. unfold bind, alloc, modify, ret. simpl.
      rewrite lookup_app_l by done. rewrite Hp. simpl. reflexivity.
    + simpl. apply (IHr (Frame p cp kp vp DR sl :: C) fuel pr); [done|lia|done|done].
Qed.

(** Linking the new cell: after [insertedNode.Parent = node] the arena
    represents the tree with the new red leaf in place. *)
Lemma Put_link key value t f C :
  shape (plug (f :: C) PLeaf) t →
  let new := length (store t) in
  shape (plug (f :: C) (PNode new red PLeaf key value PLeaf))
    (mkTree (Root t) (size t)
       (<[new := mkNode key value red None None (Some (fp f))]>
          (<[fp f := frame_cell f (Some new) (ctx_top C)]>
             (store t ++ [mkNode key value red None None None])))).
Proof.
  intros Hs new. apply shape_plug in Hs as (HR & HND & HC & _).
  simpl in HC. destruct HC as (Hf & Hsib & HC).
  assert (fp f < length (store t)) as Hlt by (by eapply lookup_lt_Some).
  assert (∀ p, p ∈ ctx_ptrs (f :: C) → p < new) as Hfresh.
  { intros p Hp. simpl in Hp. apply elem_of_cons in Hp as [->|Hp]; [done|].
    apply elem_of_app in Hp as [Hp|Hp].
    - by eapply heap_ok_lt.
    - clear -HC Hp. revert HC Hp. generalize (Some (fp f)). induction C as [|g C IH]; simpl.
      + intros _ _ Hp. by apply elem_of_nil in Hp.
      + intros child (Hg & Hgs & HC) Hp.
        apply elem_of_cons in Hp as [->|Hp]; [by eapply lookup_lt_Some|].
        apply elem_of_app in Hp as [Hp|Hp]; [by eapply heap_ok_lt|by eapply IH]. }
  rewrite app_nil_r in HND.
  assert (new ∉ ctx_ptrs (f :: C)) as Hnew.
  { intros Hin. apply Hfresh in Hin. lia. }
  assert ((fp f ∉ ptrs (fsib f)) ∧ (fp f ∉ ctx_ptrs C)) as [Hf1 Hf2].
  { simpl in HND. apply NoDup_cons_1_1 in HND. set_solver. }
  simpl in Hnew. apply not_elem_of_cons in Hnew as [Hnew0 Hnew].
  apply not_elem_of_app in Hnew as [Hnew1 Hnew2].
  apply shape_plug. split_and!.
  - done.
  - change (ptrs (PNode new red PLeaf key value PLeaf)) with [new].
    apply NoDup_app. split_and!; [done| |apply NoDup_singleton].
    intros p Hp [->|[]%elem_of_nil]%elem_of_cons. apply Hfresh in Hp. lia.
  - simpl. split_and!.
    + rewrite list_lookup_insert_ne by done.
      rewrite list_lookup_insert_eq by (rewrite length_app; simpl; lia).
      by destruct f as [? ? ? ? [] ?].
    + apply heap_ok_insert; [done|].
      apply heap_ok_insert; [done|by apply heap_ok_app].
    + apply ctx_ok_insert; [done|].
      apply ctx_ok_insert; [done|by apply ctx_ok_app].
  - simpl. split_and!; [|done..].
    apply list_lookup_insert_eq. rewrite length_insert, length_app. simpl. unfold new. lia.
Qed.

End PutLoop.

Section FindOrder.
Context {K V : Type}.
Variable Comparator : K → K → Z.
Context `{!ComparatorOrder Comparator}.
Implicit Types (s T : @ptree K V) (C : list (@frame K V)) (e : nat * K * V) (t : Tree K V).


(** [key] lies between the entries before and after the hole of [C]. *)
Definition between key C : Prop :=
  (∀ e, e ∈ ctx_before C → klt Comparator (entry_key e) key)
  ∧ (∀ e, e ∈ ctx_after C → klt Comparator key (entry_key e)).

Lemma a_find_found key C s C' q c l k v r :
  a_find Comparator key C s = (C', PNode q c l k v r) → key = k.
Proof.
  revert C; induction s as [|p cp sl IHl kp vp sr IHr]; intros C; simpl; [done|].
  destruct (Comparator key kp =? 0)%Z eqn:E.
  - intros [= <- <- <- <- <- <- <-]. apply cmp_eq. by apply Z.eqb_eq.
  - destruct (Comparator key kp <? 0)%Z; eauto.
Qed.

Lemma a_find_between key s C C' s' :
  sorted_entries Comparator (inorder (plug C s)) → between key C →
  a_find Comparator key C s = (C', s') → between key C'.
Proof.
  revert C; induction s as [|p cp sl IHl kp vp sr IHr]; intros C Hsort [Hb Ha]; simpl.
  { by intros [= <- <-]. }
  destruct (Comparator key kp =? 0)%Z eqn:E0; [by intros [= <- <-]|].
  pose proof Hsort as Hsort0.
  rewrite inorder_plug in Hsort. simpl in Hsort.
  apply sorted_entries_app in Hsort as (_ & _ & Hsort).
  apply sorted_entries_app in Hsort as (_ & Hsort & _).
  apply sorted_entries_app in Hsort as (Hl & _ & Hr%sorted_entries_cons).
  destruct Hr as [Hr _].
  apply Z.eqb_neq in E0.
  destruct (Comparator key kp <? 0)%Z eqn:E1;
    [apply Z.ltb_lt in E1|apply Z.ltb_ge in E1].
  - apply IHl; [exact Hsort0|].
    split; simpl; [done|]. intros e [->|He]%elem_of_cons.
    { unfold klt, entry_key; simpl; lia. }
    apply elem_of_app in He as [He|He]; [|by apply Ha].
    eapply klt_trans; [done| |by apply Hr]. unfold klt, entry_key; simpl; lia.
  - assert (klt Comparator kp key) as Hgt by (apply klt_gt; [done|lia]).
    apply IHr; [exact Hsort0|].
    split; simpl; [|done]. intros e He.
    apply elem_of_app in He as [He|He]; [by apply Hb|].
    apply elem_of_app in He as [He|He].
    + eapply klt_trans; [done| |exact Hgt]. apply (Hl e (p, kp, vp)); set_solver.
    + apply list_elem_of_singleton in He as ->. done.
Qed.
End FindOrder.

Section PutSpec.
Context {K V : Type}.
Variable Comparator : K → K → Z.
Context `{!ComparatorOrder Comparator}.
Implicit Types (s T : @ptree K V) (C : list (@frame K V)) (e : nat * K * V) (t : Tree K V).


Lemma length_ptrs_inorder T : length (ptrs T) = length (inorder T).
Proof.
  induction T as [|p c l IHl k v r IHr]; simpl; [done|].
  rewrite !length_app. simpl. lia.
Qed.

Lemma rbtree_rekey C q c l k v r k' v' :
  rbtree (plug C (PNode q c l k v r)) → rbtree (plug C (PNode q c l k' v' r)).
Proof. rewrite !rbtree_plug. done. Qed.

Lemma between_nil key : between Comparator key ([] : list (@frame K V)).
Proof. split; intros e []%elem_of_nil. Qed.

Lemma sorted_insert_between key C p v :
  sorted_entries Comparator (inorder (plug C PLeaf)) → between Comparator key C →
  sorted_entries Comparator (ctx_before C ++ (p, key, v) :: ctx_after C).
Proof.
  rewrite inorder_plug. simpl. intros Hs [Hb Ha].
  apply sorted_entries_app in Hs as (Hc & Hs1 & Hs2).
  apply sorted_entries_app. split_and!; [|done|].
  - intros e1 e2 He1 [->|He2]%elem_of_cons; [by apply Hb|by apply Hc].
  - apply sorted_entries_cons. done.
Qed.

Lemma between_not_in key C :
  between Comparator key C → key ∉ keys (plug C PLeaf).
Proof.
  intros [Hb Ha]. unfold keys. rewrite inorder_plug. simpl.
  intros (e & -> & [He|He]%elem_of_app)%list_elem_of_fmap.
  - by eapply klt_irrefl, Hb.
  - by eapply klt_irrefl, Ha.
Qed.

(** [Put]: the two outcomes.  Either the key is in the tree: its node is
    overwritten in place and nothing else changes.  Or a new red node is
    linked at the leaf position and the fix-up restores the colours. *)
Lemma Put_spec key value t T :
  represents t T → rbtree T → bst Comparator T →
  ∃ t' T', Put Comparator key value t = Some (tt, t') ∧ represents t' T'
    ∧ rbtree T' ∧ bst Comparator T'
    ∧ ((∃ l1 p v0 l2 n,
          inorder T = l1 ++ (p, key, v0) :: l2 ∧ inorder T' = l1 ++ (p, key, value) :: l2
          ∧ (store t !! p) = Some n
          ∧ t' = mkTree (Root t) (size t) (<[p := set_Value value (set_Key key n)]> (store t)))
       ∨ ((key ∉ keys T) ∧ ∃ l1 l2,
            inorder T = l1 ++ l2 ∧ inorder T' = l1 ++ (length (store t), key, value) :: l2
            ∧ size t' = (size t + 1)%Z)).
Proof.
  intros [Hs Hsz] Hrb Hbst.
  pose proof (shape_length _ _ Hs) as Hlen.
  destruct (a_find Comparator key [] T) as [C' s'] eqn:Hfind.
  pose proof (a_find_plug Comparator key [] T) as Hplug. rewrite Hfind in Hplug. simpl in Hplug.
  change (plug [] T) with T in Hplug.
  pose proof (a_find_length Comparator key [] T) as HlenC. rewrite Hfind in HlenC. simpl in HlenC.
  assert (between Comparator key C') as Hbetween.
  { apply (a_find_between Comparator key T [] C' s'); [|apply between_nil|exact Hfind].
    change (plug [] T) with T. by apply bst_sorted. }
  destruct T as [|p0 c0 l0 k0 v0 r0].
  - (* empty tree *)
    simpl in Hfind. injection Hfind as <- <-.
    destruct Hs as (HR & HND & Hh). simpl in HR.
    unfold Put. rewrite HR.
    set (fu := S (fuel_of t)).
    set (new := length (store t)).
    assert (shape (plug [] (PNode new red PLeaf key value PLeaf))
              (mkTree (Some new) (size t) (store t ++ [mkNode key value red None None None]))) as Hs1.
    { split_and!; simpl; [done|apply NoDup_singleton|]. split_and!; [|done..].
      rewrite lookup_app_r by done. by rewrite Nat.sub_diag. }
    destruct (insertCase1_sim fu [] (PNode new red PLeaf key value PLeaf) new _ _ eq_refl Hs1 eq_refl)
      as (t1 & Hrun & Hs' & Hsz1 & Hlen1).
    clearbody fu. unfold bind, alloc, set_Root, set_size. simpl. fold new.
    rewrite Hrun. eexists _, _. split; [reflexivity|].
    split_and!.
    + split; [exact Hs'|]. simpl. simpl in Hsz1. rewrite Hsz1, Hsz. simpl. lia.
    + split_and!; simpl; [done|done|exists 1; by simpl].
    + simpl. split_and!; try done; intros x []%elem_of_nil.
    + right. split; [by intros []%elem_of_nil|]. exists [], []. simpl.
      split_and!; [done|done|]. simpl in Hsz1. lia.
  - remember (PNode p0 c0 l0 k0 v0 r0) as T eqn:HT.
    assert (rootp T = Some p0) as Hroot by (by subst).
    clear HT.
    assert (Root t = Some p0) as HR by (destruct Hs as (HR & _); congruence).
    change (shape (plug [] T) t) in Hs.
    unfold Put. rewrite HR.
    set (fu := S (fuel_of t)).
    destruct s' as [|q c l k v r].
    + (* new key *)
      destruct (Put_loop_new Comparator key value t T [] (fuel_of t) p0 C' Hroot
                  ltac:(unfold fuel_of; lia) Hs Hfind) as (f & C'' & -> & Hloop).
      unfold bind at 1. rewrite Hloop.
      assert (shape (plug (f :: C'') PLeaf) t) as Hs0 by (by rewrite Hplug).
      pose proof (Put_link Comparator key value t f C'' Hs0) as Hs1. simpl in Hs1.
      set (new := length (store t)) in *.
      assert (rbtree (plug (f :: C'') PLeaf)) as Hrb0 by (by rewrite Hplug).
      apply rbtree_plug in Hrb0 as (n & Hbh & _ & Hctx & _). simpl in Hbh. subst n.
      destruct (a_insertCase1_rb fu (f :: C'') (PNode new red PLeaf key value PLeaf) 0)
        as (T' & HaT & HrbT); [unfold fu, fuel_of; simpl in *; lia|simpl; done|done|].
      destruct (insertCase1_sim fu (f :: C'') (PNode new red PLeaf key value PLeaf) new _ _ eq_refl Hs1 HaT)
        as (t1 & Hrun & Hs' & Hsz1 & Hlen1).
      clearbody fu. unfold bind at 1.
      unfold modify at 1. simpl.
      rewrite list_lookup_insert_ne.
      2:{ intros Heq. apply shape_plug in Hs0 as (_ & _ & (Hf & _) & _).
          apply lookup_lt_Some in Hf. unfold new in Heq. lia. }
      rewrite lookup_app_r by done. rewrite Nat.sub_diag. simpl.
      unfold set_Parent; simpl. fold new.
      unfold bind. rewrite Hrun. unfold set_size. simpl.
      pose proof (a_insertCase1_inorder _ _ _ _ HaT) as Hin.
      rewrite inorder_plug in Hin. cbn [inorder app] in Hin.
      pose proof (f_equal inorder Hplug) as Hin0. rewrite inorder_plug in Hin0. cbn [inorder app] in Hin0.
      eexists _, T'. split; [reflexivity|]. split_and!.
      * split; [exact Hs'|]. simpl. simpl in Hsz1. rewrite Hsz1, Hsz.
        rewrite !length_ptrs_inorder, Hin, <- Hin0, !length_app. simpl. lia.
      * done.
      * apply (proj2 (bst_sorted Comparator T')). rewrite Hin. apply sorted_insert_between; [|done].
        rewrite Hplug. by apply (proj1 (bst_sorted Comparator T)).
      * right. split.
        -- rewrite <- Hplug. by apply between_not_in.
        -- exists (ctx_before (f :: C'')), (ctx_after (f :: C'')).
           split_and!; [done|done|]. simpl in Hsz1. simpl. lia.
    + (* key present *)
      destruct (Put_loop_found Comparator key value t T [] (fuel_of t) p0 C' q c l k v r Hroot
                  ltac:(unfold fuel_of; lia) Hs Hfind) as (t1 & Hloop & Hs' & Hsz1 & HR1 & Hst1).
      unfold bind at 1. rewrite Hloop. unfold ret.
      pose proof (a_find_found _ _ _ _ _ _ _ _ _ _ _ Hfind) as <-.
      assert (shape (plug C' (PNode q c l key v r)) t) as Hs0 by (by rewrite Hplug).
      pose proof (shape_lookup _ _ _ _ _ _ _ _ Hs0) as Hq.
      pose proof (f_equal inorder Hplug) as Hin0. rewrite inorder_plug in Hin0. cbn [inorder app] in Hin0.
      eexists _, _. split; [reflexivity|]. split_and!.
      * split; [exact Hs'|]. rewrite Hsz1, Hsz.
        rewrite !length_ptrs_inorder, <- Hin0, inorder_plug, !length_app. simpl.
        rewrite !length_app. simpl. done.
      * apply (rbtree_rekey _ _ _ _ key v). by rewrite Hplug.
      * apply (proj2 (bst_sorted Comparator _)). rewrite inorder_plug. simpl.
        apply (proj1 (bst_sorted Comparator T)) in Hbst. rewrite <- Hin0 in Hbst.
        unfold sorted_entries in *. by rewrite !fmap_app, fmap_cons in *.
      * left. exists (ctx_before C' ++ inorder l), q, v, (inorder r ++ ctx_after C'). eexists.
        split_and!.
        -- rewrite <- Hin0. by rewrite <- !app_assoc.
        -- rewrite inorder_plug. simpl. by rewrite <- !app_assoc.
        -- exact Hq.
        -- destruct t1 as [R1 z1 st1]. simpl in *. f_equal; [congruence|congruence|by subst].
Qed.
End PutSpec.

Lemma submseteq_NoDup {A} (l k : list A) : l ⊆+ k → NoDup k → NoDup l.
Proof.
  intros [k' Hk]%submseteq_Permutation. rewrite Hk. by intros (? & _ & _)%NoDup_app.
Qed.

(** [shape] of a state whose tree lost some nodes. *)
Ltac shape_solve_sub HND :=
  lazymatch goal with
  | |- shape (plug ?C ?s) _ => apply (proj2 (shape_plug C s _))
  end;
  simpl; unfold frame_cell; simpl;
  split_and!;
  try done;
  try (hsimpl; reflexivity);
  try (repeat (apply heap_ok_insert; [done|]); done);
  try (repeat (apply ctx_ok_insert; [done|]); done);
  try (eapply submseteq_NoDup; [|exact HND]; solve_submseteq).

Section RemoveParts.
Context {K V : Type}.
Implicit Types (s T : @ptree K V) (C : list (@frame K V)) (e : nat * K * V) (t : Tree K V).

(** Overwriting the key, value or colour of the node in focus. *)
Lemma modify_focus (g : Node K V → Node K V) C p c l k v r c' k' v' t :
  g (mkNode k v c (rootp l) (rootp r) (ctx_top C))
    = mkNode k' v' c' (rootp l) (rootp r) (ctx_top C) →
  shape (plug C (PNode p c l k v r)) t →
  ∃ t', modify (Some p) g t = Some (tt, t')
        ∧ shape (plug C (PNode p c' l k' v' r)) t'
        ∧ size t' = size t ∧ length (store t') = length (store t) ∧ Root t' = Root t.
Proof.
  intros Hg Hs. shape_facts Hs.
  unfold modify. hsimpl. rewrite Hg.
  eexists; split; [reflexivity|]. split_and!; try done.
  - shape_solve HND.
  - simpl. by rewrite length_insert.
Qed.

(** The descent of [maximumNode]: down the right spine. *)
Fixpoint a_max C s : list (@frame K V) * @ptree K V :=
  match s with
  | PLeaf => (C, PLeaf)
  | PNode p c l k v r =>
      match r with
      | PLeaf => (C, s)
      | PNode _ _ _ _ _ _ => a_max (Frame p c k v DR l :: C) r
      end
  end.

Lemma a_max_plug C s : plug (a_max C s).1 (a_max C s).2 = plug C s.
Proof.
  revert C; induction s as [|p c l IHl k v r IHr]; intros C; [done|].
  simpl. destruct r as [|pr cr rl kr vr rr]; [done|]. by rewrite IHr.
Qed.

Lemma a_max_snd C1 C2 s : (a_max C1 s).2 = (a_max C2 s).2.
Proof.
  revert C1 C2; induction s as [|p c l IHl k v r IHr]; intros C1 C2; [done|].
  simpl. destruct r as [|pr cr rl kr vr rr]; [done|]. apply IHr.
Qed.

Lemma a_max_node C p c l k v r :
  ∃ q cq ql kq vq, (a_max C (PNode p c l k v r)).2 = PNode q cq ql kq vq PLeaf.
Proof.
  revert C p c l k v. induction r as [|pr cr rl IHl kr vr rr IHr]; intros C p c l k v.
  - by eexists _, _, _, _, _.
  - simpl. simpl in IHr. apply IHr.
Qed.

Lemma a_max_entries C s C' q cq ql kq vq :
  a_max C s = (C', PNode q cq ql kq vq PLeaf) →
  ctx_after C' = ctx_after C
  ∧ ctx_before C' ++ inorder ql ++ [(q, kq, vq)] = ctx_before C ++ inorder s.
Proof.
  revert C; induction s as [|p c l IHl k v r IHr]; intros C; [done|].
  simpl. destruct r as [|pr cr rl kr vr rr].
  - intros [= <- <- <- <- <- <-]. done.
  - intros H. apply IHr in H as [H1 H2]. simpl in *. split; [done|].
    rewrite H2. by rewrite <- !app_assoc.
Qed.

Lemma a_max_length C s : length (a_max C s).1 ≤ length C + length (ptrs s).
Proof.
  revert C; induction s as [|p c l IHl k v r IHr]; intros C; [simpl; lia|].
  cbn [a_max ptrs length]. rewrite length_app.
  specialize (IHr (Frame p c k v DR l :: C)). cbn [length] in IHr.
  destruct r as [|pr cr rl kr vr rr]; [simpl; lia|]. lia.
Qed.

Lemma maximumNode_loop_spec t s C fuel p0 :
  rootp s = Some p0 → length (ptrs s) < fuel → shape (plug C s) t →
  maximumNode_loop fuel t (Some p0) = Some (rootp (a_max C s).2).
Proof.
  revert C fuel p0; induction s as [|p c l IHl k v r IHr]; intros C fuel p0 Hp Hf Hs; [done|].
  destruct fuel as [|fuel]; [lia|]. simpl in Hf. rewrite length_app in Hf.
  injection Hp as <-.
  simpl. rewrite (shape_lookup _ _ _ _ _ _ _ _ Hs). simpl.
  destruct r as [|pr cr rl kr vr rr]; [done|]. simpl.
  apply (IHr (Frame p c k v DR l :: C) fuel pr); [done|lia|done].
Qed.

(** [replaceNode(node, child)] in [Remove]: [node] has at most one child,
    which takes its place; the cell of [node] itself is not written. *)
Lemma replaceNode_remove C q c ql k v qr t :
  ql = PLeaf ∨ qr = PLeaf →
  shape (plug C (PNode q c ql k v qr)) t →
  let child := match qr with PLeaf => ql | _ => qr end in
  ∃ t', replaceNode (Some q) (rootp child) t = Some (tt, t')
        ∧ shape (plug C child) t'
        ∧ size t' = size t ∧ length (store t') = length (store t)
        ∧ store t' !! q = Some (mkNode k v c (rootp ql) (rootp qr) (ctx_top C)).
Proof.
  intros Hleaf Hs child.
  destruct C as [|[pp pc pk pv [] ps] C];
    destruct ql as [|x cx xl kx vx xr], qr as [|y cy yl ky vy yr];
    try (by destruct Hleaf); subst child; shape_facts Hs.
  all: unfold replaceNode; run_all.
  all: eexists; split; [reflexivity|].
  all: split_and!; [|done|by (simpl; rewrite ?length_insert)|hsimpl; reflexivity].
  all: shape_solve_sub HND.
Qed.

End RemoveParts.

Section RemoveUnlink.
Context {K V : Type}.
Implicit Types (s T ql qr : @ptree K V) (C Cn : list (@frame K V)) (e : nat * K * V) (t : Tree K V).

Lemma nodeColor_rootp C s t :
  shape (plug C s) t → nodeColor t (rootp s) = Some (rootc s).
Proof.
  destruct s as [|p c l k v r]; [done|]. intros Hs. simpl.
  by rewrite (shape_lookup _ _ _ _ _ _ _ _ Hs).
Qed.

(** A node with a leaf child in a red-black tree: either it is red and both
    children are leaves, or it is black and the other child is a leaf or a
    red node. *)
Lemma one_child_rb q cq ql kq vq qr n :
  ql = PLeaf ∨ qr = PLeaf →
  bh (PNode q cq ql kq vq qr) n → nrr (PNode q cq ql kq vq qr) →
  let child := match qr with PLeaf => ql | _ => qr end in
  bh child 0 ∧ nrr child
  ∧ match cq with red => child = PLeaf ∧ n = 0 | black => n = 1 end.
Proof.
  intros Hleaf Hbh (Hc & Hnl & Hnr). simpl.
  destruct cq.
  - destruct n as [|m]; [done|]. destruct Hbh as [Hl Hr].
    destruct Hleaf as [-> | ->]; simpl in *; subst.
    + destruct qr; simpl in *; done.
    + done.
  - destruct Hbh as [Hl Hr]. destruct (Hc eq_refl) as [Hcl Hcr].
    destruct Hleaf as [-> | ->]; simpl in *; subst.
    + destruct qr as [|y [] ? ? ? ?]; simpl in *; try done.
    + destruct ql as [|y [] ? ? ? ?]; simpl in *; try done.
Qed.

(** The second half of [Remove]: unlinking a node [q] that has at most one
    child, with the deletion fix-up when [q] is black. *)
Lemma unlink_block fuel Cn q cq ql kq vq qr t1 :
  shape (plug Cn (PNode q cq ql kq vq qr)) t1 →
  rbtree (plug Cn (PNode q cq ql kq vq qr)) →
  ql = PLeaf ∨ qr = PLeaf → length Cn < fuel →
  let child := match qr with PLeaf => ql | _ => qr end in
  ∃ t' T',
    ((match cq with
      | black =>
          c <- ask (λ t, nodeColor t (rootp child)) ;;
          modify (Some q) (set_color c) ;;;
          deleteCase1 fuel (Some q)
      | red => ret tt
      end) ;;;
     replaceNode (Some q) (rootp child) ;;;
     n <- get (Some q) ;;
     match Parent n, rootp child with
     | None, Some _ => modify (rootp child) (set_color black)
     | _, _ => ret tt
     end) t1 = Some (tt, t')
    ∧ shape T' t' ∧ size t' = size t1 ∧ rbtree T'
    ∧ inorder T' = ctx_before Cn ++ inorder child ++ ctx_after Cn.
Proof.
  intros Hs Hrb Hleaf Hfuel child.
  apply rbtree_plug in Hrb as (n & Hbh & Hnrr & Hctx & Hroot).
  destruct (one_child_rb _ _ _ _ _ _ _ Hleaf Hbh Hnrr) as (Hbc & Hnc & Hcq).
  fold child in Hbc, Hnc, Hcq.
  (* the fix-up *)
  assert (∃ t2 C3 c2,
    (match cq with
      | black =>
          c <- ask (λ t, nodeColor t (rootp child)) ;;
          modify (Some q) (set_color c) ;;;
          deleteCase1 fuel (Some q)
      | red => ret tt
      end) t1 = Some (tt, t2)
    ∧ shape (plug C3 (PNode q c2 ql kq vq qr)) t2 ∧ size t2 = size t1
    ∧ ctx_entries_eq Cn C3 ∧ ctx_inv C3 0 (rootc child)) as (t2 & C3 & c2 & Hmid & Hs2 & Hsz2 & Hent & Hctx3).
  { destruct cq.
    - subst n.
      assert (nodeColor t1 (rootp child) = Some (rootc child)) as Hnc1.
      { unfold child. destruct Hleaf as [-> | ->].
        - destruct qr as [|y cy yl ky vy yr]; [done|].
          apply (nodeColor_rootp (Frame q black kq vq DR PLeaf :: Cn) (PNode y cy yl ky vy yr) t1 Hs).
        - apply (nodeColor_rootp (Frame q black kq vq DL PLeaf :: Cn) ql t1 Hs). }
      destruct (modify_focus (set_color (rootc child)) Cn q black ql kq vq qr
                  (rootc child) kq vq t1 eq_refl Hs) as (ta & Hmod & Hsa & Hsza & Hlena & HRa).
      destruct (a_deleteCase1_rb fuel Cn 0 Hfuel) as (C3 & Hdel & HC3).
      { eapply ctx_inv_mono. exact Hctx. }
      destruct (deleteCase1_sim fuel Cn (PNode q (rootc child) ql kq vq qr) q C3 ta eq_refl Hsa Hdel)
        as (tb & Hrun & Hsb & Hszb & Hlenb).
      exists tb, C3, (rootc child). split_and!.
      + unfold bind, ask. rewrite Hnc1, Hmod. exact Hrun.
      + done.
      + congruence.
      + by eapply a_deleteCase1_inorder.
      + by apply ctx_inv_red.
    - destruct Hcq as [Hcl ->]. exists t1, Cn, red. split_and!; try done.
      rewrite Hcl. simpl. eapply ctx_inv_mono. exact Hctx. }
  destruct (replaceNode_remove C3 q c2 ql kq vq qr t2 Hleaf Hs2)
    as (t3 & Hrep & Hs3 & Hsz3 & Hlen3 & Hq3).
  fold child in Hrep, Hs3.
  unfold bind at 1. rewrite Hmid.
  unfold bind at 1. rewrite Hrep.
  unfold bind at 1. rewrite (get_Some _ _ _ Hq3). cbn [Parent].
  destruct Hent as [Hent1 Hent2].
  destruct C3 as [|f3 C3'].
  - (* the node was the root *)
    cbn [ctx_top].
    destruct child as [|x cx xl kx vx xr] eqn:Hch.
    + simpl. exists t3, PLeaf. split_and!; try done; try congruence.
      * split_and!; simpl; [done|done|by exists 0].
      * rewrite <- Hent1, <- Hent2. done.
    + cbn [rootp].
      destruct (modify_focus (set_color black) [] x cx xl kx vx xr black kx vx t3 eq_refl Hs3)
        as (t4 & Hmod & Hs4 & Hsz4 & Hlen4 & HR4).
      exists t4, (PNode x black xl kx vx xr). split_and!; try done; try congruence.
      * destruct cx; simpl in Hbc; [done|]. destruct Hnc as (_ & ? & ?).
        split_and!; simpl; [done|done|exists 1; by simpl].
      * rewrite <- Hent1, <- Hent2. simpl. by rewrite app_nil_r.
  - cbn [ctx_top].
    exists t3, (plug (f3 :: C3') child). split_and!; try done; try congruence.
    + apply rbtree_plug. exists 0. split_and!; done.
    + rewrite inorder_plug, Hent1, Hent2. done.
Qed.
End RemoveUnlink.

Section RemoveSpec.
Context {K V : Type}.
Variable Comparator : K → K → Z.
Implicit Types (s T l r : @ptree K V) (C : list (@frame K V)) (e : nat * K * V) (t : Tree K V).

Lemma plug_length C s : length C + length (ptrs s) ≤ length (ptrs (plug C s)).
Proof. rewrite ptrs_plug, length_app. pose proof (ctx_ptrs_length C). lia. Qed.

(** [Remove] of a key that is not in the tree: nothing is written. *)
Lemma Remove_absent key t T C :
  shape T t → a_find Comparator key [] T = (C, PLeaf) →
  Remove Comparator key t = Some (tt, t).
Proof.
  intros Hs Hfind. unfold Remove, bind, ask.
  rewrite (lookup_spec Comparator key t T Hs), Hfind. done.
Qed.

(** The part of [Remove] after the node to unlink is chosen. *)
Lemma Remove_tail fu (Cn : list (@frame K V)) q cq (ql qr : @ptree K V) kq vq tb :
  shape (plug Cn (PNode q cq ql kq vq qr)) tb →
  rbtree (plug Cn (PNode q cq ql kq vq qr)) →
  ql = PLeaf ∨ qr = PLeaf → length Cn < fu →
  ∃ t' T',
    (n <- get (Some q) ;;
     (match Left n, Right n with
      | Some _, Some _ => ret tt
      | _, _ =>
          let child := match Right n with None => Left n | Some _ => Right n end in
          (match color n with
           | black =>
               c <- ask (λ t, nodeColor t child) ;;
               modify (Some q) (set_color c) ;;;
               deleteCase1 fu (Some q)
           | red => ret tt
           end) ;;;
          replaceNode (Some q) child ;;;
          n <- get (Some q) ;;
          match Parent n, child with
          | None, Some _ => modify child (set_color black)
          | _, _ => ret tt
          end
      end) ;;;
     set_size (λ z : Z, z - 1)%Z) tb = Some (tt, t')
    ∧ shape T' t' ∧ size t' = (size tb - 1)%Z ∧ rbtree T'
    ∧ inorder T' = ctx_before Cn ++ inorder (match qr with PLeaf => ql | _ => qr end)
                     ++ ctx_after Cn.
Proof.
  intros Hs Hrb Hleaf Hfu.
  destruct (unlink_block fu Cn q cq ql kq vq qr tb Hs Hrb Hleaf Hfu)
    as (t3 & T3 & Hb & Hs3 & Hsz3 & Hrb3 & Hin3).
  unfold bind at 1. rewrite (get_Some _ _ _ (shape_lookup _ _ _ _ _ _ _ _ Hs)).
  cbn [Left Right color Parent].
  exists (mkTree (Root t3) (size t3 - 1) (store t3)), T3.
  split_and!; [|exact Hs3|simpl; congruence|done|done].
  destruct Hleaf as [-> | ->].
  - destruct qr as [|y cy yl ky vy yr].
    + etrans; [apply (bind_Some _ _ _ _ _ Hb)|reflexivity].
    + etrans; [apply (bind_Some _ _ _ _ _ Hb)|reflexivity].
  - destruct ql as [|y cy yl ky vy yr].
    + etrans; [apply (bind_Some _ _ _ _ _ Hb)|reflexivity].
    + etrans; [apply (bind_Some _ _ _ _ _ Hb)|reflexivity].
Qed.

(** [Remove] of a key that is in the tree, at node [p].  Either [p] has at
    most one child and is unlinked itself; or it has two, takes over the
    entry of its predecessor [q] (the maximum of its left subtree), and
    [q] is unlinked. *)
Lemma Remove_present key t T C p c l k v r :
  represents t T → rbtree T →
  a_find Comparator key [] T = (C, PNode p c l k v r) →
  ∃ t' T', Remove Comparator key t = Some (tt, t') ∧ represents t' T' ∧ rbtree T'
    ∧ size t' = (size t - 1)%Z
    ∧ (((l = PLeaf ∨ r = PLeaf)
        ∧ ∃ L1 L2, inorder T = L1 ++ (p, k, v) :: L2 ∧ inorder T' = L1 ++ L2)
       ∨ (l ≠ PLeaf ∧ r ≠ PLeaf
          ∧ ∃ L1 L2 q kq vq,
              maximumNode t (rootp l) = Some (Some q)
              ∧ inorder T = L1 ++ (q, kq, vq) :: (p, k, v) :: L2
              ∧ inorder T' = L1 ++ (p, kq, vq) :: L2)).
Proof.
  intros [Hs Hsz] Hrb Hfind.
  pose proof (shape_length _ _ Hs) as Hlen.
  pose proof (a_find_plug Comparator key [] T) as Hplug. rewrite Hfind in Hplug. simpl in Hplug.
  change (plug [] T) with T in Hplug.
  pose proof (lookup_spec Comparator key t T Hs) as Hlook. rewrite Hfind in Hlook. simpl in Hlook.
  pose proof (f_equal inorder Hplug) as HinT. rewrite inorder_plug in HinT. cbn [inorder] in HinT.
  assert (shape (plug C (PNode p c l k v r)) t) as Hs0 by (by rewrite Hplug).
  assert (rbtree (plug C (PNode p c l k v r))) as Hrb0 by (by rewrite Hplug).
  pose proof (plug_length C (PNode p c l k v r)) as Hlen0. rewrite Hplug in Hlen0.
  cbn [ptrs length] in Hlen0. rewrite length_app in Hlen0.
  unfold Remove.
  set (fu := fuel_of t).
  assert (length (ptrs T) < fu) as Hfu by (unfold fu, fuel_of; lia).
  clearbody fu.
  unfold bind at 1. unfold ask at 1. rewrite Hlook.
  unfold bind at 1. rewrite (get_Some _ _ _ (shape_lookup _ _ _ _ _ _ _ _ Hs0)).
  cbn [Left Right].
  assert (∀ L L' : list (nat * K * V), L = L' → length L = length L') as Hlen_eq by (by intros ? ? ->).
  assert (l = PLeaf ∨ r = PLeaf ∨ (l ≠ PLeaf ∧ r ≠ PLeaf)) as [Hl|[Hr|[Hl Hr]]].
  { destruct l, r; eauto. }
  - (* no left child *)
    destruct (Remove_tail fu C p c l r k v t Hs0 Hrb0 (or_introl Hl)) as
      (t' & T' & Hrun & Hs' & Hsz' & Hrb' & Hin'); [lia|].
    subst l. exists t', T'. split_and!.
    + unfold bind at 1. simpl. unfold ret at 1. exact Hrun.
    + split; [done|]. rewrite Hsz', Hsz, !length_ptrs_inorder.
      assert (length (inorder T) = S (length (inorder T'))) as ->; [|lia].
      rewrite <- HinT, Hin'. assert (inorder (match r with PLeaf => PLeaf | _ => r end) = inorder r) as ->
        by (by destruct r).
      repeat (first [rewrite length_app | progress simpl]); lia.
    + done.
    + done.
    + left. split; [by left|]. exists (ctx_before C), (inorder r ++ ctx_after C).
      split; [by rewrite <- HinT|]. rewrite Hin'. by destruct r.
  - (* no right child *)
    destruct (Remove_tail fu C p c l r k v t Hs0 Hrb0 (or_intror Hr)) as
      (t' & T' & Hrun & Hs' & Hsz' & Hrb' & Hin'); [lia|].
    subst r. exists t', T'. split_and!.
    + unfold bind at 1. destruct l; simpl; unfold ret at 1; exact Hrun.
    + split; [done|]. rewrite Hsz', Hsz, !length_ptrs_inorder.
      assert (length (inorder T) = S (length (inorder T'))) as ->; [|lia].
      rewrite <- HinT, Hin'.
      repeat (first [rewrite length_app | progress simpl]); lia.
    + done.
    + done.
    + left. split; [by right|]. exists (ctx_before C ++ inorder l), (ctx_after C).
      split; [rewrite <- HinT; simpl; by rewrite <- !app_assoc|].
      rewrite Hin'. by rewrite <- !app_assoc.
  - (* two children: the predecessor is unlinked *)
    destruct l as [|pl cl ll kl vl lr] eqn:El; [done|]. rewrite <- El in *.
    destruct r as [|pr cr rl kr vr rr] eqn:Er; [done|]. rewrite <- Er in *.
    assert (rootp l = Some pl) as Hrl by (by subst l).
    assert (rootp r = Some pr) as Hrr by (by subst r).
    rewrite Hrl, Hrr.
    destruct (a_max_node (Frame p c k v DL r :: C) pl cl ll kl vl lr) as (q & cq & ql & kq & vq & Hmax2).
    rewrite <- El in Hmax2.
    destruct (a_max (Frame p c k v DL r :: C) l) as [Cq sq] eqn:Hmax. simpl in Hmax2. subst sq.
    (* the predecessor *)
    assert (maximumNode t (Some pl) = Some (Some q)) as Hpred.
    { unfold maximumNode.
      rewrite (maximumNode_loop_spec t l (Frame p c k v DL r :: C) (fuel_of t) pl Hrl);
        [by rewrite Hmax| unfold fuel_of; lia | exact Hs0]. }
    pose proof (a_max_plug (Frame p c k v DL r :: C) l) as Hmp. rewrite Hmax in Hmp. simpl in Hmp.
    assert (shape (plug Cq (PNode q cq ql kq vq PLeaf)) t) as Hsq by (rewrite Hmp; exact Hs0).
    (* node.Key = pred.Key *)
    destruct (modify_focus (set_Key kq) C p c l k v r c kq v t eq_refl Hs0)
      as (ta & Hma & Hsa & Hsza & Hlena & HRa).
    pose proof (a_max_plug (Frame p c kq v DL r :: C) l) as Hmpa.
    pose proof (a_max_snd (Frame p c kq v DL r :: C) (Frame p c k v DL r :: C) l) as Hsnda.
    rewrite Hmax in Hsnda. simpl in Hsnda. rewrite Hsnda in Hmpa.
    assert (shape (plug (a_max (Frame p c kq v DL r :: C) l).1 (PNode q cq ql kq vq PLeaf)) ta) as Hsqa
      by (rewrite Hmpa; exact Hsa).
    (* node.Value = pred.Value *)
    destruct (modify_focus (set_Value vq) C p c l kq v r c kq vq ta eq_refl Hsa)
      as (tb & Hmb & Hsb & Hszb & Hlenb & HRb).
    pose proof (a_max_plug (Frame p c kq vq DL r :: C) l) as Hmpb.
    pose proof (a_max_snd (Frame p c kq vq DL r :: C) (Frame p c k v DL r :: C) l) as Hsndb.
    rewrite Hmax in Hsndb. simpl in Hsndb. rewrite Hsndb in Hmpb.
    destruct (a_max (Frame p c kq vq DL r :: C) l) as [Cn sn] eqn:Hmaxb. simpl in Hsndb, Hmpb. subst sn.
    assert (shape (plug Cn (PNode q cq ql kq vq PLeaf)) tb) as Hsqb by (rewrite Hmpb; exact Hsb).
    assert (rbtree (plug Cn (PNode q cq ql kq vq PLeaf))) as Hrbb.
    { rewrite Hmpb. change (rbtree (plug C (PNode p c l kq vq r))). by eapply rbtree_rekey. }
    pose proof (a_max_length (Frame p c kq vq DL r :: C) l) as HlenCn. rewrite Hmaxb in HlenCn.
    cbn [fst length] in HlenCn.
    destruct (Remove_tail fu Cn q cq ql PLeaf kq vq tb Hsqb Hrbb (or_intror eq_refl)) as
      (t' & T' & Hrun & Hs' & Hsz' & Hrb' & Hin'); [lia|].
    apply a_max_entries in Hmaxb as [Hafter Hbefore]. cbn [ctx_after ctx_before fd fp fk fv fsib] in *.
    assert (ctx_before C ++ inorder l = (ctx_before Cn ++ inorder ql) ++ [(q, kq, vq)]) as Hbl.
    { rewrite <- Hbefore. by rewrite <- !app_assoc. }
    assert (inorder T = (ctx_before Cn ++ inorder ql) ++ (q, kq, vq) :: (p, k, v) :: inorder r ++ ctx_after C) as HT.
    { rewrite <- HinT. rewrite <- !app_assoc. rewrite (app_assoc (ctx_before C)), Hbl. by rewrite <- !app_assoc. }
    assert (inorder T' = (ctx_before Cn ++ inorder ql) ++ (p, kq, vq) :: inorder r ++ ctx_after C) as HT'.
    { rewrite Hin', Hafter. by rewrite <- !app_assoc. }
    exists t', T'. split_and!.
    + unfold bind at 1. unfold bind at 1. unfold ask at 1. rewrite Hpred.
      unfold bind at 1. rewrite (get_Some _ _ _ (shape_lookup _ _ _ _ _ _ _ _ Hsq)). cbn [Key].
      unfold bind at 1. rewrite Hma.
      unfold bind at 1. rewrite (get_Some _ _ _ (shape_lookup _ _ _ _ _ _ _ _ Hsqa)). cbn [Value].
      unfold bind at 1. rewrite Hmb. unfold ret at 1. exact Hrun.
    + split; [done|]. rewrite Hsz', Hszb, Hsza, Hsz, !length_ptrs_inorder.
      assert (length (inorder T) = S (length (inorder T'))) as ->; [|lia].
      rewrite HT, HT'.
      repeat (first [rewrite length_app | progress simpl]); lia.
    + done.
    + rewrite Hsz', Hszb, Hsza. done.
    + right. split_and!; [by subst l|by subst r|].
      exists (ctx_before Cn ++ inorder ql), (inorder r ++ ctx_after C), q, kq, vq.
      split_and!; done.
Qed.
End RemoveSpec.

(** * Queries *)

Section Queries.
Context {K V : Type}.
Variable Comparator : K → K → Z.
Variable zeroV : V.
Context `{!ComparatorOrder Comparator}.
Implicit Types (s T : @ptree K V) (C : list (@frame K V)) (e : nat * K * V) (t : Tree K V)
  (L : list (nat * K * V)).

(** In a sorted list of entries a key occurs once. *)
Lemma sorted_entries_unique L e1 e2 :
  sorted_entries Comparator L → e1 ∈ L → e2 ∈ L → entry_key e1 = entry_key e2 → e1 = e2.
Proof.
  induction L as [|e L IH]; intros Hs H1 H2 Hk; [by apply elem_of_nil in H1|].
  apply sorted_entries_cons in Hs as [Hlt Hs].
  apply elem_of_cons in H1 as [->|H1]; apply elem_of_cons in H2 as [->|H2]; auto.
  - exfalso. pose proof (Hlt _ H2) as H. rewrite <- Hk in H. by apply klt_irrefl in H.
  - exfalso. pose proof (Hlt _ H1) as H. rewrite Hk in H. by apply klt_irrefl in H.
Qed.

Lemma a_find_leaf_notin key T C :
  bst Comparator T → a_find Comparator key [] T = (C, PLeaf) → key ∉ keys T.
Proof.
  intros Hb Hf.
  pose proof (a_find_plug Comparator key [] T) as Hp. rewrite Hf in Hp. simpl in Hp.
  change (plug [] T) with T in Hp. rewrite <- Hp.
  apply (between_not_in Comparator).
  apply (a_find_between Comparator key T [] C PLeaf); [|apply between_nil|done].
  change (plug [] T) with T. by apply (proj1 (bst_sorted Comparator T)).
Qed.

Lemma a_find_node_in key T C q c l k v r :
  a_find Comparator key [] T = (C, PNode q c l k v r) →
  k = key ∧ (q, k, v) ∈ inorder T.
Proof.
  intros Hf. split; [symmetry; by eapply a_find_found|].
  pose proof (a_find_plug Comparator key [] T) as Hp. rewrite Hf in Hp. simpl in Hp.
  change (plug [] T) with T in Hp. rewrite <- Hp, inorder_plug. simpl. set_solver.
Qed.

(** [Get]: the value stored under the key, or the zero value and [false]. *)
Lemma Get_in key t T p v :
  shape T t → bst Comparator T → (p, key, v) ∈ inorder T →
  Get Comparator zeroV t key = Some (v, true).
Proof.
  intros Hs Hb Hin. unfold Get. rewrite (lookup_spec Comparator key t T Hs).
  destruct (a_find Comparator key [] T) as [C s] eqn:Hf. simpl.
  destruct s as [|q c l k v' r].
  - exfalso. eapply a_find_leaf_notin; [done..|].
    unfold keys. apply list_elem_of_fmap. by exists (p, key, v).
  - destruct (a_find_node_in _ _ _ _ _ _ _ _ _ Hf) as [-> Hin'].
    assert ((q, key, v') = (p, key, v)) as [= -> ->].
    { eapply sorted_entries_unique; [by apply (proj1 (bst_sorted Comparator T))|done..]. }
    pose proof (a_find_plug Comparator key [] T) as Hp. rewrite Hf in Hp. simpl in Hp.
    change (plug [] T) with T in Hp. rewrite <- Hp in Hs.
    simpl. by rewrite (shape_lookup _ _ _ _ _ _ _ _ Hs).
Qed.

Lemma Get_notin key t T :
  shape T t → key ∉ keys T → Get Comparator zeroV t key = Some (zeroV, false).
Proof.
  intros Hs Hin. unfold Get. rewrite (lookup_spec Comparator key t T Hs).
  destruct (a_find Comparator key [] T) as [C s] eqn:Hf. simpl.
  destruct s as [|q c l k v' r]; [done|].
  destruct (a_find_node_in _ _ _ _ _ _ _ _ _ Hf) as [-> Hin'].
  exfalso. apply Hin. unfold keys. apply list_elem_of_fmap. by exists (q, key, v').
Qed.

End Queries.

Section MinMax.
Context {K V : Type}.
Implicit Types (s T : @ptree K V) (C : list (@frame K V)) (e : nat * K * V) (t : Tree K V)
  (L : list (nat * K * V)).

Definition entry_ptr e : nat := e.1.1.

(** [Left()]: the node of the first entry, nil for the empty tree. *)
Lemma Left_loop_spec t s C fuel par :
  length (ptrs s) < fuel → shape (plug C s) t →
  Left_loop fuel t par (rootp s)
  = Some (match head (inorder s) with Some e => Some (entry_ptr e) | None => par end).
Proof.
  revert C fuel par; induction s as [|p c l IHl k v r IHr]; intros C fuel par Hf Hs.
  { destruct fuel; [lia|done]. }
  destruct fuel as [|fuel]; [lia|]. simpl in Hf. rewrite length_app in Hf.
  simpl. rewrite (shape_lookup _ _ _ _ _ _ _ _ Hs). simpl.
  rewrite (IHl (Frame p c k v DL r :: C) fuel (Some p)); [|lia|done].
  by destruct (inorder l).
Qed.

Lemma Left_spec t T :
  shape T t → Left_ t = Some (entry_ptr <$> head (inorder T)).
Proof.
  intros Hs. unfold Left_. pose proof (shape_length _ _ Hs) as Hlen.
  destruct Hs as (HR & HND & Hh). rewrite HR.
  rewrite (Left_loop_spec t T [] (fuel_of t) None); [|unfold fuel_of; lia|done].
  by destruct (head (inorder T)).
Qed.

(** [Right()]: the node of the last entry, nil for the empty tree. *)
Lemma Right_loop_spec t s C fuel par :
  length (ptrs s) < fuel → shape (plug C s) t →
  Right_loop fuel t par (rootp s)
  = Some (match last (inorder s) with Some e => Some (entry_ptr e) | None => par end).
Proof.
  revert C fuel par; induction s as [|p c l IHl k v r IHr]; intros C fuel par Hf Hs.
  { destruct fuel; [lia|done]. }
  destruct fuel as [|fuel]; [lia|]. simpl in Hf. rewrite length_app in Hf.
  simpl. rewrite (shape_lookup _ _ _ _ _ _ _ _ Hs). simpl.
  rewrite (IHr (Frame p c k v DR l :: C) fuel (Some p)); [|lia|done].
  rewrite last_app. simpl. rewrite last_cons. by destruct (last (inorder r)).
Qed.

Lemma Right_spec t T :
  shape T t → Right_ t = Some (entry_ptr <$> last (inorder T)).
Proof.
  intros Hs. unfold Right_. pose proof (shape_length _ _ Hs) as Hlen.
  destruct Hs as (HR & HND & Hh). rewrite HR.
  rewrite (Right_loop_spec t T [] (fuel_of t) None); [|unfold fuel_of; lia|done].
  by destruct (last (inorder T)).
Qed.

End MinMax.

Section FloorCeiling.
Context {K V : Type}.
Variable Comparator : K → K → Z.
Implicit Types (s T : @ptree K V) (C : list (@frame K V)) (e : nat * K * V) (t : Tree K V)
  (L : list (nat * K * V)).

(** The candidate that the loops of [Floor] and [Ceiling] carry. *)
Definition candidate (o : option (nat * K * V)) : ptr * bool :=
  match o with
  | Some e => (Some (entry_ptr e), true)
  | None => (None, false)
  end.

Definition a_floor (key : K) T : ptr * bool :=
  match a_find Comparator key [] T with
  | (_, PNode q _ _ _ _ _) => (Some q, true)
  | (C, PLeaf) => candidate (last (ctx_before C))
  end.

Definition a_ceiling (key : K) T : ptr * bool :=
  match a_find Comparator key [] T with
  | (_, PNode q _ _ _ _ _) => (Some q, true)
  | (C, PLeaf) => candidate (head (ctx_after C))
  end.

Lemma Floor_loop_spec key t s C fuel floor found :
  length (ptrs s) < fuel → shape (plug C s) t →
  (floor, found) = candidate (last (ctx_before C)) →
  Floor_loop Comparator fuel t key floor found (rootp s)
  = Some (match a_find Comparator key C s with
          | (_, PNode q _ _ _ _ _) => (Some q, true)
          | (C', PLeaf) => candidate (last (ctx_before C'))
          end).
Proof.
  revert C fuel floor found; induction s as [|p c l IHl k v r IHr];
    intros C fuel floor found Hf Hs Hc.
  { destruct fuel; [lia|]. simpl.
    destruct (last (ctx_before C)); simpl in *; by inversion Hc. }
  destruct fuel as [|fuel]; [lia|]. simpl in Hf. rewrite length_app in Hf.
  simpl. rewrite (shape_lookup _ _ _ _ _ _ _ _ Hs). simpl.
  destruct (Comparator key k =? 0)%Z; [done|].
  destruct (Comparator key k <? 0)%Z.
  - apply (IHl (Frame p c k v DL r :: C)); [lia|done|done].
  - apply (IHr (Frame p c k v DR l :: C)); [lia|done|].
    simpl. by rewrite app_assoc, last_snoc.
Qed.

Lemma Floor_spec key t T :
  shape T t → Floor Comparator t key = Some (a_floor key T).
Proof.
  intros Hs. unfold Floor, a_floor. pose proof (shape_length _ _ Hs) as Hlen.
  destruct Hs as (HR & HND & Hh). rewrite HR.
  apply (Floor_loop_spec key t T []); [unfold fuel_of; lia|done|done].
Qed.

Lemma Ceiling_loop_spec key t s C fuel ceiling found :
  length (ptrs s) < fuel → shape (plug C s) t →
  (ceiling, found) = candidate (head (ctx_after C)) →
  Ceiling_loop Comparator fuel t key ceiling found (rootp s)
  = Some (match a_find Comparator key C s with
          | (_, PNode q _ _ _ _ _) => (Some q, true)
          | (C', PLeaf) => candidate (head (ctx_after C'))
          end).
Proof.
  revert C fuel ceiling found; induction s as [|p c l IHl k v r IHr];
    intros C fuel ceiling found Hf Hs Hc.
  { destruct fuel; [lia|]. simpl.
    destruct (head (ctx_after C)); simpl in *; by inversion Hc. }
  destruct fuel as [|fuel]; [lia|]. simpl in Hf. rewrite length_app in Hf.
  simpl. rewrite (shape_lookup _ _ _ _ _ _ _ _ Hs). simpl.
  destruct (Comparator key k =? 0)%Z; [done|].
  destruct (Comparator key k <? 0)%Z.
  - apply (IHl (Frame p c k v DL r :: C)); [lia|done|done].
  - apply (IHr (Frame p c k v DR l :: C)); [lia|done|done].
Qed.

Lemma Ceiling_spec key t T :
  shape T t → Ceiling Comparator t key = Some (a_ceiling key T).
Proof.
  intros Hs. unfold Ceiling, a_ceiling. pose proof (shape_length _ _ Hs) as Hlen.
  destruct Hs as (HR & HND & Hh). rewrite HR.
  apply (Ceiling_loop_spec key t T []); [unfold fuel_of; lia|done|done].
Qed.

End FloorCeiling.

Section FloorCeilingOrder.
Context {K V : Type}.
Variable Comparator : K → K → Z.
Context `{!ComparatorOrder Comparator}.
Implicit Types (s T : @ptree K V) (C : list (@frame K V)) (e : nat * K * V) (t : Tree K V)
  (L : list (nat * K * V)).

(** Less than or equal, under the comparator. *)
Definition kle (a b : K) : Prop := (Comparator a b ≤ 0)%Z.

(** [e] holds the largest key of [L] that is not above [key]. *)
Definition is_floor (key : K) L e : Prop :=
  e ∈ L ∧ kle (entry_key e) key
  ∧ ∀ e', e' ∈ L → kle (entry_key e') key → kle (entry_key e') (entry_key e).

(** [e] holds the smallest key of [L] that is not below [key]. *)
Definition is_ceiling (key : K) L e : Prop :=
  e ∈ L ∧ kle key (entry_key e)
  ∧ ∀ e', e' ∈ L → kle key (entry_key e') → kle (entry_key e) (entry_key e').

Lemma kle_refl a : kle a a.
Proof. unfold kle. by rewrite (proj2 (cmp_eq a a) eq_refl). Qed.

Lemma klt_kle a b : klt Comparator a b → kle a b.
Proof. unfold klt, kle. lia. Qed.

Lemma kle_not_gt a b : kle a b → klt Comparator b a → False.
Proof. unfold klt, kle. intros H1 H2%cmp_antisym. lia. Qed.

(** An entry of a represented tree is a cell of the arena. *)
Lemma heap_ok_entry (h : list (Node K V)) par T p k v :
  heap_ok h par T → (p, k, v) ∈ inorder T →
  ∃ n, h !! p = Some n ∧ Key n = k ∧ Value n = v.
Proof.
  revert par; induction T as [|q c l IHl kq vq r IHr]; intros par; simpl.
  { by intros _ ?%elem_of_nil. }
  intros (Hq & Hl & Hr) [Hin|[Hin|Hin]%elem_of_cons]%elem_of_app; eauto.
  injection Hin as -> -> ->. eauto.
Qed.

Lemma shape_entry T t p k v :
  shape T t → (p, k, v) ∈ inorder T → ∃ n, store t !! p = Some n ∧ Key n = k ∧ Value n = v.
Proof. intros (_ & _ & Hh). by eapply heap_ok_entry. Qed.

Lemma sorted_snoc_le L e e' :
  sorted_entries Comparator (L ++ [e]) → e' ∈ L ++ [e] → kle (entry_key e') (entry_key e).
Proof.
  intros (Hlt & _ & _)%sorted_entries_app [Hin|Hin]%elem_of_app.
  - apply klt_kle, Hlt; [done|set_solver].
  - apply list_elem_of_singleton in Hin as ->. apply kle_refl.
Qed.

Lemma last_Some_snoc {A} (l : list A) x : last l = Some x → ∃ l', l = l' ++ [x].
Proof.
  destruct l as [|y l] using rev_ind; [done|]. rewrite last_snoc. intros [= ->]. eauto.
Qed.

Lemma last_None_nil {A} (l : list A) : last l = None → l = [].
Proof. destruct l as [|y l] using rev_ind; [done|]. by rewrite last_snoc. Qed.

(** [a_floor], the result of [Floor], is the largest entry not above the key. *)
Lemma a_floor_correct key T :
  bst Comparator T →
  match a_floor Comparator key T with
  | (Some p, true) => ∃ e, entry_ptr e = p ∧ is_floor key (inorder T) e
  | (None, false) => ∀ e, e ∈ inorder T → klt Comparator key (entry_key e)
  | _ => False
  end.
Proof.
  intros Hb. apply bst_sorted in Hb; [|done]. unfold a_floor.
  destruct (a_find Comparator key [] T) as [C s] eqn:Hf.
  pose proof (a_find_plug Comparator key [] T) as Hp. rewrite Hf in Hp. simpl in Hp.
  change (plug [] T) with T in Hp.
  assert (between Comparator key C) as [Hbef Haft].
  { eapply (a_find_between Comparator key T []); [done|apply between_nil|done]. }
  rewrite <- Hp in *. rewrite inorder_plug in *.
  destruct s as [|q c l k v r].
  - simpl in *. destruct (last (ctx_before C)) as [e|] eqn:Hl; simpl.
    + exists e. split; [done|]. apply last_Some_snoc in Hl as [B HB].
      split_and!.
      * rewrite HB. set_solver.
      * apply klt_kle, Hbef. rewrite HB. set_solver.
      * intros e' [Hin|Hin]%elem_of_app Hle.
        -- apply sorted_entries_app in Hb as (_ & Hb & _). rewrite HB in Hb, Hin.
           by eapply sorted_snoc_le.
        -- exfalso. eapply kle_not_gt; [exact Hle|]. by apply Haft.
    + apply last_None_nil in Hl. rewrite Hl. simpl. done.
  - apply a_find_found in Hf as ->; [|done].
    exists (q, k, v). split; [done|]. split_and!.
    + set_solver.
    + apply kle_refl.
    + by intros e' _ Hle.
Qed.

Lemma a_ceiling_correct key T :
  bst Comparator T →
  match a_ceiling Comparator key T with
  | (Some p, true) => ∃ e, entry_ptr e = p ∧ is_ceiling key (inorder T) e
  | (None, false) => ∀ e, e ∈ inorder T → klt Comparator (entry_key e) key
  | _ => False
  end.
Proof.
  intros Hb. apply bst_sorted in Hb; [|done]. unfold a_ceiling.
  destruct (a_find Comparator key [] T) as [C s] eqn:Hf.
  pose proof (a_find_plug Comparator key [] T) as Hp. rewrite Hf in Hp. simpl in Hp.
  change (plug [] T) with T in Hp.
  assert (between Comparator key C) as [Hbef Haft].
  { eapply (a_find_between Comparator key T []); [done|apply between_nil|done]. }
  rewrite <- Hp in *. rewrite inorder_plug in *.
  destruct s as [|q c l k v r].
  - simpl in *. destruct (ctx_after C) as [|e A] eqn:Hl; simpl.
    + rewrite app_nil_r. done.
    + exists e. split; [done|]. split_and!.
      * set_solver.
      * apply klt_kle, Haft. set_solver.
      * intros e' [Hin|Hin]%elem_of_app Hle.
        -- exfalso. eapply kle_not_gt; [exact Hle|]. by apply Hbef.
        -- apply sorted_entries_app in Hb as (_ & _ & Hb).
           apply sorted_entries_cons in Hb as [Hlt _].
           apply elem_of_cons in Hin as [->|Hin]; [apply kle_refl|].
           by apply klt_kle, Hlt.
  - apply a_find_found in Hf as ->; [|done].
    exists (q, k, v). split; [done|]. split_and!.
    + set_solver.
    + apply kle_refl.
    + by intros e' _ Hle.
Qed.

End FloorCeilingOrder.

(** * The iterator *)

Section IteratorSteps.
Context {K V : Type}.
Variable Comparator : K → K → Z.
Context `{!ComparatorOrder Comparator}.
Implicit Types (s T : @ptree K V) (C : list (@frame K V)) (e : nat * K * V) (t : Tree K V)
  (L : list (nat * K * V)).

Lemma app_cons_eq_split {A} (l1 l2 m1 m2 : list A) (x y : A) :
  l1 ++ x :: l2 = m1 ++ y :: m2 →
  (∃ M, l1 = m1 ++ y :: M ∧ m2 = M ++ x :: l2)
  ∨ (l1 = m1 ∧ x = y ∧ l2 = m2)
  ∨ (∃ M, l2 = M ++ y :: m2 ∧ m1 = l1 ++ x :: M).
Proof.
  revert m1; induction l1 as [|a l1 IH]; intros [|b m1]; simpl; intros [= ? ?]; subst.
  - right; left. done.
  - right; right. eauto.
  - left. eauto.
  - destruct (IH m1) as [(M & -> & ->)|[(-> & -> & ->)|(M & -> & ->)]]; [done|..].
    + left. eauto.
    + right; left. done.
    + right; right. eauto.
Qed.

(** Every entry of a tree is the root of a subtree in a context: the
    entries before it are those before the hole and those of its left
    subtree, the entries after it those of its right subtree and those after
    the hole. *)
Lemma split_zipper C s L1 e L2 :
  inorder s = L1 ++ e :: L2 →
  ∃ C' c l r, plug C' (PNode (entry_ptr e) c l (entry_key e) e.2 r) = plug C s
    ∧ ctx_before C' ++ inorder l = ctx_before C ++ L1
    ∧ inorder r ++ ctx_after C' = L2 ++ ctx_after C.
Proof.
  revert C L1 L2; induction s as [|p c l IHl k v r IHr]; intros C L1 L2; simpl.
  { by destruct L1. }
  intros [(M & Hl & ->)|[(<- & <- & <-)|(M & Hr & ->)]]%app_cons_eq_split.
  - destruct (IHl (Frame p c k v DL r :: C) _ _ Hl) as (C' & c' & l' & r' & Hp & Hb & Ha).
    exists C', c', l', r'. split_and!; [done|done|].
    rewrite Ha. simpl. by rewrite <- app_assoc.
  - exists C, c, l, r. done.
  - destruct (IHr (Frame p c k v DR l :: C) _ _ Hr) as (C' & c' & l' & r' & Hp & Hb & Ha).
    exists C', c', l', r'. split_and!; [done| |done].
    rewrite Hb. simpl. rewrite <- !app_assoc. done.
Qed.

(** Down the left spine: the first entry of the subtree. *)
Lemma Next_down_spec t s C fuel :
  length (ptrs s) ≤ fuel → shape (plug C s) t → s ≠ PLeaf →
  Next_down fuel t (rootp s) = Some (entry_ptr <$> head (inorder s)).
Proof.
  revert C fuel; induction s as [|p c l IHl k v r IHr]; intros C fuel Hf Hs Hne; [done|].
  simpl in Hf. rewrite length_app in Hf. destruct fuel as [|fuel]; [lia|].
  simpl. rewrite (shape_lookup _ _ _ _ _ _ _ _ Hs). simpl.
  destruct l as [|pl cl ll kl vl rl]; [done|].
  rewrite (IHl (Frame p c k v DL r :: C) fuel); [|lia|done|done].
  simpl. by destruct (inorder ll).
Qed.

(** Down the right spine: the last entry of the subtree. *)
Lemma Prev_down_spec t s C fuel :
  length (ptrs s) ≤ fuel → shape (plug C s) t → s ≠ PLeaf →
  Prev_down fuel t (rootp s) = Some (entry_ptr <$> last (inorder s)).
Proof.
  revert C fuel; induction s as [|p c l IHl k v r IHr]; intros C fuel Hf Hs Hne; [done|].
  simpl in Hf. rewrite length_app in Hf. destruct fuel as [|fuel]; [lia|].
  simpl. rewrite (shape_lookup _ _ _ _ _ _ _ _ Hs). simpl.
  rewrite last_app, last_cons.
  destruct r as [|pr cr lr kr vr rr]; [done|].
  rewrite (IHr (Frame p c k v DR l :: C) fuel); [|lia|done|done].
  destruct (last (inorder (PNode pr cr lr kr vr rr))) eqn:E; [done|].
  apply last_None_nil in E. simpl in E. by destruct (inorder lr).
Qed.

Lemma between_tail key f C : between Comparator key (f :: C) → between Comparator key C.
Proof.
  intros [Hb Ha]. split; intros e He; [apply Hb|apply Ha];
    simpl; destruct (fd f); set_solver.
Qed.

(** Up the parents: the first ancestor reached from its left side. *)
Lemma Next_up_spec key t C fuel :
  ∀ p c l k v r, length C < fuel → shape (plug C (PNode p c l k v r)) t →
  between Comparator key C →
  Next_up Comparator fuel t key (Some p) = Some (entry_ptr <$> head (ctx_after C)).
Proof.
  revert fuel; induction C as [|f C IH]; intros fuel p c l k v r Hf Hs Hb;
    (destruct fuel as [|fuel]; [simpl in Hf; lia|]); simpl in Hf;
    simpl; rewrite (shape_lookup _ _ _ _ _ _ _ _ Hs); simpl; [done|].
  destruct f as [pf cf kf vf d sib].
  change (plug (Frame pf cf kf vf d sib :: C) (PNode p c l k v r))
    with (plug C (plug1 (Frame pf cf kf vf d sib) (PNode p c l k v r))) in Hs.
  destruct d; unfold plug1 in Hs; simpl in Hs; simpl;
    rewrite (shape_lookup _ _ _ _ _ _ _ _ Hs); simpl.
  - assert (klt Comparator key kf) as Hlt.
    { apply (proj2 Hb (pf, kf, vf)). simpl. set_solver. }
    unfold klt in Hlt. destruct (Z.leb_spec (Comparator key kf) 0); [done|lia].
  - assert (klt Comparator kf key) as Hlt.
    { apply (proj1 Hb (pf, kf, vf)). simpl. set_solver. }
    unfold klt in Hlt. apply cmp_antisym in Hlt.
    destruct (Z.leb_spec (Comparator key kf) 0); [lia|].
    eapply IH; [lia|exact Hs|by eapply between_tail].
Qed.

(** Up the parents: the first ancestor reached from its right side. *)
Lemma Prev_up_spec key t C fuel :
  ∀ p c l k v r, length C < fuel → shape (plug C (PNode p c l k v r)) t →
  between Comparator key C →
  Prev_up Comparator fuel t key (Some p) = Some (entry_ptr <$> last (ctx_before C)).
Proof.
  revert fuel; induction C as [|f C IH]; intros fuel p c l k v r Hf Hs Hb;
    (destruct fuel as [|fuel]; [simpl in Hf; lia|]); simpl in Hf;
    simpl; rewrite (shape_lookup _ _ _ _ _ _ _ _ Hs); simpl; [done|].
  destruct f as [pf cf kf vf d sib].
  change (plug (Frame pf cf kf vf d sib :: C) (PNode p c l k v r))
    with (plug C (plug1 (Frame pf cf kf vf d sib) (PNode p c l k v r))) in Hs.
  destruct d; unfold plug1 in Hs; simpl in Hs; simpl;
    rewrite (shape_lookup _ _ _ _ _ _ _ _ Hs); simpl.
  - assert (klt Comparator key kf) as Hlt.
    { apply (proj2 Hb (pf, kf, vf)). simpl. set_solver. }
    unfold klt in Hlt.
    destruct (Z.geb_spec (Comparator key kf) 0); [lia|].
    eapply IH; [lia|exact Hs|by eapply between_tail].
  - assert (klt Comparator kf key) as Hlt.
    { apply (proj1 Hb (pf, kf, vf)). simpl. set_solver. }
    unfold klt in Hlt. apply cmp_antisym in Hlt.
    destruct (Z.geb_spec (Comparator key kf) 0); [|lia].
    by rewrite !app_assoc, last_snoc.
Qed.

(** The outcome of a step of the iterator, for the entry it lands on. *)
Definition landed (o : option (nat * K * V)) (off : position) : bool * Iterator :=
  match o with
  | Some e => (true, mkIterator (Some (entry_ptr e)) pos_between)
  | None => (false, mkIterator None off)
  end.

Lemma sorted_between_node C p c l k v r :
  sorted_entries Comparator (inorder (plug C (PNode p c l k v r))) → between Comparator k C.
Proof.
  rewrite inorder_plug. simpl. rewrite <- app_assoc. simpl.
  intros (H1 & _ & (_ & _ & (H2 & _)%sorted_entries_cons)%sorted_entries_app)%sorted_entries_app.
  split; intros e He.
  - apply (H1 e (p, k, v)); set_solver.
  - apply H2. set_solver.
Qed.

(** [Next] from a node: on to the next entry in order, or off the end. *)
Lemma Next_between t T L1 e L2 :
  shape T t → bst Comparator T → inorder T = L1 ++ e :: L2 →
  Next Comparator t (IteratorAt (Some (entry_ptr e))) = Some (landed (head L2) pos_end).
Proof.
  intros Hs Hb Hin. apply bst_sorted in Hb; [|done].
  destruct (split_zipper [] T L1 e L2 Hin) as (C & c & l & r & Hp & _ & Ha).
  change (plug [] T) with T in Hp. rewrite <- Hp in Hs, Hb.
  pose proof (shape_plug_length _ _ _ Hs) as Hlen. simpl in Hlen. rewrite length_app in Hlen.
  simpl in Ha. rewrite app_nil_r in Ha. subst L2.
  unfold Next, IteratorAt. set (fu := fuel_of t).
  assert (length (store t) < fu) as Hfu by (unfold fu, fuel_of; lia). clearbody fu.
  simpl. rewrite (shape_lookup _ _ _ _ _ _ _ _ Hs). simpl.
  destruct r as [|pr cr lr kr vr rr].
  - simpl. destruct C as [|f C]; [done|]. simpl ctx_top. cbv iota.
    erewrite (Next_up_spec _ t (f :: C) fu);
      [|simpl in *; lia|exact Hs|by eapply sorted_between_node].
    by destruct (head (ctx_after (f :: C))).
  - change (Some pr) with (rootp (PNode pr cr lr kr vr rr)).
    rewrite (Next_down_spec t (PNode pr cr lr kr vr rr) (Frame (entry_ptr e) c (entry_key e) e.2 DR l :: C)
               fu); [|simpl in *; lia|exact Hs|done].
    simpl. by destruct (inorder lr).
Qed.

(** [Prev] from a node: back to the previous entry in order, or off the
    beginning. *)
Lemma Prev_between t T L1 e L2 :
  shape T t → bst Comparator T → inorder T = L1 ++ e :: L2 →
  Prev Comparator t (IteratorAt (Some (entry_ptr e))) = Some (landed (last L1) pos_begin).
Proof.
  intros Hs Hb Hin. apply bst_sorted in Hb; [|done].
  destruct (split_zipper [] T L1 e L2 Hin) as (C & c & l & r & Hp & Hbe & _).
  change (plug [] T) with T in Hp. rewrite <- Hp in Hs, Hb.
  pose proof (shape_plug_length _ _ _ Hs) as Hlen. simpl in Hlen. rewrite length_app in Hlen.
  simpl in Hbe. subst L1.
  unfold Prev, IteratorAt. set (fu := fuel_of t).
  assert (length (store t) < fu) as Hfu by (unfold fu, fuel_of; lia). clearbody fu.
  simpl. rewrite (shape_lookup _ _ _ _ _ _ _ _ Hs). simpl.
  destruct l as [|pl cl ll kl vl rl].
  - simpl. rewrite app_nil_r. destruct C as [|f C]; [done|]. simpl ctx_top. cbv iota.
    erewrite (Prev_up_spec _ t (f :: C) fu);
      [|simpl in *; lia|exact Hs|by eapply sorted_between_node].
    by destruct (last (ctx_before (f :: C))).
  - change (Some pl) with (rootp (PNode pl cl ll kl vl rl)).
    rewrite (Prev_down_spec t (PNode pl cl ll kl vl rl) (Frame (entry_ptr e) c (entry_key e) e.2 DL r :: C)
               fu); [|simpl in *; lia|exact Hs|done].
    rewrite last_app.
    destruct (last (inorder (PNode pl cl ll kl vl rl))) eqn:E; [done|].
    apply last_None_nil in E. simpl in E. by destruct (inorder ll).
Qed.

(** [Next] from the position before the first entry. *)
Lemma Next_begin t T nd :
  shape T t → Next Comparator t (mkIterator nd pos_begin) = Some (landed (head (inorder T)) pos_end).
Proof.
  intros Hs. unfold Next. simpl. rewrite (Left_spec t T Hs). simpl.
  by destruct (head (inorder T)).
Qed.

(** [Prev] from the position after the last entry. *)
Lemma Prev_end t T nd :
  shape T t → Prev Comparator t (mkIterator nd pos_end) = Some (landed (last (inorder T)) pos_begin).
Proof.
  intros Hs. unfold Prev. simpl. rewrite (Right_spec t T Hs). simpl.
  by destruct (last (inorder T)).
Qed.

End IteratorSteps.

(** * [Keys] and [Values] *)

Section KeysValues.
Context {K V : Type}.
Variable Comparator : K → K → Z.
Variable zeroK : K.
Variable zeroV : V.
Context `{!ComparatorOrder Comparator}.
Implicit Types (s T : @ptree K V) (C : list (@frame K V)) (e : nat * K * V) (t : Tree K V)
  (L : list (nat * K * V)).

Definition vals T : list V := snd <$> inorder T.

Lemma Iterator_Key_entry t T e :
  shape T t → e ∈ inorder T →
  Iterator_Key t (mkIterator (Some (entry_ptr e)) pos_between) = Some (entry_key e).
Proof.
  destruct e as [[p k] v]. intros Hs Hin.
  destruct (shape_entry _ _ _ _ _ Hs Hin) as (n & Hn & <- & _).
  unfold Iterator_Key, entry_ptr, entry_key. simpl. by rewrite Hn.
Qed.

Lemma Iterator_Value_entry t T e :
  shape T t → e ∈ inorder T →
  Iterator_Value t (mkIterator (Some (entry_ptr e)) pos_between) = Some e.2.
Proof.
  destruct e as [[p k] v]. intros Hs Hin.
  destruct (shape_entry _ _ _ _ _ Hs Hin) as (n & Hn & _ & <-).
  unfold Iterator_Value, entry_ptr. simpl. by rewrite Hn.
Qed.

Lemma insert_replicate_head {A} (pre : list A) (x z : A) n :
  <[length pre := x]> (pre ++ replicate (S n) z) = (pre ++ [x]) ++ replicate n z.
Proof.
  rewrite insert_app_r_alt by lia. rewrite Nat.sub_diag. simpl. by rewrite <- app_assoc.
Qed.

(** The loop of [Keys], with the iterator on the entry [e]: the entries up
    to [e] are written, the rest of the slice still holds zero values. *)
Lemma Keys_loop_from t T L2 : ∀ L1 e fuel,
  shape T t → bst Comparator T → inorder T = L1 ++ e :: L2 → length L2 < fuel →
  Keys_loop Comparator fuel t (IteratorAt (Some (entry_ptr e))) (S (length L1))
    ((entry_key <$> L1 ++ [e]) ++ replicate (length L2) zeroK)
  = Some (keys T).
Proof.
  induction L2 as [|e' L2 IH]; intros L1 e fuel Hs Hb Hin Hf;
    (destruct fuel as [|fuel]; [simpl in Hf; lia|]); simpl in Hf;
    cbn [Keys_loop]; rewrite (Next_between _ _ _ _ _ _ Hs Hb Hin); simpl.
  - unfold keys. rewrite Hin, app_nil_r. done.
  - rewrite (Iterator_Key_entry t T e'); [|done|rewrite Hin; set_solver]. simpl.
    rewrite bool_decide_true; cycle 1.
    { rewrite length_app, length_fmap, length_app. simpl. lia. }
    assert (<[S (length L1) := entry_key e']>
              ((entry_key <$> L1 ++ [e]) ++ zeroK :: replicate (length L2) zeroK)
            = (entry_key <$> (L1 ++ [e]) ++ [e']) ++ replicate (length L2) zeroK) as ->.
    { rewrite (fmap_snoc _ (L1 ++ [e])).
      rewrite <- (insert_replicate_head (entry_key <$> L1 ++ [e]) (entry_key e') zeroK (length L2)).
      rewrite length_fmap, length_app, Nat.add_1_r. done. }
    specialize (IH (L1 ++ [e]) e' fuel Hs Hb).
    rewrite length_app in IH. simpl in IH. rewrite Nat.add_1_r in IH.
    apply IH; [|lia].
    rewrite Hin, <- app_assoc. done.
Qed.

(** [Keys]: the keys of the tree, in order. *)
Lemma Keys_spec t T :
  represents t T → bst Comparator T → Keys Comparator zeroK t = Some (keys T).
Proof.
  intros [Hs Hsz] Hb. unfold Keys. rewrite Hsz, Nat2Z.id, length_ptrs_inorder.
  rewrite bool_decide_true by lia.
  pose proof (shape_length _ _ Hs) as Hlen. rewrite length_ptrs_inorder in Hlen.
  set (fu := fuel_of t). assert (length (store t) < fu) as Hfu by (unfold fu, fuel_of; lia).
  clearbody fu. cbn [Keys_loop]. unfold Iterator_. rewrite (Next_begin _ _ _ _ Hs).
  unfold keys. destruct (inorder T) as [|e L2] eqn:Hin; simpl; [done|].
  rewrite (Iterator_Key_entry t T e); [|done|rewrite Hin; set_solver]. simpl.
  pose proof (Keys_loop_from t T L2 [] e fu Hs Hb Hin) as H. simpl in H, Hlen.
  unfold IteratorAt in H. rewrite H; [|lia]. unfold keys. by rewrite Hin.
Qed.

Lemma Values_loop_from t T L2 : ∀ L1 e fuel,
  shape T t → bst Comparator T → inorder T = L1 ++ e :: L2 → length L2 < fuel →
  Values_loop Comparator fuel t (IteratorAt (Some (entry_ptr e))) (S (length L1))
    ((snd <$> L1 ++ [e]) ++ replicate (length L2) zeroV)
  = Some (vals T).
Proof.
  induction L2 as [|e' L2 IH]; intros L1 e fuel Hs Hb Hin Hf;
    (destruct fuel as [|fuel]; [simpl in Hf; lia|]); simpl in Hf;
    cbn [Values_loop]; rewrite (Next_between _ _ _ _ _ _ Hs Hb Hin); simpl.
  - unfold vals. rewrite Hin, app_nil_r. done.
  - rewrite (Iterator_Value_entry t T e'); [|done|rewrite Hin; set_solver]. simpl.
    rewrite bool_decide_true; cycle 1.
    { rewrite length_app, length_fmap, length_app. simpl. lia. }
    assert (<[S (length L1) := snd e']>
              ((snd <$> L1 ++ [e]) ++ zeroV :: replicate (length L2) zeroV)
            = (snd <$> (L1 ++ [e]) ++ [e']) ++ replicate (length L2) zeroV) as ->.
    { rewrite (fmap_snoc _ (L1 ++ [e])).
      rewrite <- (insert_replicate_head (snd <$> L1 ++ [e]) (snd e') zeroV (length L2)).
      rewrite length_fmap, length_app, Nat.add_1_r. done. }
    specialize (IH (L1 ++ [e]) e' fuel Hs Hb).
    rewrite length_app in IH. simpl in IH. rewrite Nat.add_1_r in IH.
    apply IH; [|lia].
    rewrite Hin, <- app_assoc. done.
Qed.

(** [Values]: the values of the tree, in the order of their keys. *)
Lemma Values_spec t T :
  represents t T → bst Comparator T → Values Comparator zeroV t = Some (vals T).
Proof.
  intros [Hs Hsz] Hb. unfold Values. rewrite Hsz, Nat2Z.id, length_ptrs_inorder.
  rewrite bool_decide_true by lia.
  pose proof (shape_length _ _ Hs) as Hlen. rewrite length_ptrs_inorder in Hlen.
  set (fu := fuel_of t). assert (length (store t) < fu) as Hfu by (unfold fu, fuel_of; lia).
  clearbody fu. cbn [Values_loop]. unfold Iterator_. rewrite (Next_begin _ _ _ _ Hs).
  unfold vals. destruct (inorder T) as [|e L2] eqn:Hin; simpl; [done|].
  rewrite (Iterator_Value_entry t T e); [|done|rewrite Hin; set_solver]. simpl.
  pose proof (Values_loop_from t T L2 [] e fu Hs Hb Hin) as H. simpl in H, Hlen.
  unfold IteratorAt in H. rewrite H; [|lia]. unfold vals. by rewrite Hin.
Qed.

End KeysValues.

(** * Sequences of operations *)

Section Operations.
Context {K V : Type}.
Variable Comparator : K → K → Z.

(** The mutating operations of the public interface. *)
Inductive op :=
| OpPut (key : K) (value : V)
| OpRemove (key : K)
| OpClear.

Definition run_op (o : op) : M unit :=
  match o with
  | OpPut key value => Put Comparator key value
  | OpRemove key => Remove Comparator key
  | OpClear => Clear
  end.

Fixpoint run_ops (os : list op) : M unit :=
  match os with
  | [] => ret tt
  | o :: os' => run_op o ;;; run_ops os'
  end.

End Operations.

Arguments op : clear implicits.

Section Invariant.
Context {K V : Type}.
Variable Comparator : K → K → Z.
Context `{!ComparatorOrder Comparator}.
Implicit Types (s T : @ptree K V) (C : list (@frame K V)) (e : nat * K * V) (t : Tree K V)
  (L : list (nat * K * V)).

(** The invariant of the tree: the state is a tree of cells, counted by
    [size], ordered by the comparator and coloured as a red-black tree. *)
Definition wf t T : Prop := represents t T ∧ rbtree T ∧ bst Comparator T.

Lemma ptrs_inorder_perm T : ptrs T ≡ₚ entry_ptr <$> inorder T.
Proof.
  induction T as [|p c l IHl k v r IHr]; simpl; [done|].
  rewrite fmap_app, fmap_cons, IHl, IHr. unfold entry_ptr at 2. simpl. solve_Permutation.
Qed.

Lemma kvs_app L1 L2 :
  (λ e, (e.1.2, e.2)) <$> (L1 ++ L2) = ((λ e, (e.1.2, e.2)) <$> L1) ++ ((λ e, (e.1.2, e.2)) <$> L2).
Proof. apply fmap_app. Qed.

Lemma wf_NewWith : wf (@NewWith K V) PLeaf.
Proof. repeat split; simpl; try done; [constructor|by exists 0]. Qed.

Lemma wf_Clear t : ∃ t', Clear t = Some (tt, t') ∧ wf t' PLeaf ∧ size t' = 0%Z ∧ Root t' = None.
Proof.
  eexists. split; [done|]. split; [|done].
  repeat split; simpl; try done; [constructor|by exists 0].
Qed.

Lemma wf_Put key value t T :
  wf t T →
  ∃ t' T', Put Comparator key value t = Some (tt, t') ∧ wf t' T'
    ∧ ((∃ A v0 B, kvs T = A ++ (key, v0) :: B ∧ kvs T' = A ++ (key, value) :: B
          ∧ size t' = size t)
       ∨ ((key ∉ keys T) ∧ ∃ A B, kvs T = A ++ B ∧ kvs T' = A ++ (key, value) :: B
          ∧ size t' = (size t + 1)%Z)).
Proof.
  intros (Hr & Hrb & Hb).
  destruct (Put_spec Comparator key value t T Hr Hrb Hb)
    as (t' & T' & HP & Hr' & Hrb' & Hb' & Hcase).
  exists t', T'. split; [done|]. split; [done|].
  destruct Hcase as [(l1 & p & v0 & l2 & n & HT & HT' & _ & ->)|(Hnin & l1 & l2 & HT & HT' & Hsz)].
  - left. exists ((λ e, (e.1.2, e.2)) <$> l1), v0, ((λ e, (e.1.2, e.2)) <$> l2).
    unfold kvs. rewrite HT, HT', !kvs_app. done.
  - right. split; [done|].
    exists ((λ e, (e.1.2, e.2)) <$> l1), ((λ e, (e.1.2, e.2)) <$> l2).
    unfold kvs. rewrite HT, HT', !kvs_app. done.
Qed.

Lemma sorted_entries_delete L1 e L2 :
  sorted_entries Comparator (L1 ++ e :: L2) → sorted_entries Comparator (L1 ++ L2).
Proof.
  rewrite !sorted_entries_app, sorted_entries_cons.
  intros (H1 & H2 & H3 & H4). split_and!; [|done..].
  intros e1 e2 He1 He2. apply H1; set_solver.
Qed.

Lemma sorted_entries_repoint L1 p q k v L2 :
  sorted_entries Comparator (L1 ++ (q, k, v) :: L2) →
  sorted_entries Comparator (L1 ++ (p, k, v) :: L2).
Proof.
  rewrite !sorted_entries_app, !sorted_entries_cons.
  intros (H1 & H2 & H3 & H4). split_and!; [|done..].
  intros e1 e2 He1 [->|He2]%elem_of_cons.
  - apply (H1 e1 (q, k, v)); set_solver.
  - apply H1; set_solver.
Qed.

(** [Remove]: either the key is not in the tree and nothing changes, or its
    entry leaves the tree and the size goes down by one. *)
Lemma wf_Remove key t T :
  wf t T →
  ∃ t' T', Remove Comparator key t = Some (tt, t') ∧ wf t' T'
    ∧ (((key ∉ keys T) ∧ t' = t ∧ T' = T)
       ∨ (∃ A v B, kvs T = A ++ (key, v) :: B ∧ kvs T' = A ++ B
          ∧ size t' = (size t - 1)%Z)).
Proof.
  intros (Hr & Hrb & Hb).
  destruct (a_find Comparator key [] T) as [C s] eqn:Hf.
  destruct s as [|p c l k v r].
  - exists t, T. split; [by eapply Remove_absent; [apply Hr|]|].
    split; [done|]. left. split; [|done]. by eapply a_find_leaf_notin.
  - destruct (Remove_present Comparator key t T C p c l k v r Hr Hrb Hf)
      as (t' & T' & HR & Hr' & Hrb' & Hsz & Hcase).
    apply a_find_found in Hf as ->; [|done].
    apply bst_sorted in Hb; [|done].
    exists t', T'. split; [done|].
    destruct Hcase as [(_ & L1 & L2 & HT & HT')|(_ & _ & L1 & L2 & q & kq & vq & _ & HT & HT')].
    + split.
      * split; [done|]. split; [done|]. apply bst_sorted; [done|].
        rewrite HT'. rewrite HT in Hb. by eapply sorted_entries_delete.
      * right. exists ((λ e, (e.1.2, e.2)) <$> L1), v, ((λ e, (e.1.2, e.2)) <$> L2).
        unfold kvs. rewrite HT, HT', !kvs_app. done.
    + split.
      * split; [done|]. split; [done|]. apply bst_sorted; [done|].
        rewrite HT'. rewrite HT in Hb.
        apply sorted_entries_repoint with (q := q).
        rewrite (cons_middle (q, kq, vq) L1), (assoc_L (++)) in Hb.
        apply sorted_entries_delete in Hb.
        by rewrite (cons_middle (q, kq, vq) L1), (assoc_L (++)).
      * right.
        exists (((λ e, (e.1.2, e.2)) <$> L1) ++ [(kq, vq)]), v, ((λ e, (e.1.2, e.2)) <$> L2).
        unfold kvs. rewrite HT, HT', !kvs_app. simpl. rewrite <- !app_assoc. done.
Qed.

Lemma wf_run_op o t T :
  wf t T → ∃ t' T', run_op Comparator o t = Some (tt, t') ∧ wf t' T'.
Proof.
  intros Hwf. destruct o as [key value|key|]; simpl.
  - destruct (wf_Put key value t T Hwf) as (t' & T' & H1 & H2 & _). eauto.
  - destruct (wf_Remove key t T Hwf) as (t' & T' & H1 & H2 & _). eauto.
  - destruct (wf_Clear t) as (t' & H1 & H2 & _). eauto.
Qed.

(** Every sequence of operations runs to the end and keeps the invariant. *)
Lemma wf_run_ops os : ∀ t T,
  wf t T → ∃ t' T', run_ops Comparator os t = Some (tt, t') ∧ wf t' T'.
Proof.
  induction os as [|o os IH]; intros t T Hwf; simpl.
  - exists t, T. done.
  - destruct (wf_run_op o t T Hwf) as (t1 & T1 & H1 & Hwf1).
    destruct (IH t1 T1 Hwf1) as (t2 & T2 & H2 & Hwf2).
    exists t2, T2. split; [|done]. unfold bind. rewrite H1. done.
Qed.

End Invariant.

(** * Reachable nodes *)

Section Reachable.
Context {K V : Type}.
Implicit Types (s T : @ptree K V) (C : list (@frame K V)) (e : nat * K * V) (t : Tree K V)
  (L : list (nat * K * V)).

(** The nodes that the links [Left] and [Right] reach from the root. *)
Inductive reachable t : nat → Prop :=
| reachable_root p : Root t = Some p → reachable t p
| reachable_left p n q :
    reachable t p → store t !! p = Some n → Left n = Some q → reachable t q
| reachable_right p n q :
    reachable t p → store t !! p = Some n → Right n = Some q → reachable t q.

Lemma ptr_zipper C s p :
  p ∈ ptrs s → ∃ C' c l k v r, plug C' (PNode p c l k v r) = plug C s.
Proof.
  revert C; induction s as [|q c l IHl k v r IHr]; intros C; simpl.
  { by intros ?%elem_of_nil. }
  intros [->|[Hin|Hin]%elem_of_app]%elem_of_cons.
  - by exists C, c, l, k, v, r.
  - apply (IHl (Frame q c k v DL r :: C) Hin).
  - apply (IHr (Frame q c k v DR l :: C) Hin).
Qed.

Lemma reachable_subtree t s : ∀ C,
  shape (plug C s) t → (∀ x, rootp s = Some x → reachable t x) →
  ∀ q, q ∈ ptrs s → reachable t q.
Proof.
  induction s as [|p c l IHl k v r IHr]; intros C Hs Hroot q; simpl.
  { by intros ?%elem_of_nil. }
  pose proof (shape_lookup _ _ _ _ _ _ _ _ Hs) as Hp.
  assert (reachable t p) as Hrp by (by apply Hroot).
  intros [->|[Hin|Hin]%elem_of_app]%elem_of_cons; [done|..].
  - apply (IHl (Frame p c k v DL r :: C)); [done| |done].
    intros x Hx. by eapply reachable_left.
  - apply (IHr (Frame p c k v DR l :: C)); [done| |done].
    intros x Hx. by eapply reachable_right.
Qed.

(** The reachable nodes are the nodes of the represented tree. *)
Lemma reachable_ptrs t T p : shape T t → reachable t p ↔ p ∈ ptrs T.
Proof.
  intros Hs. split.
  - induction 1 as [p HR|p n q _ IH Hn HL|p n q _ IH Hn HR].
    + destruct Hs as (HRoot & _). rewrite HRoot in HR. by apply rootp_in.
    + destruct (ptr_zipper [] T p IH) as (C & c & l & k & v & r & Hp).
      change (plug [] T) with T in Hp. rewrite <- Hp in Hs |- *.
      rewrite (shape_lookup _ _ _ _ _ _ _ _ Hs) in Hn. injection Hn as <-. simpl in HL.
      rewrite ptrs_plug. simpl. apply rootp_in in HL. set_solver.
    + destruct (ptr_zipper [] T p IH) as (C & c & l & k & v & r & Hp).
      change (plug [] T) with T in Hp. rewrite <- Hp in Hs |- *.
      rewrite (shape_lookup _ _ _ _ _ _ _ _ Hs) in Hn. injection Hn as <-. simpl in HR.
      rewrite ptrs_plug. simpl. apply rootp_in in HR. set_solver.
  - apply (reachable_subtree t T []); [done|].
    intros x Hx. apply reachable_root. destruct Hs as (HRoot & _). congruence.
Qed.

(** Reading the tree of cells back from the arena. *)
Fixpoint read_tree (fuel : nat) (h : list (Node K V)) (p : ptr) : ptree :=
  match fuel with
  | O => PLeaf
  | S fuel' =>
      match p with
      | None => PLeaf
      | Some i =>
          match h !! i with
          | None => PLeaf
          | Some n =>
              PNode i (color n) (read_tree fuel' h (Left n)) (Key n) (Value n)
                (read_tree fuel' h (Right n))
          end
      end
  end.

Definition tree_of t : ptree := read_tree (length (store t)) (store t) (Root t).

Lemma read_tree_heap_ok h par T fuel :
  heap_ok h par T → length (ptrs T) ≤ fuel → read_tree fuel h (rootp T) = T.
Proof.
  revert par fuel; induction T as [|p c l IHl k v r IHr]; intros par fuel; simpl.
  { by destruct fuel. }
  intros (Hp & Hl & Hr) Hf. rewrite length_app in Hf.
  destruct fuel as [|fuel]; [lia|]. simpl. rewrite Hp. simpl.
  rewrite (IHl _ _ Hl), (IHr _ _ Hr); [done|lia|lia].
Qed.

(** A state represents one tree only: the one that its cells spell out. *)
Lemma shape_tree_of t T : shape T t → tree_of t = T.
Proof.
  intros Hs. pose proof (shape_length _ _ Hs). destruct Hs as (HR & _ & Hh).
  unfold tree_of. rewrite HR. by eapply read_tree_heap_ok.
Qed.

(** The keys of the tree are the keys of the reachable nodes. *)
Lemma keys_reachable t T k :
  shape T t → k ∈ keys T ↔ ∃ p n, reachable t p ∧ store t !! p = Some n ∧ Key n = k.
Proof.
  intros Hs. unfold keys. rewrite list_elem_of_fmap. split.
  - intros ([[p k'] v] & -> & Hin).
    destruct (shape_entry _ _ _ _ _ Hs Hin) as (n & Hn & Hk & _).
    exists p, n. split_and!; [|done..].
    apply (reachable_ptrs t T p Hs). rewrite ptrs_inorder_perm.
    apply list_elem_of_fmap. by exists (p, k', v).
  - intros (p & n & Hr & Hn & <-).
    apply (reachable_ptrs t T p Hs) in Hr.
    destruct (ptr_zipper [] T p Hr) as (C & c & l & k & v & r & Hp).
    change (plug [] T) with T in Hp. rewrite <- Hp in Hs |- *.
    rewrite (shape_lookup _ _ _ _ _ _ _ _ Hs) in Hn. injection Hn as <-.
    exists (p, k, v). split; [done|]. rewrite inorder_plug. simpl. set_solver.
Qed.

End Reachable.

(** * Black height, path by path *)

Section Paths.
Context {K V : Type}.
Implicit Types (s T : @ptree K V).

Inductive subtree : @ptree K V → @ptree K V → Prop :=
| subtree_refl T : subtree T T
| subtree_left s p c l k v r : subtree s l → subtree s (PNode p c l k v r)
| subtree_right s p c l k v r : subtree s r → subtree s (PNode p c l k v r).

(** The number of black nodes on each path from the root of [T] down to a
    nil link. *)
Fixpoint black_counts T : list nat :=
  match T with
  | PLeaf => [0]
  | PNode _ c l _ _ r =>
      (λ n, match c with black => S n | red => n end) <$> (black_counts l ++ black_counts r)
  end.

Lemma bh_black_counts T n m : bh T n → m ∈ black_counts T → m = n.
Proof.
  revert n m; induction T as [|p c l IHl k v r IHr]; intros n m; simpl.
  { intros -> Hm. by apply list_elem_of_singleton in Hm. }
  destruct c.
  - destruct n as [|n]; [done|]. intros [Hl Hr].
    intros (x & -> & [Hx|Hx]%elem_of_app)%list_elem_of_fmap; f_equal; eauto.
  - intros [Hl Hr].
    intros (x & -> & [Hx|Hx]%elem_of_app)%list_elem_of_fmap; eauto.
Qed.

Lemma bh_subtree s T n : subtree s T → bh T n → ∃ m, bh s m.
Proof.
  intros Hsub; revert n; induction Hsub as [T|s p c l k v r _ IH|s p c l k v r _ IH];
    intros n; [by eauto|..]; simpl; destruct c; try (destruct n as [|n]; [done|]);
    intros [Hl Hr]; eauto.
Qed.

Lemma nrr_subtree s T : subtree s T → nrr T → nrr s.
Proof.
  induction 1 as [T|s p c l k v r _ IH|s p c l k v r _ IH]; [done|..]; simpl;
    intros (_ & Hl & Hr); eauto.
Qed.

(** In a red-black tree all the paths below a node count the same number of
    black nodes. *)
Lemma rbtree_paths T s m1 m2 :
  rbtree T → subtree s T → m1 ∈ black_counts s → m2 ∈ black_counts s → m1 = m2.
Proof.
  intros (_ & _ & n & Hbh) Hsub H1 H2.
  destruct (bh_subtree _ _ _ Hsub Hbh) as [m Hm].
  rewrite (bh_black_counts _ _ _ Hm H1), (bh_black_counts _ _ _ Hm H2). done.
Qed.

(** No red node has a red child, node by node. *)
Lemma rbtree_red_children T p l k v r :
  rbtree T → subtree (PNode p red l k v r) T → rootc l = black ∧ rootc r = black.
Proof.
  intros (_ & Hn & _) Hsub. apply (nrr_subtree _ _ Hsub) in Hn. simpl in Hn. naive_solver.
Qed.

End Paths.

(** * A full traversal *)

Section Traversal.
Context {K V : Type}.
Variable Comparator : K → K → Z.

(** The number of nodes that a full traversal visits: the calls of [Next]
    that return true, from a fresh iterator on. *)
Fixpoint count_loop (fuel : nat) (t : Tree K V) (it : Iterator) (n : nat) : option nat :=
  match fuel with
  | O => None
  | S fuel' =>
      r ← Next Comparator t it;
      if (r.1 : bool) then count_loop fuel' t r.2 (S n) else Some n
  end.

Definition traversal_count (t : Tree K V) : option nat :=
  count_loop (S (fuel_of t)) t Iterator_ 0.

(** Running a list of moves of the iterator: what each move returns, with
    the key under the iterator after each successful move. *)
Inductive move := MNext | MPrev.

Fixpoint observe (t : Tree K V) (it : Iterator) (ms : list move) : option (list (option K)) :=
  match ms with
  | [] => Some []
  | m :: ms' =>
      r ← match m with MNext => Next Comparator t it | MPrev => Prev Comparator t it end;
      o ← (if (r.1 : bool) then k ← Iterator_Key t r.2; Some (Some k) else Some None);
      rest ← observe t r.2 ms';
      Some (o :: rest)
  end.

Context `{!ComparatorOrder Comparator}.
Implicit Types (s T : @ptree K V) (C : list (@frame K V)) (e : nat * K * V) (t : Tree K V)
  (L : list (nat * K * V)).

Lemma count_loop_from t T L2 : ∀ L1 e fuel n,
  shape T t → bst Comparator T → inorder T = L1 ++ e :: L2 → length L2 < fuel →
  count_loop fuel t (IteratorAt (Some (entry_ptr e))) n = Some (n + length L2).
Proof.
  induction L2 as [|e' L2 IH]; intros L1 e fuel n Hs Hb Hin Hf;
    (destruct fuel as [|fuel]; [simpl in Hf; lia|]); simpl in Hf;
    cbn [count_loop]; rewrite (Next_between _ _ _ _ _ _ Hs Hb Hin); simpl.
  - f_equal. lia.
  - pose proof (IH (L1 ++ [e]) e' fuel (S n) Hs Hb) as H. unfold IteratorAt in H.
    rewrite H; [f_equal; lia| |lia].
    by rewrite Hin, <- app_assoc.
Qed.

(** A full traversal visits as many nodes as the tree has. *)
Lemma traversal_count_spec t T :
  shape T t → bst Comparator T → traversal_count t = Some (length (ptrs T)).
Proof.
  intros Hs Hb. unfold traversal_count. rewrite length_ptrs_inorder.
  pose proof (shape_length _ _ Hs) as Hlen. rewrite length_ptrs_inorder in Hlen.
  set (fu := fuel_of t). assert (length (store t) < fu) as Hfu by (unfold fu, fuel_of; lia).
  clearbody fu. cbn [count_loop]. unfold Iterator_. rewrite (Next_begin _ _ _ _ Hs).
  destruct (inorder T) as [|e L2] eqn:Hin; simpl; [done|].
  pose proof (count_loop_from t T L2 [] e fu 1 Hs Hb Hin) as H. simpl in H, Hlen.
  unfold IteratorAt in H. rewrite H; [done|lia].
Qed.

(** When [Next] returns false the iterator is past the end, whatever the
    state it was called in. *)
Lemma Next_false_end t it it' :
  Next Comparator t it = Some (false, it') → it' = mkIterator None pos_end.
Proof.
  unfold Next. set (fu := fuel_of t). clearbody fu. destruct (pos it); simpl.
  - destruct (Left_ t) as [[p|]|]; simpl; congruence.
  - destruct (deref t (node it)) as [n|]; simpl; [|done].
    destruct (Right n).
    + destruct (Next_down fu t _); simpl; congruence.
    + destruct (Parent n); [|congruence].
      destruct (Next_up _ fu t _ _) as [[q|]|]; simpl; congruence.
  - congruence.
Qed.

Lemma Prev_false_begin t it it' :
  Prev Comparator t it = Some (false, it') → it' = mkIterator None pos_begin.
Proof.
  unfold Prev. set (fu := fuel_of t). clearbody fu. destruct (pos it); simpl.
  - congruence.
  - destruct (deref t (node it)) as [n|]; simpl; [|done].
    destruct (Left n).
    + destruct (Prev_down fu t _); simpl; congruence.
    + destruct (Parent n); [|congruence].
      destruct (Prev_up _ fu t _ _) as [[q|]|]; simpl; congruence.
  - destruct (Right_ t) as [[p|]|]; simpl; congruence.
Qed.

End Traversal.

(** * The keys through the operations *)

Section KeySets.
Context {K V : Type}.
Variable Comparator : K → K → Z.
Variable zeroV : V.
Context `{!ComparatorOrder Comparator}.
Implicit Types (s T : @ptree K V) (C : list (@frame K V)) (e : nat * K * V) (t : Tree K V)
  (L : list (nat * K * V)).

Lemma keys_kvs T : keys T = (kvs T).*1.
Proof. unfold keys, kvs. rewrite <- list_fmap_compose. done. Qed.

Lemma kvs_inorder T k v : (k, v) ∈ kvs T ↔ ∃ p, (p, k, v) ∈ inorder T.
Proof.
  unfold kvs. rewrite list_elem_of_fmap. split.
  - intros ([[p k'] v'] & [= -> ->] & Hin). eauto.
  - intros (p & Hin). by exists (p, k, v).
Qed.

Lemma keys_elem T k : k ∈ keys T ↔ ∃ v, (k, v) ∈ kvs T.
Proof.
  rewrite keys_kvs, list_elem_of_fmap. split.
  - intros ([k' v] & -> & Hin). eauto.
  - intros (v & Hin). by exists (k, v).
Qed.

Lemma sorted_keys_NoDup T : bst Comparator T → NoDup (keys T).
Proof.
  intros Hb%bst_sorted; [|done]. unfold sorted_entries in Hb. unfold keys.
  induction Hb as [|x l _ IH Hall]; constructor; [|done].
  intros Hin. rewrite Forall_forall in Hall. by apply Hall, klt_irrefl in Hin.
Qed.

(** In a tree a key has one value. *)
Lemma kvs_functional T k v1 v2 :
  bst Comparator T → (k, v1) ∈ kvs T → (k, v2) ∈ kvs T → v1 = v2.
Proof.
  intros Hb (p1 & H1)%kvs_inorder (p2 & H2)%kvs_inorder.
  apply bst_sorted in Hb; [|done].
  by pose proof (sorted_entries_unique Comparator _ _ _ Hb H1 H2 eq_refl) as [= _ ->].
Qed.

(** [Get], from the entries of the tree. *)
Lemma Get_kvs_in key v t T :
  shape T t → bst Comparator T → (key, v) ∈ kvs T →
  Get Comparator zeroV t key = Some (v, true).
Proof. intros Hs Hb (p & Hin)%kvs_inorder. by eapply Get_in. Qed.

Lemma kvs_delete_other T T' A B key v k' v' :
  bst Comparator T → kvs T = A ++ (key, v) :: B → kvs T' = A ++ B → k' ≠ key →
  (k', v') ∈ kvs T ↔ (k', v') ∈ kvs T'.
Proof. intros _ -> -> Hne. set_solver. Qed.

Lemma keys_delete T T' A B key v k' :
  bst Comparator T → kvs T = A ++ (key, v) :: B → kvs T' = A ++ B →
  k' ∈ keys T' ↔ k' ∈ keys T ∧ k' ≠ key.
Proof.
  intros Hb HT HT'. pose proof (sorted_keys_NoDup T Hb) as HND.
  rewrite !keys_kvs in *. rewrite HT in *. rewrite HT'.
  rewrite fmap_app, fmap_cons in *. simpl in *.
  apply NoDup_app in HND as (_ & HA & (HB & _)%NoDup_cons).
  split.
  - intros Hin. split; [set_solver|]. intros ->.
    apply elem_of_app in Hin as [Hin|Hin]; [|done]. apply (HA _ Hin). set_solver.
  - set_solver.
Qed.

Lemma keys_insert T T' A B key v k' :
  kvs T = A ++ B → kvs T' = A ++ (key, v) :: B →
  k' ∈ keys T' ↔ k' = key ∨ k' ∈ keys T.
Proof.
  intros HT HT'. rewrite !keys_kvs, HT, HT', !fmap_app, fmap_cons. simpl. set_solver.
Qed.

Lemma keys_overwrite T T' A B key v0 v k' :
  kvs T = A ++ (key, v0) :: B → kvs T' = A ++ (key, v) :: B →
  k' ∈ keys T' ↔ k' ∈ keys T.
Proof.
  intros HT HT'. rewrite !keys_kvs, HT, HT', !fmap_app, !fmap_cons. simpl. done.
Qed.

Lemma keys_empty_leaf T : (∀ k, k ∉ keys T) → T = PLeaf.
Proof.
  destruct T as [|p c l k v r]; [done|]. intros H. exfalso. apply (H k).
  unfold keys. simpl. rewrite fmap_app, fmap_cons. set_solver.
Qed.

(** After a list of puts, the keys of the tree are those it had and those
    put. *)
Lemma run_puts_keys (puts : list (K * V)) : ∀ t T,
  wf Comparator t T →
  ∃ t' T', run_ops Comparator (uncurry OpPut <$> puts) t = Some (tt, t') ∧ wf Comparator t' T'
    ∧ ∀ k, k ∈ keys T' ↔ k ∈ puts.*1 ∨ k ∈ keys T.
Proof.
  induction puts as [|[key value] puts IH]; intros t T Hwf; simpl.
  - exists t, T. split; [done|]. split; [done|]. set_solver.
  - destruct (wf_Put Comparator key value t T Hwf) as (t1 & T1 & HP & Hwf1 & Hcase).
    destruct (IH t1 T1 Hwf1) as (t2 & T2 & HR & Hwf2 & Hkeys).
    exists t2, T2. split; [unfold bind; by rewrite HP|]. split; [done|].
    intros k. rewrite Hkeys.
    destruct Hcase as [(A & v0 & B & HT & HT1 & _)|(_ & A & B & HT & HT1 & _)].
    + rewrite (keys_overwrite T T1 A B key v0 value k HT HT1).
      assert (key ∈ keys T).
      { rewrite keys_kvs, HT, fmap_app, fmap_cons. set_solver. }
      set_solver.
    + rewrite (keys_insert T T1 A B key value k HT HT1). set_solver.
Qed.

(** After a list of removes, the keys of the tree are those it had, less
    those removed. *)
Lemma run_removes_keys (rs : list K) : ∀ t T,
  wf Comparator t T →
  ∃ t' T', run_ops Comparator (OpRemove <$> rs) t = Some (tt, t') ∧ wf Comparator t' T'
    ∧ ∀ k, k ∈ keys T' ↔ k ∈ keys T ∧ k ∉ rs.
Proof.
  induction rs as [|key rs IH]; intros t T Hwf; simpl.
  - exists t, T. split; [done|]. split; [done|]. set_solver.
  - destruct (wf_Remove Comparator key t T Hwf) as (t1 & T1 & HP & Hwf1 & Hcase).
    destruct (IH t1 T1 Hwf1) as (t2 & T2 & HR & Hwf2 & Hkeys).
    exists t2, T2. split; [unfold bind; by rewrite HP|]. split; [done|].
    intros k. rewrite Hkeys.
    destruct Hcase as [(Hnin & -> & ->)|(A & v & B & HT & HT1 & _)].
    + rewrite not_elem_of_cons. split; [|tauto].
      intros [H1 H2]. split_and!; [done| |done]. by intros ->.
    + destruct Hwf as (_ & _ & Hb).
      rewrite (keys_delete T T1 A B key v k Hb HT HT1), not_elem_of_cons. tauto.
Qed.

Lemma run_ops_app (os1 os2 : list (op K V)) t t1 :
  run_ops Comparator os1 t = Some (tt, t1) →
  run_ops Comparator (os1 ++ os2) t = run_ops Comparator os2 t1.
Proof.
  revert t; induction os1 as [|o os1 IH]; intros t; simpl.
  - unfold ret. by intros [= ->].
  - unfold bind. destruct (run_op Comparator o t) as [[[] t0]|]; [|done]. apply IH.
Qed.

Lemma wf_empty t T : wf Comparator t T → (∀ k, k ∉ keys T) → size t = 0%Z ∧ Root t = None.
Proof.
  intros ((Hs & Hsz) & _) ->%keys_empty_leaf. destruct Hs as (HR & _). done.
Qed.

End KeySets.

(** * The operations on a well-formed tree *)

Section Summary.
Context {K V : Type}.
Variable Comparator : K → K → Z.
Variable zeroK : K.
Variable zeroV : V.
Context `{!ComparatorOrder Comparator}.
Implicit Types (s T : @ptree K V) (C : list (@frame K V)) (e : nat * K * V) (t : Tree K V)
  (L : list (nat * K * V)).

(** Every state built from the empty tree by the operations is well
    formed. *)
Lemma wf_built os t :
  run_ops Comparator os NewWith = Some (tt, t) → wf Comparator t (tree_of t).
Proof.
  intros Hrun.
  destruct (wf_run_ops Comparator os NewWith PLeaf (wf_NewWith Comparator))
    as (t' & T' & Hrun' & Hwf).
  rewrite Hrun in Hrun'. injection Hrun' as <-.
  destruct Hwf as ((Hs & Hsz) & Hrest). by rewrite (shape_tree_of _ _ Hs).
Qed.

(** [Remove] of a key of the tree, in full. *)
Lemma Remove_in key t T :
  wf Comparator t T → key ∈ keys T →
  ∃ t' T', Remove Comparator key t = Some (tt, t') ∧ wf Comparator t' T'
    ∧ size t' = (size t - 1)%Z
    ∧ (∃ A v B, kvs T = A ++ (key, v) :: B ∧ kvs T' = A ++ B)
    ∧ (∀ p n lp rp,
         lookup Comparator t key = Some (Some p) → store t !! p = Some n →
         Left n = Some lp → Right n = Some rp →
         ∃ q nq n',
           maximumNode t (Left n) = Some (Some q)
           ∧ store t !! q = Some nq ∧ store t' !! p = Some n'
           ∧ Key n' = Key nq ∧ Value n' = Value nq
           ∧ ptrs T ≡ₚ q :: ptrs T' ∧ p ∈ ptrs T' ∧ q ∉ ptrs T').
Proof.
  intros (Hr & Hrb & Hb) Hin.
  destruct (a_find Comparator key [] T) as [C s] eqn:Hf.
  destruct s as [|p c l k v r].
  { exfalso. by eapply a_find_leaf_notin. }
  destruct (Remove_present Comparator key t T C p c l k v r Hr Hrb Hf)
    as (t' & T' & HR & Hr' & Hrb' & Hsz & Hcase).
  pose proof (lookup_spec Comparator key t T (proj1 Hr)) as Hlook.
  rewrite Hf in Hlook. simpl in Hlook.
  pose proof (a_find_plug Comparator key [] T) as Hplug. rewrite Hf in Hplug. simpl in Hplug.
  change (plug [] T) with T in Hplug.
  assert (shape (plug C (PNode p c l k v r)) t) as Hs0 by (rewrite Hplug; apply Hr).
  pose proof (shape_lookup _ _ _ _ _ _ _ _ Hs0) as Hcell.
  apply a_find_found in Hf as ->; [|done].
  pose proof Hb as Hsort. apply bst_sorted in Hsort; [|done].
  exists t', T'. split; [done|].
  destruct Hcase as [(Hleaf & L1 & L2 & HT & HT')
                    |(Hl & Hrn & L1 & L2 & q & kq & vq & Hmax & HT & HT')].
  - split_and!; [| done | |].
    + split; [done|]. split; [done|]. apply bst_sorted; [done|].
      rewrite HT'. rewrite HT in Hsort. by eapply (sorted_entries_delete Comparator).
    + exists ((λ e, (e.1.2, e.2)) <$> L1), v, ((λ e, (e.1.2, e.2)) <$> L2).
      unfold kvs. rewrite HT, HT', !kvs_app. done.
    + intros p' n lp rp Hl' Hn HL HR'. rewrite Hlook in Hl'. injection Hl' as <-.
      rewrite Hcell in Hn. injection Hn as <-. simpl in HL, HR'.
      destruct Hleaf as [->| ->]; done.
  - assert (bst Comparator T') as Hb'.
    { apply bst_sorted; [done|]. rewrite HT'. rewrite HT in Hsort.
      apply (sorted_entries_repoint Comparator) with (q := q).
      rewrite (cons_middle (q, kq, vq) L1), (assoc_L (++)) in Hsort.
      apply (sorted_entries_delete Comparator) in Hsort.
      by rewrite (cons_middle (q, kq, vq) L1), (assoc_L (++)). }
    split_and!; [done|done| |].
    + exists (((λ e, (e.1.2, e.2)) <$> L1) ++ [(kq, vq)]), v, ((λ e, (e.1.2, e.2)) <$> L2).
      unfold kvs. rewrite HT, HT', !kvs_app. simpl. rewrite <- !app_assoc. done.
    + intros p' n lp rp Hl' Hn HL HR'. rewrite Hlook in Hl'. injection Hl' as <-.
      rewrite Hcell in Hn. injection Hn as <-. simpl.
      destruct (shape_entry T t q kq vq (proj1 Hr)) as (nq & Hnq & Hkq & Hvq).
      { rewrite HT. set_solver. }
      destruct (shape_entry T' t' p kq vq (proj1 Hr')) as (n' & Hn' & Hk' & Hv').
      { rewrite HT'. set_solver. }
      assert (ptrs T ≡ₚ q :: ptrs T') as Hperm.
      { rewrite !ptrs_inorder_perm, HT, HT', !fmap_app, !fmap_cons.
        unfold entry_ptr. simpl. solve_Permutation. }
      exists q, nq, n'. split_and!; try done; try congruence.
      * rewrite ptrs_inorder_perm, HT'. apply list_elem_of_fmap. exists (p, kq, vq).
        split; [done|]. set_solver.
      * destruct Hr as ((_ & HND & _) & _). rewrite Hperm in HND.
        by apply NoDup_cons in HND as [? _].
Qed.

(** [Put] of a key of the tree: the node is overwritten where it is. *)
Lemma Put_in key value v0 t T :
  wf Comparator t T → (key, v0) ∈ kvs T →
  ∃ p n t',
    reachable t p ∧ store t !! p = Some n ∧ Key n = key ∧ Value n = v0
    ∧ Put Comparator key value t = Some (tt, t')
    ∧ t' = mkTree (Root t) (size t) (<[p := set_Value value n]> (store t))
    ∧ Get Comparator zeroV t' key = Some (value, true).
Proof.
  intros (Hr & Hrb & Hb) Hin.
  destruct (Put_spec Comparator key value t T Hr Hrb Hb)
    as (t' & T' & HP & Hr' & Hrb' & Hb' & Hcase).
  destruct Hcase as [(l1 & p & v1 & l2 & n & HT & HT' & Hn & Ht')|(Hnin & _)]; cycle 1.
  { exfalso. apply Hnin. apply keys_elem. eauto. }
  assert ((key, v1) ∈ kvs T) as Hin1.
  { apply kvs_inorder. exists p. rewrite HT. set_solver. }
  pose proof (kvs_functional Comparator T key v0 v1 Hb Hin Hin1) as <-.
  destruct (shape_entry T t p key v0 (proj1 Hr)) as (n0 & Hn0 & Hk & Hv).
  { rewrite HT. set_solver. }
  rewrite Hn in Hn0. injection Hn0 as <-.
  assert (set_Value value (set_Key key n) = set_Value value n) as Heq.
  { destruct n; simpl in *. by subst. }
  rewrite Heq in Ht'.
  exists p, n, t'. split_and!; try done.
  - apply (reachable_ptrs t T p (proj1 Hr)). rewrite ptrs_inorder_perm, HT.
    apply list_elem_of_fmap. exists (p, key, v0). split; [done|]. set_solver.
  - apply (Get_kvs_in Comparator zeroV key value t' T'); [apply Hr'|done|].
    apply kvs_inorder. exists p. rewrite HT'. set_solver.
Qed.

End Summary.

(** * The comparator of integers *)

(** Modelled from the spec: the comparator is an externally supplied total
    order on the keys.  [IntComparator] is the three-way comparison of
    integers that [NewWithIntComparator] installs; its code, in package
    [utils], is not among the sources. *)
Definition IntComparator (a b : Z) : Z :=
  if (a >? b)%Z then 1%Z else if (a <? b)%Z then (-1)%Z else 0%Z.

#[global] Instance IntComparator_order : ComparatorOrder IntComparator.
Proof.
  split; unfold IntComparator.
  - intros a b. destruct (Z.gtb_spec a b), (Z.ltb_spec a b); split; (lia || done).
  - intros a b. destruct (Z.gtb_spec a b), (Z.ltb_spec a b), (Z.gtb_spec b a), (Z.ltb_spec b a); lia.
  - intros a b c.
    destruct (Z.gtb_spec a b), (Z.ltb_spec a b), (Z.gtb_spec b c), (Z.ltb_spec b c),
      (Z.gtb_spec a c), (Z.ltb_spec a c); lia.
Qed.

(** * The properties of the specification *)

(** A tree of four entries, for the examples. *)
Definition sample_ops : list (op Z string) :=
  [OpPut 10%Z "a"; OpPut 20%Z "b"; OpPut 5%Z "c"; OpPut 15%Z "d"].

Definition sample : Tree Z string :=
  Eval vm_compute in
    match run_ops IntComparator sample_ops NewWith with
    | Some (_, t) => t
    | None => NewWith
    end.

Section Properties.
Context {K V : Type}.
Variable Comparator : K → K → Z.
Variable zeroK : K.
Variable zeroV : V.
Context `{!ComparatorOrder Comparator}.
Implicit Types (s T : @ptree K V) (C : list (@frame K V)) (e : nat * K * V) (t : Tree K V)
  (L : list (nat * K * V)).

(** Claim C1.  Every sequence of [Put] and [Remove] operations (and of
    [Clear]) on the empty tree runs to its end, and the state it leaves is a
    tree of cells in which: every node's key is above all the keys of its
    left subtree and below all those of its right subtree; the root is
    black; no red node has a red child; and below any node, all the paths
    to a nil link go through the same number of black nodes. *)
Theorem invariants_preserved (os : list (op K V)) :
  ∃ t T, run_ops Comparator os NewWith = Some (tt, t) ∧ represents t T
    ∧ bst Comparator T
    ∧ rootc T = black
    ∧ (∀ p l k v r, subtree (PNode p red l k v r) T → rootc l = black ∧ rootc r = black)
    ∧ (∀ s m1 m2, subtree s T → m1 ∈ black_counts s → m2 ∈ black_counts s → m1 = m2).
Proof.
  destruct (wf_run_ops Comparator os NewWith PLeaf (wf_NewWith Comparator))
    as (t & T & Hrun & Hr & Hrb & Hb).
  exists t, T. split_and!; [done|done|done|apply Hrb|..].
  - intros p l k v r Hsub. by eapply rbtree_red_children.
  - intros s m1 m2 Hsub H1 H2. by eapply rbtree_paths.
Qed.

(** Claim C2.  After every sequence of [Put], [Remove] and [Clear]
    operations on the empty tree, [Size] is the number of nodes reachable
    from the root, and it is the number of nodes that a full traversal with
    the iterator visits.  (The queries take the state and return no new
    one: they leave the size and the nodes as they are.) *)
Theorem size_counts_nodes (os : list (op K V)) :
  ∃ t nodes, run_ops Comparator os NewWith = Some (tt, t)
    ∧ NoDup nodes ∧ (∀ p, reachable t p ↔ p ∈ nodes)
    ∧ Size t = Z.of_nat (length nodes)
    ∧ traversal_count Comparator t = Some (length nodes).
Proof.
  destruct (wf_run_ops Comparator os NewWith PLeaf (wf_NewWith Comparator))
    as (t & T & Hrun & (Hs & Hsz) & Hrb & Hb).
  exists t, (ptrs T). split_and!; [done|apply Hs| |done|].
  - intros p. by apply reachable_ptrs.
  - by apply traversal_count_spec.
Qed.

(** Claim C3.  [Remove] of a key that is in the tree: the keys afterwards
    are the keys before less the removed one, the size is one smaller, and
    every other key still has its value.  When the node of the key has two
    children, that node stays in the tree and takes the key and the value of
    its predecessor, the maximum of its left subtree, and the node of the
    predecessor is the one that leaves the tree. *)
Theorem Remove_present_key key t T :
  wf Comparator t T → key ∈ keys T →
  ∃ t' T', Remove Comparator key t = Some (tt, t') ∧ wf Comparator t' T'
    ∧ (∀ k, k ∈ keys T' ↔ k ∈ keys T ∧ k ≠ key)
    ∧ Size t' = (Size t - 1)%Z
    ∧ (∀ k, k ≠ key → Get Comparator zeroV t' k = Get Comparator zeroV t k)
    ∧ (∀ p n lp rp,
         lookup Comparator t key = Some (Some p) → store t !! p = Some n →
         Left n = Some lp → Right n = Some rp →
         ∃ q nq n',
           maximumNode t (Left n) = Some (Some q)
           ∧ store t !! q = Some nq ∧ store t' !! p = Some n'
           ∧ Key n' = Key nq ∧ Value n' = Value nq
           ∧ ptrs T ≡ₚ q :: ptrs T' ∧ p ∈ ptrs T' ∧ q ∉ ptrs T').
Proof.
  intros Hwf Hin.
  destruct (Remove_in Comparator key t T Hwf Hin)
    as (t' & T' & HR & Hwf' & Hsz & (A & v & B & HT & HT') & Hptr).
  exists t', T'. split_and!; [done|done| |done| |done].
  - intros k. apply (keys_delete Comparator T T' A B key v k); [apply Hwf|done..].
  - intros k Hne.
    destruct Hwf as ((Hs & _) & _ & Hb). destruct Hwf' as ((Hs' & _) & _ & Hb').
    destruct (a_find Comparator k [] T) as [C s] eqn:Hf. destruct s as [|q c l k0 v0 r].
    + pose proof (a_find_leaf_notin Comparator k T C Hb Hf) as Hnin.
      rewrite (Get_notin Comparator zeroV k t T Hs Hnin).
      apply (Get_notin Comparator zeroV k t' T' Hs').
      rewrite (keys_delete Comparator T T' A B key v k Hb HT HT'). tauto.
    + destruct (a_find_node_in Comparator _ _ _ _ _ _ _ _ _ Hf) as [-> Hin0].
      assert ((k, v0) ∈ kvs T) as Hkv by (apply kvs_inorder; eauto).
      rewrite (Get_kvs_in Comparator zeroV k v0 t T Hs Hb Hkv).
      apply (Get_kvs_in Comparator zeroV k v0 t' T' Hs' Hb').
      by apply (kvs_delete_other Comparator T T' A B key v k v0 Hb HT HT' Hne).
Qed.

(** Claim C4.  [Remove] of a key that is not in the tree changes nothing:
    the state afterwards is the state before, with its size, its root and
    every cell of every node. *)
Theorem Remove_absent_key key t T :
  wf Comparator t T → key ∉ keys T → Remove Comparator key t = Some (tt, t).
Proof.
  intros ((Hs & _) & _ & Hb) Hnin.
  destruct (a_find Comparator key [] T) as [C s] eqn:Hf. destruct s as [|q c l k0 v0 r].
  - by eapply Remove_absent.
  - destruct (a_find_node_in Comparator _ _ _ _ _ _ _ _ _ Hf) as [-> Hin0].
    exfalso. apply Hnin. unfold keys. apply list_elem_of_fmap. by exists (q, key, v0).
Qed.

(** Claim C5.  [Put] of a key that is in the tree writes the value into the
    node of the key and changes nothing else: the root, the size, the other
    nodes, the colour and the links of the node stay, and [Get] of the key
    then returns the new value.  On the empty tree, [Put] of key 2 with
    "x" and then with any [y] leaves a tree of size 1 where [Get] of 2
    returns [y]. *)
Theorem Put_existing_key key value v0 t T :
  wf Comparator t T → (key, v0) ∈ kvs T →
  (∃ p n t',
      reachable t p ∧ store t !! p = Some n ∧ Key n = key ∧ Value n = v0
      ∧ Put Comparator key value t = Some (tt, t')
      ∧ t' = mkTree (Root t) (size t) (<[p := set_Value value n]> (store t))
      ∧ Size t' = Size t
      ∧ Get Comparator zeroV t' key = Some (value, true))
  ∧ (∀ y : string,
       ∃ u : Tree Z string,
         run_ops IntComparator [OpPut 2%Z "x"; OpPut 2%Z y] NewWith = Some (tt, u)
         ∧ Size u = 1%Z ∧ Get IntComparator "" u 2%Z = Some (y, true)).
Proof.
  intros Hwf Hin. split.
  - destruct (Put_in Comparator zeroV key value v0 t T Hwf Hin)
      as (p & n & t' & H1 & H2 & H3 & H4 & H5 & H6 & H7).
    exists p, n, t'. split_and!; try done. by subst t'.
  - intros y. eexists. split; [vm_compute; reflexivity|]. split; vm_compute; reflexivity.
Qed.

(** Claim C6.  [Floor] returns, with found = true, the node of the largest
    key of the tree that is not above the given key, and found = false
    exactly when every key of the tree is above it; [Ceiling] returns the
    node of the smallest key that is not below the given key, and
    found = false exactly when every key is below it.  After [Put] of 10,
    20, 5 and 15, the floor of 12 is the node of key 10 and its ceiling the
    node of key 15. *)
Theorem Floor_Ceiling_correct key t T :
  wf Comparator t T →
  (∃ res found, Floor Comparator t key = Some (res, found)
     ∧ (found = false ↔ ∀ k, k ∈ keys T → ¬ kle Comparator k key)
     ∧ if found
       then ∃ e n, res = Some (entry_ptr e) ∧ store t !! entry_ptr e = Some n
              ∧ Key n = entry_key e ∧ is_floor Comparator key (inorder T) e
       else res = None)
  ∧ (∃ res found, Ceiling Comparator t key = Some (res, found)
     ∧ (found = false ↔ ∀ k, k ∈ keys T → ¬ kle Comparator key k)
     ∧ if found
       then ∃ e n, res = Some (entry_ptr e) ∧ store t !! entry_ptr e = Some n
              ∧ Key n = entry_key e ∧ is_ceiling Comparator key (inorder T) e
       else res = None)
  ∧ (∀ v1 v2 v3 v4 : V,
       ∃ (u : Tree Z V) f nf g ng,
         run_ops IntComparator [OpPut 10%Z v1; OpPut 20%Z v2; OpPut 5%Z v3; OpPut 15%Z v4]
           NewWith = Some (tt, u)
         ∧ Floor IntComparator u 12%Z = Some (Some f, true)
         ∧ store u !! f = Some nf ∧ Key nf = 10%Z
         ∧ Ceiling IntComparator u 12%Z = Some (Some g, true)
         ∧ store u !! g = Some ng ∧ Key ng = 15%Z).
Proof.
  intros ((Hs & _) & _ & Hb). split_and!.
  - rewrite (Floor_spec Comparator key t T Hs).
    pose proof (a_floor_correct Comparator key T Hb) as Hc.
    destruct (a_floor Comparator key T) as [[p|] []]; try done.
    + destruct Hc as ([[p' k] v] & <- & Hfl).
      exists (Some p'), true. split; [done|]. split.
      * split; [done|]. intros Hall. exfalso. destruct Hfl as (Hin & Hle & _).
        apply (Hall k); [|done]. unfold keys. apply list_elem_of_fmap. by exists (p', k, v).
      * destruct (shape_entry T t p' k v Hs) as (n & Hn & Hk & _); [apply Hfl|].
        exists (p', k, v), n. done.
    + exists None, false. split; [done|]. split; [|done]. split; [|done].
      intros _ k (e & -> & Hin)%list_elem_of_fmap Hle.
      eapply (kle_not_gt Comparator); [exact Hle|]. by apply Hc.
  - rewrite (Ceiling_spec Comparator key t T Hs).
    pose proof (a_ceiling_correct Comparator key T Hb) as Hc.
    destruct (a_ceiling Comparator key T) as [[p|] []]; try done.
    + destruct Hc as ([[p' k] v] & <- & Hfl).
      exists (Some p'), true. split; [done|]. split.
      * split; [done|]. intros Hall. exfalso. destruct Hfl as (Hin & Hle & _).
        apply (Hall k); [|done]. unfold keys. apply list_elem_of_fmap. by exists (p', k, v).
      * destruct (shape_entry T t p' k v Hs) as (n & Hn & Hk & _); [apply Hfl|].
        exists (p', k, v), n. done.
    + exists None, false. split; [done|]. split; [|done]. split; [|done].
      intros _ k (e & -> & Hin)%list_elem_of_fmap Hle.
      eapply (kle_not_gt Comparator); [exact Hle|]. by apply Hc.
  - intros v1 v2 v3 v4. do 5 eexists.
    split; [vm_compute; reflexivity|].
    split; [vm_compute; reflexivity|].
    split; [vm_compute; reflexivity|].
    split; [reflexivity|].
    split; [vm_compute; reflexivity|].
    split; [vm_compute; reflexivity|reflexivity].
Qed.

(** Claim C7.  [Keys] returns the keys in strictly increasing order of the
    comparator, as many as [Size] says, and they are the keys of the
    reachable nodes. *)
Theorem Keys_increasing t T :
  wf Comparator t T →
  ∃ ks, Keys Comparator zeroK t = Some ks
    ∧ StronglySorted (klt Comparator) ks
    ∧ Z.of_nat (length ks) = Size t
    ∧ ∀ k, k ∈ ks ↔ ∃ p n, reachable t p ∧ store t !! p = Some n ∧ Key n = k.
Proof.
  intros (Hr & _ & Hb). exists (keys T). split_and!.
  - by apply Keys_spec.
  - by apply (bst_sorted Comparator T).
  - unfold Size. destruct Hr as [_ ->]. unfold keys. by rewrite length_fmap, length_ptrs_inorder.
  - intros k. apply keys_reachable, Hr.
Qed.

(** Claim C8.  Once [Next] has returned false the iterator is past the end,
    and there every further [Next] returns false and leaves it where it is.
    [Prev] from there moves to the node of the largest key and returns
    true; on the empty tree, which has no such node, it returns false.
    [Begin], [End], [First] and [Last] reposition the iterator, from the
    exhausted position as from any other: [Begin] puts it before the first
    entry, which is another position than the exhausted one, and [Next]
    from there moves to the node of the smallest key; [End] puts it past
    the end; [First] is [Begin] and [Next], and lands on the node of the
    smallest key; [Last] is [End] and [Prev], and lands on the node of the
    largest key.  On the tree of keys 1, 2, 3, a fresh iterator yields 1, 2,
    3 on three calls of [Next], false on the fourth, and then 3, 2, 1 on
    three calls of [Prev]; the exhausted iterator yields false on [Next]
    again and again, 1 on [Next] after [Begin], 1 on [First], 3 on [Last],
    and [End] from a node gives false on [Next] and 3 on [Prev]. *)
Theorem Next_stays_exhausted t T :
  wf Comparator t T →
  (∀ it it',
     Next Comparator t it = Some (false, it') →
     pos it' = pos_end
     ∧ Next Comparator t it' = Some (false, it')
     ∧ match last (inorder T) with
       | Some e =>
           Prev Comparator t it' = Some (true, IteratorAt (Some (entry_ptr e)))
           ∧ Iterator_Key t (IteratorAt (Some (entry_ptr e))) = Some (entry_key e)
           ∧ ∀ k, k ∈ keys T → kle Comparator k (entry_key e)
       | None =>
           Root t = None ∧ Prev Comparator t it' = Some (false, mkIterator None pos_begin)
       end
     ∧ Begin it' = mkIterator None pos_begin ∧ Begin it' ≠ it'
     ∧ (∀ it0, Begin it0 = Begin it' ∧ End_ it0 = it'
               ∧ First Comparator t it0 = Next Comparator t (Begin it')
               ∧ Last Comparator t it0 = Prev Comparator t it')
     ∧ match head (inorder T) with
       | Some e =>
           Next Comparator t (Begin it') = Some (true, IteratorAt (Some (entry_ptr e)))
           ∧ First Comparator t it' = Some (true, IteratorAt (Some (entry_ptr e)))
           ∧ Iterator_Key t (IteratorAt (Some (entry_ptr e))) = Some (entry_key e)
           ∧ ∀ k, k ∈ keys T → kle Comparator (entry_key e) k
       | None =>
           Next Comparator t (Begin it') = Some (false, it')
           ∧ First Comparator t it' = Some (false, it')
           ∧ Last Comparator t it' = Some (false, Begin it')
       end)
  ∧ (∀ v1 v2 v3 : V,
       ∃ u : Tree Z V,
         run_ops IntComparator [OpPut 1%Z v1; OpPut 2%Z v2; OpPut 3%Z v3] NewWith
           = Some (tt, u)
         ∧ observe IntComparator u Iterator_ [MNext; MNext; MNext; MNext; MPrev; MPrev; MPrev]
           = Some [Some 1%Z; Some 2%Z; Some 3%Z; None; Some 3%Z; Some 2%Z; Some 1%Z]
         ∧ observe IntComparator u (mkIterator None pos_end) [MNext; MNext]
           = Some [None; None]
         ∧ observe IntComparator u (Begin (mkIterator None pos_end)) [MNext]
           = Some [Some 1%Z]
         ∧ observe IntComparator u (End_ (IteratorAt (Some 0))) [MNext; MPrev]
           = Some [None; Some 3%Z]
         ∧ (∃ i1, First IntComparator u (mkIterator None pos_end) = Some (true, i1)
              ∧ Iterator_Key u i1 = Some 1%Z)
         ∧ (∃ i3, Last IntComparator u (mkIterator None pos_end) = Some (true, i3)
              ∧ Iterator_Key u i3 = Some 3%Z)).
Proof.
  intros ((Hs & _) & _ & Hb). split.
  - intros it it' ->%Next_false_end. split; [done|]. split; [done|].
    rewrite (Prev_end Comparator t T None Hs). split.
    { destruct (last (inorder T)) as [e|] eqn:Hl; simpl.
      + apply last_Some_snoc in Hl as [L HL]. split; [done|]. split.
        * apply (Iterator_Key_entry t T e Hs). rewrite HL. set_solver.
        * intros k (e' & -> & Hin)%list_elem_of_fmap.
          apply bst_sorted in Hb; [|done]. rewrite HL in Hb, Hin.
          by eapply sorted_snoc_le.
      + apply last_None_nil in Hl.
        destruct T as [|? ? l ? ? r]; [|simpl in Hl; by destruct (inorder l)].
        split; [apply Hs|done]. }
    split; [done|]. split; [done|]. split.
    { intros it0. unfold First, Last, Begin, End_.
      by rewrite (Prev_end Comparator t T None Hs). }
    unfold First, Last. change (End_ (mkIterator None pos_end)) with (mkIterator None pos_end).
    rewrite (Prev_end Comparator t T None Hs).
    change (Begin (mkIterator None pos_end)) with (mkIterator None pos_begin).
    rewrite (Next_begin Comparator t T None Hs).
    destruct (inorder T) as [|e L] eqn:HL; simpl; [done|].
    split; [done|]. split; [done|]. split.
    + apply (Iterator_Key_entry t T e Hs). rewrite HL. set_solver.
    + intros k (e' & -> & Hin)%list_elem_of_fmap.
      apply bst_sorted in Hb; [|done]. rewrite HL in Hb, Hin.
      apply sorted_entries_cons in Hb as [Hlt _].
      apply elem_of_cons in Hin as [->|Hin]; [apply kle_refl; done|].
      by apply klt_kle, Hlt.
  - intros v1 v2 v3. eexists. split_and!; try (vm_compute; reflexivity).
    + eexists. split; vm_compute; reflexivity.
    + eexists. split; vm_compute; reflexivity.
Qed.

(** Claim C9.  [Put] of N entries with distinct keys, in any order, and then
    [Remove] of each of these keys, in any order, leaves the empty tree:
    the size is 0 and the root is nil. *)
Theorem put_all_remove_all (puts : list (K * V)) (rs : list K) :
  NoDup puts.*1 → rs ≡ₚ puts.*1 →
  ∃ t, run_ops Comparator ((uncurry OpPut <$> puts) ++ (OpRemove <$> rs)) NewWith
       = Some (tt, t)
    ∧ Size t = 0%Z ∧ Root t = None.
Proof.
  intros _ Hperm.
  destruct (run_puts_keys Comparator puts NewWith PLeaf (wf_NewWith Comparator))
    as (t1 & T1 & Hrun1 & Hwf1 & Hk1).
  destruct (run_removes_keys Comparator rs t1 T1 Hwf1) as (t2 & T2 & Hrun2 & Hwf2 & Hk2).
  exists t2. rewrite (run_ops_app Comparator _ _ _ _ Hrun1). split; [done|].
  apply (wf_empty Comparator t2 T2 Hwf2).
  intros k [Hin Hnin]%Hk2. apply Hnin. rewrite Hperm.
  apply Hk1 in Hin as [Hin|Hin]; [done|]. unfold keys in Hin. simpl in Hin.
  by apply elem_of_nil in Hin.
Qed.

(** Claim C10.  An iterator made by [IteratorAt] for a reachable node is on
    that node at once: [Key] and [Value] return the key and the value of the
    node with no call of [Next] before.  Its first [Next] moves to the next
    entry in the order of the keys, and returns false when the node holds
    the largest key; its first [Prev] moves to the previous entry, and
    returns false when the node holds the smallest key. *)
Theorem IteratorAt_node t T p :
  wf Comparator t T → reachable t p →
  ∃ L1 k v L2 n,
    inorder T = L1 ++ (p, k, v) :: L2
    ∧ store t !! p = Some n ∧ Key n = k ∧ Value n = v
    ∧ pos (IteratorAt (Some p)) = pos_between ∧ node (IteratorAt (Some p)) = Some p
    ∧ Iterator_Key t (IteratorAt (Some p)) = Some k
    ∧ Iterator_Value t (IteratorAt (Some p)) = Some v
    ∧ Next Comparator t (IteratorAt (Some p)) = Some (landed (head L2) pos_end)
    ∧ Prev Comparator t (IteratorAt (Some p)) = Some (landed (last L1) pos_begin).
Proof.
  intros ((Hs & _) & _ & Hb) Hreach.
  apply (reachable_ptrs t T p Hs) in Hreach.
  destruct (ptr_zipper [] T p Hreach) as (C & c & l & k & v & r & Hp).
  change (plug [] T) with T in Hp.
  assert (inorder T = (ctx_before C ++ inorder l) ++ (p, k, v) :: (inorder r ++ ctx_after C))
    as Hin.
  { rewrite <- Hp, inorder_plug. simpl. by rewrite <- !app_assoc. }
  assert ((p, k, v) ∈ inorder T) as Hel by (rewrite Hin; set_solver).
  destruct (shape_entry T t p k v Hs Hel) as (n & Hn & Hk & Hv).
  exists (ctx_before C ++ inorder l), k, v, (inorder r ++ ctx_after C), n.
  split_and!; try done.
  - apply (Iterator_Key_entry t T (p, k, v) Hs Hel).
  - apply (Iterator_Value_entry t T (p, k, v) Hs Hel).
  - apply (Next_between Comparator t T _ (p, k, v) _ Hs Hb Hin).
  - apply (Prev_between Comparator t T _ (p, k, v) _ Hs Hb Hin).
Qed.

End Properties.

(** * The properties at work, on the sample tree *)

Lemma sample_wf : wf IntComparator sample (tree_of sample).
Proof. exact (wf_built IntComparator sample_ops sample eq_refl). Qed.

Lemma invariants_preserved_witness :
  ∃ t T, run_ops IntComparator sample_ops NewWith = Some (tt, t) ∧ represents t T
    ∧ bst IntComparator T ∧ rootc T = black.
Proof.
  destruct (invariants_preserved IntComparator sample_ops) as (t & T & H1 & H2 & H3 & H4 & _).
  exists t, T. exact (conj H1 (conj H2 (conj H3 H4))).
Defined.

Lemma size_counts_nodes_witness :
  ∃ t nodes, run_ops IntComparator sample_ops NewWith = Some (tt, t)
    ∧ NoDup nodes ∧ (∀ p, reachable t p ↔ p ∈ nodes)
    ∧ Size t = Z.of_nat (length nodes)
    ∧ traversal_count IntComparator t = Some (length nodes).
Proof. exact (size_counts_nodes IntComparator sample_ops). Defined.

Lemma Remove_present_key_witness :
  wf IntComparator sample (tree_of sample) ∧ 10%Z ∈ keys (tree_of sample)
  ∧ ∃ t', Remove IntComparator 10%Z sample = Some (tt, t') ∧ Size t' = 3%Z.
Proof.
  assert (10%Z ∈ keys (tree_of sample)) as Hin by (vm_compute; set_solver).
  destruct (Remove_present_key IntComparator "" 10%Z sample (tree_of sample) sample_wf Hin)
    as (t' & T' & HR & _ & _ & Hsz & _).
  split; [exact sample_wf|]. split; [exact Hin|].
  exists t'. split; [exact HR|]. rewrite Hsz. reflexivity.
Defined.

Lemma Remove_absent_key_witness :
  wf IntComparator sample (tree_of sample) ∧ (7%Z ∉ keys (tree_of sample))
  ∧ Remove IntComparator 7%Z sample = Some (tt, sample).
Proof.
  assert (7%Z ∉ keys (tree_of sample)) as Hin by (vm_compute; set_solver).
  split; [exact sample_wf|]. split; [exact Hin|].
  exact (Remove_absent_key IntComparator 7%Z sample (tree_of sample) sample_wf Hin).
Defined.

Lemma Put_existing_key_witness :
  wf IntComparator sample (tree_of sample) ∧ (10%Z, "a") ∈ kvs (tree_of sample)
  ∧ ∃ t', Put IntComparator 10%Z "z" sample = Some (tt, t') ∧ Size t' = Size sample
      ∧ Get IntComparator "" t' 10%Z = Some ("z", true).
Proof.
  assert ((10%Z, "a") ∈ kvs (tree_of sample)) as Hin by (vm_compute; set_solver).
  destruct (Put_existing_key IntComparator "" 10%Z "z" "a" sample (tree_of sample) sample_wf Hin)
    as ((p & n & t' & _ & _ & _ & _ & HP & _ & Hsz & HG) & _).
  split; [exact sample_wf|]. split; [exact Hin|].
  exists t'. exact (conj HP (conj Hsz HG)).
Defined.

Lemma Floor_Ceiling_correct_witness :
  wf IntComparator sample (tree_of sample)
  ∧ (∃ res found, Floor IntComparator sample 12%Z = Some (res, found)
       ∧ (found = false ↔ ∀ k, k ∈ keys (tree_of sample) → ¬ kle IntComparator k 12%Z))
  ∧ (∃ res found, Ceiling IntComparator sample 12%Z = Some (res, found)
       ∧ (found = false ↔ ∀ k, k ∈ keys (tree_of sample) → ¬ kle IntComparator 12%Z k)).
Proof.
  destruct (Floor_Ceiling_correct IntComparator 12%Z sample (tree_of sample) sample_wf)
    as ((r1 & f1 & H1 & H2 & _) & (r2 & f2 & H3 & H4 & _) & _).
  split; [exact sample_wf|]. split.
  - exists r1, f1. split; assumption.
  - exists r2, f2. split; assumption.
Defined.

Lemma Keys_increasing_witness :
  wf IntComparator sample (tree_of sample)
  ∧ ∃ ks, Keys IntComparator 0%Z sample = Some ks
      ∧ StronglySorted (klt IntComparator) ks ∧ Z.of_nat (length ks) = Size sample.
Proof.
  destruct (Keys_increasing IntComparator 0%Z sample (tree_of sample) sample_wf)
    as (ks & H1 & H2 & H3 & _).
  split; [exact sample_wf|]. exists ks. exact (conj H1 (conj H2 H3)).
Defined.

Lemma Next_stays_exhausted_witness :
  wf IntComparator sample (tree_of sample)
  ∧ Next IntComparator sample (mkIterator None pos_end) = Some (false, mkIterator None pos_end)
  ∧ Next IntComparator sample (mkIterator None pos_end) = Some (false, mkIterator None pos_end)
  ∧ Begin (mkIterator None pos_end) ≠ mkIterator None pos_end
  ∧ First IntComparator sample (IteratorAt (Some 0))
    = Next IntComparator sample (Begin (mkIterator None pos_end))
  ∧ Last IntComparator sample (IteratorAt (Some 0))
    = Prev IntComparator sample (mkIterator None pos_end).
Proof.
  destruct (Next_stays_exhausted IntComparator sample (tree_of sample) sample_wf) as [H _].
  destruct (H (mkIterator None pos_end) (mkIterator None pos_end) eq_refl)
    as (_ & H2 & _ & _ & H3 & H4 & _).
  destruct (H4 (IteratorAt (Some 0))) as (_ & _ & H5 & H6).
  split; [exact sample_wf|]. split; [reflexivity|].
  exact (conj H2 (conj H3 (conj H5 H6))).
Defined.

Lemma put_all_remove_all_witness :
  NoDup [1%Z; 2%Z; 3%Z] ∧ [3%Z; 1%Z; 2%Z] ≡ₚ [1%Z; 2%Z; 3%Z]
  ∧ ∃ t : Tree Z string,
      run_ops IntComparator
        [OpPut 1%Z "a"; OpPut 2%Z "b"; OpPut 3%Z "c"; OpRemove 3%Z; OpRemove 1%Z; OpRemove 2%Z]
        NewWith = Some (tt, t)
      ∧ Size t = 0%Z ∧ Root t = None.
Proof.
  assert (NoDup [1%Z; 2%Z; 3%Z]) as HND by (apply (bool_decide_unpack _); vm_compute; exact I).
  assert ([3%Z; 1%Z; 2%Z] ≡ₚ [1%Z; 2%Z; 3%Z]) as HP by solve_Permutation.
  split; [exact HND|]. split; [exact HP|].
  exact (put_all_remove_all IntComparator [(1%Z, "a"); (2%Z, "b"); (3%Z, "c")]
           [3%Z; 1%Z; 2%Z] HND HP).
Defined.

Lemma IteratorAt_node_witness :
  wf IntComparator sample (tree_of sample) ∧ reachable sample 0
  ∧ ∃ k v, Iterator_Key sample (IteratorAt (Some 0)) = Some k
      ∧ Iterator_Value sample (IteratorAt (Some 0)) = Some v.
Proof.
  assert (reachable sample 0) as Hr by (by apply reachable_root).
  destruct (IteratorAt_node IntComparator sample (tree_of sample) 0 sample_wf Hr)
    as (L1 & k & v & L2 & n & _ & _ & _ & _ & _ & _ & HK & HV & _).
  split; [exact sample_wf|]. split; [exact Hr|]. exists k, v. split; assumption.
Defined.

(** * More on the operations of the tree *)

Section MapView.
Context {K V : Type}.
Variable Comparator : K → K → Z.
Variable zeroK : K.
Variable zeroV : V.
Context `{!ComparatorOrder Comparator}.
Implicit Types (s T : @ptree K V) (C : list (@frame K V)) (e : nat * K * V) (t : Tree K V)
  (L : list (nat * K * V)).

(** [Get] either finds the one value of the key, or the key is not there. *)
Lemma Get_cases key t T :
  shape T t → bst Comparator T →
  (∃ v, (key, v) ∈ kvs T ∧ Get Comparator zeroV t key = Some (v, true))
  ∨ ((key ∉ keys T) ∧ Get Comparator zeroV t key = Some (zeroV, false)).
Proof.
  intros Hs Hb.
  destruct (a_find Comparator key [] T) as [C s] eqn:Hf. destruct s as [|q c l k0 v0 r].
  - right. pose proof (a_find_leaf_notin Comparator key T C Hb Hf) as Hnin.
    split; [done|]. by apply (Get_notin Comparator zeroV key t T Hs).
  - left. destruct (a_find_node_in Comparator _ _ _ _ _ _ _ _ _ Hf) as [-> Hin0].
    assert ((key, v0) ∈ kvs T) as Hkv by (apply kvs_inorder; eauto).
    exists v0. split; [done|]. by apply (Get_kvs_in Comparator zeroV key v0 t T Hs Hb).
Qed.

(** Two trees that hold the same values for a key answer [Get] alike. *)
Lemma Get_agree key t T t' T' :
  shape T t → bst Comparator T → shape T' t' → bst Comparator T' →
  (∀ v, (key, v) ∈ kvs T ↔ (key, v) ∈ kvs T') →
  Get Comparator zeroV t' key = Get Comparator zeroV t key.
Proof.
  intros Hs Hb Hs' Hb' Hiff.
  destruct (Get_cases key t T Hs Hb) as [(v & Hin & ->)|(Hnin & ->)].
  - apply (Get_kvs_in Comparator zeroV key v t' T' Hs' Hb'). by apply Hiff.
  - apply (Get_notin Comparator zeroV key t' T' Hs').
    intros (v & Hin)%keys_elem. apply Hnin, keys_elem. exists v. by apply Hiff.
Qed.

Lemma cmp_eqb key k : (Comparator k key =? 0)%Z = true ↔ k = key.
Proof. rewrite Z.eqb_eq. apply cmp_eq. Qed.

(** X1.  [Get] returns found = true exactly for the keys of the tree, with
    the value stored under the key; for any other key it returns the zero
    value and found = false. *)
Theorem Get_found_iff key t T :
  wf Comparator t T →
  ∃ v found, Get Comparator zeroV t key = Some (v, found)
    ∧ (found = true ↔ key ∈ keys T)
    ∧ (found = true → (key, v) ∈ kvs T
         ∧ ∃ p n, reachable t p ∧ store t !! p = Some n ∧ Key n = key ∧ Value n = v)
    ∧ (found = false → v = zeroV).
Proof.
  intros ((Hs & _) & _ & Hb).
  destruct (Get_cases key t T Hs Hb) as [(v & Hin & ->)|(Hnin & ->)].
  - exists v, true. split; [done|]. split; [|split; [|done]].
    + split; [|done]. intros _. apply keys_elem. eauto.
    + intros _. split; [done|].
      apply kvs_inorder in Hin as (p & Hin).
      destruct (shape_entry T t p key v Hs Hin) as (n & Hn & Hk & Hv).
      exists p, n. split_and!; try done.
      apply (reachable_ptrs t T p Hs). rewrite ptrs_inorder_perm.
      apply list_elem_of_fmap. by exists (p, key, v).
  - exists zeroV, false. split; [done|]. split; [|split; done].
    split; [done|]. intros Hin. done.
Qed.

(** [Get] after [Put]: the key put has the value put, every other key has
    what it had. *)
Lemma Put_Get_view key value t T :
  wf Comparator t T →
  ∃ t' T', Put Comparator key value t = Some (tt, t') ∧ wf Comparator t' T'
    ∧ ∀ k, Get Comparator zeroV t' k
           = if (Comparator k key =? 0)%Z then Some (value, true)
             else Get Comparator zeroV t k.
Proof.
  intros Hwf.
  destruct (wf_Put Comparator key value t T Hwf) as (t' & T' & HP & Hwf' & Hcase).
  exists t', T'. split; [done|]. split; [done|]. intros k.
  destruct Hwf as ((Hs & _) & _ & Hb). destruct Hwf' as ((Hs' & _) & _ & Hb').
  destruct (Comparator k key =? 0)%Z eqn:E.
  - apply cmp_eqb in E as ->.
    apply (Get_kvs_in Comparator zeroV key value t' T' Hs' Hb').
    destruct Hcase as [(A & v0 & B & _ & -> & _)|(_ & A & B & _ & -> & _)]; set_solver.
  - assert (k ≠ key) as Hne by (intros Heq%cmp_eqb; congruence).
    apply (Get_agree k t T t' T' Hs Hb Hs' Hb'). intros v.
    destruct Hcase as [(A & v0 & B & -> & -> & _)|(_ & A & B & -> & -> & _)]; set_solver.
Qed.

(** [Get] after [Remove]: the key removed is not found, every other key has
    what it had. *)
Lemma Remove_Get_view key t T :
  wf Comparator t T →
  ∃ t' T', Remove Comparator key t = Some (tt, t') ∧ wf Comparator t' T'
    ∧ ∀ k, Get Comparator zeroV t' k
           = if (Comparator k key =? 0)%Z then Some (zeroV, false)
             else Get Comparator zeroV t k.
Proof.
  intros Hwf.
  destruct (wf_Remove Comparator key t T Hwf) as (t' & T' & HP & Hwf' & Hcase).
  exists t', T'. split; [done|]. split; [done|]. intros k.
  pose proof Hwf as ((Hs & _) & _ & Hb). pose proof Hwf' as ((Hs' & _) & _ & Hb').
  destruct (Comparator k key =? 0)%Z eqn:E.
  - apply cmp_eqb in E as ->.
    apply (Get_notin Comparator zeroV key t' T' Hs').
    destruct Hcase as [(Hnin & -> & ->)|(A & v & B & HT & HT' & _)]; [done|].
    rewrite (keys_delete Comparator T T' A B key v key Hb HT HT'). tauto.
  - assert (k ≠ key) as Hne by (intros Heq%cmp_eqb; congruence).
    destruct Hcase as [(Hnin & -> & ->)|(A & v & B & HT & HT' & _)]; [done|].
    apply (Get_agree k t T t' T' Hs Hb Hs' Hb'). intros v'.
    by apply (kvs_delete_other Comparator T T' A B key v k v' Hb HT HT').
Qed.

(** X2.  The tree is a map for [Get]: after [Put] the key put has the value
    put, after [Remove] the key removed is not found, and in both cases
    every other key has what it had; the tree stays well formed. *)
Theorem Get_after_update key value t T :
  wf Comparator t T →
  (∃ t' T', Put Comparator key value t = Some (tt, t') ∧ wf Comparator t' T'
     ∧ ∀ k, Get Comparator zeroV t' k
            = if (Comparator k key =? 0)%Z then Some (value, true)
              else Get Comparator zeroV t k)
  ∧ (∃ t' T', Remove Comparator key t = Some (tt, t') ∧ wf Comparator t' T'
     ∧ ∀ k, Get Comparator zeroV t' k
            = if (Comparator k key =? 0)%Z then Some (zeroV, false)
              else Get Comparator zeroV t k).
Proof.
  intros Hwf. split.
  - by apply (Put_Get_view key value t T).
  - by apply (Remove_Get_view key t T).
Qed.

(** X3.  [Put] of a key that is not in the tree: the size goes up by one,
    the key joins the keys, its node is the newly allocated cell, and every
    node that was in the tree is still there with its key and its value. *)
Theorem Put_new_key key value t T :
  wf Comparator t T → key ∉ keys T →
  ∃ t' T', Put Comparator key value t = Some (tt, t') ∧ wf Comparator t' T'
    ∧ Size t' = (Size t + 1)%Z
    ∧ (∀ k, k ∈ keys T' ↔ k = key ∨ k ∈ keys T)
    ∧ reachable t' (length (store t))
    ∧ (∃ n, store t' !! length (store t) = Some n ∧ Key n = key ∧ Value n = value)
    ∧ (∀ p n, reachable t p → store t !! p = Some n →
         reachable t' p ∧ ∃ n', store t' !! p = Some n' ∧ Key n' = Key n ∧ Value n' = Value n).
Proof.
  intros (Hr & Hrb & Hb) Hnin.
  destruct (Put_spec Comparator key value t T Hr Hrb Hb)
    as (t' & T' & HP & Hr' & Hrb' & Hb' & Hcase).
  destruct Hcase as [(l1 & p & v1 & l2 & n & HT & _)|(_ & l1 & l2 & HT & HT' & Hsz)].
  { exfalso. apply Hnin. unfold keys. rewrite HT, fmap_app, fmap_cons. set_solver. }
  exists t', T'. split; [done|]. split; [done|]. split; [done|].
  destruct Hr as (Hs & _). destruct Hr' as (Hs' & _).
  assert (∀ q, q ∈ ptrs T' ↔ q = length (store t) ∨ q ∈ ptrs T) as Hptrs.
  { intros q. rewrite !ptrs_inorder_perm, HT, HT', !fmap_app, fmap_cons. set_solver. }
  split_and!.
  - intros k. unfold keys. rewrite HT, HT', !fmap_app, fmap_cons. set_solver.
  - apply (reachable_ptrs t' T' _ Hs'), Hptrs. by left.
  - destruct (shape_entry T' t' (length (store t)) key value Hs') as (n & Hn & Hk & Hv).
    { rewrite HT'. set_solver. }
    eauto.
  - intros p n Hreach Hn. apply (reachable_ptrs t T p Hs) in Hreach.
    split; [apply (reachable_ptrs t' T' p Hs'), Hptrs; by right|].
    destruct (ptr_zipper [] T p Hreach) as (C & c & l & k & v & r & Hp).
    change (plug [] T) with T in Hp.
    assert ((p, k, v) ∈ inorder T) as Hin.
    { rewrite <- Hp, inorder_plug. simpl. set_solver. }
    destruct (shape_entry T t p k v Hs Hin) as (n0 & Hn0 & Hk & Hv).
    rewrite Hn in Hn0. injection Hn0 as <-.
    destruct (shape_entry T' t' p k v Hs') as (n' & Hn' & Hk' & Hv').
    { rewrite HT'. rewrite HT in Hin. set_solver. }
    exists n'. split; [done|]. split; congruence.
Qed.

End MapView.

Section Extremes.
Context {K V : Type}.
Variable Comparator : K → K → Z.
Variable zeroK : K.
Variable zeroV : V.
Context `{!ComparatorOrder Comparator}.
Implicit Types (s T : @ptree K V) (C : list (@frame K V)) (e : nat * K * V) (t : Tree K V)
  (L : list (nat * K * V)).

Lemma entry_reachable t T e :
  shape T t → e ∈ inorder T →
  reachable t (entry_ptr e)
  ∧ ∃ n, store t !! entry_ptr e = Some n ∧ Key n = entry_key e ∧ Value n = e.2.
Proof.
  intros Hs Hin. split.
  - apply (reachable_ptrs t T _ Hs). rewrite ptrs_inorder_perm.
    apply list_elem_of_fmap. by exists e.
  - destruct e as [[p k] v]. by apply (shape_entry T t p k v Hs).
Qed.

(** X4.  [Left] returns the node of the smallest key and [Right] the node of
    the largest key; on the empty tree, and only there, they return nil. *)
Theorem Left_Right_extremes t T :
  wf Comparator t T →
  (∃ r, Left_ t = Some r
     ∧ match r with
       | Some p =>
           ∃ n, reachable t p ∧ store t !! p = Some n ∧ Key n ∈ keys T
             ∧ ∀ k, k ∈ keys T → kle Comparator (Key n) k
       | None => Root t = None ∧ keys T = []
       end)
  ∧ (∃ r, Right_ t = Some r
     ∧ match r with
       | Some p =>
           ∃ n, reachable t p ∧ store t !! p = Some n ∧ Key n ∈ keys T
             ∧ ∀ k, k ∈ keys T → kle Comparator k (Key n)
       | None => Root t = None ∧ keys T = []
       end).
Proof.
  intros ((Hs & _) & _ & Hb). apply bst_sorted in Hb; [|done]. split.
  - rewrite (Left_spec t T Hs). eexists; split; [done|].
    destruct (inorder T) as [|e L] eqn:HL; simpl.
    + destruct T as [|? ? l ? ? r]; [|simpl in HL; by destruct (inorder l)].
      split; [apply Hs|done].
    + destruct (entry_reachable t T e Hs) as (Hr & n & Hn & Hk & _); [rewrite HL; set_solver|].
      exists n. split_and!; try done.
      * rewrite Hk. unfold keys. rewrite HL. set_solver.
      * unfold keys. rewrite HL, Hk. intros k [->|Hin]%elem_of_cons; [by apply kle_refl|].
        apply list_elem_of_fmap in Hin as (e' & -> & Hin).
        apply (sorted_entries_cons Comparator) in Hb as [Hlt _]. by apply klt_kle, Hlt.
  - rewrite (Right_spec t T Hs). eexists; split; [done|].
    destruct (last (inorder T)) as [e|] eqn:HL; simpl.
    + apply last_Some_snoc in HL as [L HL].
      destruct (entry_reachable t T e Hs) as (Hr & n & Hn & Hk & _); [rewrite HL; set_solver|].
      exists n. split_and!; try done.
      * rewrite Hk. unfold keys. rewrite HL, fmap_app. set_solver.
      * unfold keys. rewrite Hk. intros k (e' & -> & Hin)%list_elem_of_fmap.
        rewrite HL in Hb, Hin. by eapply sorted_snoc_le.
    + apply last_None_nil in HL.
      destruct T as [|? ? l ? ? r]; [|simpl in HL; by destruct (inorder l)].
      split; [apply Hs|done].
Qed.

Lemma zip_keys_vals L :
  zip (entry_key <$> L) (snd <$> L) = (λ e, (e.1.2, e.2)) <$> L.
Proof. induction L as [|[[p k] v] L IH]; [done|]. rewrite !fmap_cons. simpl. f_equal. exact IH. Qed.

(** X5.  [Values] returns the values in the order of their keys: it is as
    long as [Keys], entry by entry the value that [Get] finds for the key at
    the same index. *)
Theorem Values_by_key t T :
  wf Comparator t T →
  ∃ ks vs, Keys Comparator zeroK t = Some ks ∧ Values Comparator zeroV t = Some vs
    ∧ length vs = length ks ∧ Z.of_nat (length vs) = Size t
    ∧ zip ks vs = kvs T
    ∧ ∀ i k v, ks !! i = Some k → vs !! i = Some v →
        Get Comparator zeroV t k = Some (v, true).
Proof.
  intros (Hr & _ & Hb). exists (keys T), (vals T).
  split; [by apply Keys_spec|]. split; [by apply Values_spec|].
  unfold keys, vals, kvs. rewrite !length_fmap. split; [done|].
  split; [unfold Size; destruct Hr as [_ ->]; by rewrite length_ptrs_inorder|].
  split; [apply zip_keys_vals|].
  intros i k v Hk Hv. apply list_lookup_fmap_Some in Hk as (e & -> & He).
  apply list_lookup_fmap_Some in Hv as (e' & -> & He'). rewrite He in He'. injection He' as <-.
  apply (Get_kvs_in Comparator zeroV _ _ t T (proj1 Hr) Hb).
  apply kvs_inorder. exists (entry_ptr e). destruct e as [[p k] v].
  by eapply list_elem_of_lookup_2.
Qed.

(** X6.  [Empty] says true exactly when the tree has no key, which is when
    its root is nil. *)
Theorem Empty_iff_no_keys t T :
  wf Comparator t T →
  (Empty t = true ↔ keys T = []) ∧ (Empty t = true ↔ Root t = None).
Proof.
  intros ((Hs & Hsz) & _). unfold Empty. rewrite Hsz, Z.eqb_eq.
  destruct Hs as (HR & _). rewrite HR.
  destruct T as [|p c l k v r]; simpl; [done|].
  unfold keys. simpl. rewrite fmap_app, fmap_cons.
  split; split; try done; try lia.
  intros H. symmetry in H. by apply app_cons_not_nil in H.
Qed.

End Extremes.

Section ClearAlways.
Context {K V : Type}.
Variable Comparator : K → K → Z.
Variable zeroK : K.
Variable zeroV : V.

(** X7.  [Clear] succeeds on every state, whatever is in the arena: it
    drops the root and resets the size without touching a node, and the
    tree it leaves is empty for [Size], [Empty], [Keys], [Values], [Get]
    and the iterator. *)
Theorem Clear_empties (t : Tree K V) :
  ∃ t', Clear t = Some (tt, t')
    ∧ store t' = store t ∧ Root t' = None ∧ Size t' = 0%Z ∧ Empty t' = true
    ∧ Keys Comparator zeroK t' = Some []
    ∧ Values Comparator zeroV t' = Some []
    ∧ (∀ k, Get Comparator zeroV t' k = Some (zeroV, false))
    ∧ Next Comparator t' Iterator_ = Some (false, mkIterator None pos_end).
Proof. eexists. split; [reflexivity|]. done. Qed.

End ClearAlways.

(** * Walking the tree with the iterator *)

Section Walks.
Context {K V : Type}.
Variable Comparator : K → K → Z.

(** The keys that repeated calls of a step ([Next] or [Prev]) visit, from
    the iterator [it] on, until the step returns false. *)
Fixpoint walk (step : Tree K V → Iterator → option (bool * Iterator))
    (fuel : nat) (t : Tree K V) (it : Iterator) : option (list K) :=
  match fuel with
  | O => None
  | S fuel' =>
      r ← step t it;
      if (r.1 : bool) then
        k ← Iterator_Key t r.2;
        rest ← walk step fuel' t r.2;
        Some (k :: rest)
      else Some []
  end.

Definition forward (t : Tree K V) (it : Iterator) : option (list K) :=
  walk (Next Comparator) (S (fuel_of t)) t it.

Definition backward (t : Tree K V) (it : Iterator) : option (list K) :=
  walk (Prev Comparator) (S (fuel_of t)) t it.

Context `{!ComparatorOrder Comparator}.
Implicit Types (s T : @ptree K V) (C : list (@frame K V)) (e : nat * K * V) (t : Tree K V)
  (L : list (nat * K * V)).

Lemma walk_Next_from t T L2 : ∀ L1 e fuel,
  shape T t → bst Comparator T → inorder T = L1 ++ e :: L2 → length L2 < fuel →
  walk (Next Comparator) fuel t (IteratorAt (Some (entry_ptr e))) = Some (entry_key <$> L2).
Proof.
  induction L2 as [|e' L2 IH]; intros L1 e fuel Hs Hb Hin Hf;
    (destruct fuel as [|fuel]; [simpl in Hf; lia|]); simpl in Hf;
    cbn [walk]; rewrite (Next_between _ _ _ _ _ _ Hs Hb Hin); simpl; [done|].
  rewrite (Iterator_Key_entry t T e'); [|done|rewrite Hin; set_solver]. simpl.
  pose proof (IH (L1 ++ [e]) e' fuel Hs Hb) as H. unfold IteratorAt in H.
  rewrite H; [done| |lia]. by rewrite Hin, <- app_assoc.
Qed.

Lemma walk_Prev_from t T L1 : ∀ L2 e fuel,
  shape T t → bst Comparator T → inorder T = L1 ++ e :: L2 → length L1 < fuel →
  walk (Prev Comparator) fuel t (IteratorAt (Some (entry_ptr e)))
  = Some (reverse (entry_key <$> L1)).
Proof.
  induction L1 as [|e' L1 IH] using rev_ind; intros L2 e fuel Hs Hb Hin Hf;
    (destruct fuel as [|fuel]; [simpl in Hf; lia|]);
    cbn [walk]; rewrite (Prev_between _ _ _ _ _ _ Hs Hb Hin); [done|].
  rewrite last_snoc. simpl.
  rewrite (Iterator_Key_entry t T e'); [|done|rewrite Hin; set_solver]. simpl.
  rewrite length_app in Hf. simpl in Hf.
  pose proof (IH (e :: L2) e' fuel Hs Hb) as H. unfold IteratorAt in H.
  rewrite H; [|by rewrite Hin, <- app_assoc|lia].
  by rewrite fmap_app, reverse_app.
Qed.

(** X8.  A walk with [Next] from a fresh iterator, from [Begin] or from
    [First], visits the keys in increasing order, each once; a walk with
    [Prev] from [End] or from [Last] visits them in decreasing order.  From
    a node in the middle, [Next] visits the keys after it and [Prev] those
    before it. *)
Theorem walks_in_order t T :
  wf Comparator t T →
  forward t Iterator_ = Some (keys T)
  ∧ (∀ it, forward t (Begin it) = Some (keys T))
  ∧ (∀ it, backward t (End_ it) = Some (reverse (keys T)))
  ∧ (∀ it, ∃ r, First Comparator t it = Some r
       ∧ if (r.1 : bool)
         then ∃ k rest, Iterator_Key t r.2 = Some k ∧ forward t r.2 = Some rest
                ∧ keys T = k :: rest
         else keys T = [])
  ∧ (∀ it, ∃ r, Last Comparator t it = Some r
       ∧ if (r.1 : bool)
         then ∃ k rest, Iterator_Key t r.2 = Some k ∧ backward t r.2 = Some rest
                ∧ reverse (keys T) = k :: rest
         else keys T = [])
  ∧ (∀ L1 p k v L2, inorder T = L1 ++ (p, k, v) :: L2 →
       forward t (IteratorAt (Some p)) = Some (entry_key <$> L2)
       ∧ backward t (IteratorAt (Some p)) = Some (reverse (entry_key <$> L1))).
Proof.
  intros ((Hs & _) & _ & Hb).
  pose proof (shape_length _ _ Hs) as Hlen. rewrite length_ptrs_inorder in Hlen.
  assert (∀ nd, forward t (mkIterator nd pos_begin) = Some (keys T)) as Hfw.
  { intros nd. unfold forward. set (fu := fuel_of t).
    assert (length (store t) < fu) as Hfu by (unfold fu, fuel_of; lia). clearbody fu.
    cbn [walk]. rewrite (Next_begin _ _ _ _ Hs).
    unfold keys. destruct (inorder T) as [|e L2] eqn:Hin; simpl; [done|].
    rewrite (Iterator_Key_entry t T e); [|done|rewrite Hin; set_solver]. simpl.
    pose proof (walk_Next_from t T L2 [] e fu Hs Hb Hin) as H. unfold IteratorAt in H.
    simpl in Hlen. rewrite H; [done|lia]. }
  assert (∀ nd, backward t (mkIterator nd pos_end) = Some (reverse (keys T))) as Hbw.
  { intros nd. unfold backward. set (fu := fuel_of t).
    assert (length (store t) < fu) as Hfu by (unfold fu, fuel_of; lia). clearbody fu.
    cbn [walk]. rewrite (Prev_end _ _ _ _ Hs).
    unfold keys. destruct (last (inorder T)) as [e|] eqn:Hl; simpl.
    - apply last_Some_snoc in Hl as [L1 Hin].
      rewrite (Iterator_Key_entry t T e); [|done|rewrite Hin; set_solver]. simpl.
      pose proof (walk_Prev_from t T L1 [] e fu Hs Hb Hin) as H. unfold IteratorAt in H.
      rewrite Hin, length_app in Hlen. simpl in Hlen. rewrite H; [|lia].
      by rewrite Hin, fmap_app, reverse_app.
    - apply last_None_nil in Hl. by rewrite Hl. }
  assert (∀ L1 p k v L2, inorder T = L1 ++ (p, k, v) :: L2 →
       forward t (IteratorAt (Some p)) = Some (entry_key <$> L2)
       ∧ backward t (IteratorAt (Some p)) = Some (reverse (entry_key <$> L1))) as Hmid.
  { intros L1 p k v L2 Hin. rewrite Hin, length_app in Hlen. simpl in Hlen. split.
    - apply (walk_Next_from t T L2 L1 (p, k, v) _ Hs Hb Hin). unfold fuel_of. lia.
    - apply (walk_Prev_from t T L1 L2 (p, k, v) _ Hs Hb Hin). unfold fuel_of. lia. }
  split_and!; [apply Hfw|intros it; apply Hfw|intros it; apply Hbw| | |exact Hmid].
  - intros it. unfold First, Begin. rewrite (Next_begin _ _ _ _ Hs). eexists; split; [done|].
    unfold keys. destruct (inorder T) as [|[[p k] v] L2] eqn:Hin; simpl; [done|].
    exists k, (entry_key <$> L2). split_and!; [|by apply (Hmid [] p k v L2)|done].
    apply (Iterator_Key_entry t T (p, k, v) Hs). rewrite Hin. set_solver.
  - intros it. unfold Last, End_. rewrite (Prev_end _ _ _ _ Hs). eexists; split; [done|].
    unfold keys. destruct (last (inorder T)) as [[[p k] v]|] eqn:Hl; simpl.
    + apply last_Some_snoc in Hl as [L1 Hin].
      exists k, (reverse (entry_key <$> L1)). split_and!.
      * apply (Iterator_Key_entry t T (p, k, v) Hs). rewrite Hin. set_solver.
      * by apply (Hmid L1 p k v []).
      * by rewrite Hin, fmap_app, reverse_app.
    + apply last_None_nil in Hl. by rewrite Hl.
Qed.

(** X9.  [Prev] undoes [Next] and [Next] undoes [Prev]: when a step from a
    node of the tree returns true, the opposite step returns true and puts
    the iterator back on that node. *)
Theorem Next_Prev_round_trip t T p :
  wf Comparator t T → reachable t p →
  (∀ it, Next Comparator t (IteratorAt (Some p)) = Some (true, it) →
         Prev Comparator t it = Some (true, IteratorAt (Some p)))
  ∧ (∀ it, Prev Comparator t (IteratorAt (Some p)) = Some (true, it) →
           Next Comparator t it = Some (true, IteratorAt (Some p))).
Proof.
  intros ((Hs & _) & _ & Hb) Hreach.
  apply (reachable_ptrs t T p Hs) in Hreach.
  destruct (ptr_zipper [] T p Hreach) as (C & c & l & k & v & r & Hp).
  change (plug [] T) with T in Hp.
  assert (inorder T = (ctx_before C ++ inorder l) ++ (p, k, v) :: (inorder r ++ ctx_after C))
    as Hin.
  { rewrite <- Hp, inorder_plug. simpl. by rewrite <- !app_assoc. }
  set (L1 := ctx_before C ++ inorder l) in *. set (L2 := inorder r ++ ctx_after C) in *.
  clearbody L1 L2. split; intros it.
  - pose proof (Next_between Comparator t T L1 (p, k, v) L2 Hs Hb Hin) as HN.
    change (entry_ptr (p, k, v)) with p in HN. rewrite HN.
    destruct L2 as [|e' L2]; simpl; [done|]. intros [= <-].
    assert (inorder T = (L1 ++ [(p, k, v)]) ++ e' :: L2) as Hin' by (by rewrite <- app_assoc).
    pose proof (Prev_between Comparator t T _ e' L2 Hs Hb Hin') as HP.
    unfold IteratorAt in *. rewrite HP. by rewrite last_snoc.
  - pose proof (Prev_between Comparator t T L1 (p, k, v) L2 Hs Hb Hin) as HN.
    change (entry_ptr (p, k, v)) with p in HN. rewrite HN.
    destruct (last L1) as [e'|] eqn:Hl; simpl; [|done]. intros [= <-].
    apply last_Some_snoc in Hl as [L0 ->].
    assert (inorder T = L0 ++ e' :: (p, k, v) :: L2) as Hin' by (by rewrite Hin, <- app_assoc).
    pose proof (Next_between Comparator t T L0 e' _ Hs Hb Hin') as HP.
    unfold IteratorAt in *. by rewrite HP.
Qed.

End Walks.

Section Sentinels.
Context {K V : Type}.
Variable Comparator : K → K → Z.

(** X10.  Off the ends there is nothing to read: after [Next] or [Prev] has
    returned false, as on a fresh iterator and after [Begin] or [End], [Key]
    and [Value] panic (the node of the iterator is nil). *)
Theorem Key_off_the_ends (t : Tree K V) (it it' : Iterator) :
  Next Comparator t it = Some (false, it') ∨ Prev Comparator t it = Some (false, it')
  ∨ it' = Iterator_ ∨ it' = Begin it ∨ it' = End_ it →
  node it' = None ∧ Iterator_Key t it' = None ∧ Iterator_Value t it' = None.
Proof.
  intros [->%Next_false_end|[->%Prev_false_begin|[->|[->| ->]]]]; done.
Qed.

End Sentinels.

(** * The height of the tree *)

Section Height.
Context {K V : Type}.
Implicit Types (s T : @ptree K V).

(** The number of nodes on the longest path from the root to a nil link. *)
Fixpoint height T : nat :=
  match T with
  | PLeaf => 0
  | PNode _ _ l _ _ r => S (height l `max` height r)
  end.

Lemma bh_height T n :
  bh T n → nrr T → height T ≤ 2 * n + match rootc T with red => 1 | black => 0 end.
Proof.
  revert n; induction T as [|p c l IHl k v r IHr]; intros n; simpl; [lia|].
  destruct c.
  - destruct n as [|m]; [done|]. intros [Hl Hr] (_ & Hnl & Hnr).
    specialize (IHl m Hl Hnl). specialize (IHr m Hr Hnr).
    destruct (rootc l), (rootc r); lia.
  - intros [Hl Hr] (Hred & Hnl & Hnr). destruct (Hred eq_refl) as [Hcl Hcr].
    specialize (IHl n Hl Hnl). specialize (IHr n Hr Hnr).
    rewrite Hcl in IHl. rewrite Hcr in IHr. lia.
Qed.

Lemma bh_size T n : bh T n → 2 ^ n ≤ length (ptrs T) + 1.
Proof.
  revert n; induction T as [|p c l IHl k v r IHr]; intros n; simpl.
  { intros ->. simpl. lia. }
  rewrite length_app. destruct c.
  - destruct n as [|m]; [done|]. intros [Hl Hr].
    specialize (IHl m Hl). specialize (IHr m Hr). rewrite Nat.pow_succ_r'. lia.
  - intros [Hl Hr]. specialize (IHl n Hl). lia.
Qed.

Lemma rbtree_height T : rbtree T → height T ≤ 2 * Nat.log2 (length (ptrs T) + 1).
Proof.
  intros (Hc & Hn & n & Hbh).
  pose proof (bh_height T n Hbh Hn) as H1. rewrite Hc in H1.
  pose proof (bh_size T n Hbh) as H2.
  assert (n ≤ Nat.log2 (length (ptrs T) + 1)); [|lia].
  apply Nat.log2_le_pow2; lia.
Qed.

End Height.

Section SplitUnique.
Context {K V : Type}.

Lemma split_unique (A B A' B' : list (K * V)) (k : K) (v v' : V) :
  NoDup (A ++ (k, v) :: B).*1 → A ++ (k, v) :: B = A' ++ (k, v') :: B' →
  A = A' ∧ v = v' ∧ B = B'.
Proof.
  revert A'; induction A as [|a A IH]; intros [|a' A']; simpl.
  - by intros _ [= -> ->].
  - intros HND [= <- ->]. exfalso. apply NoDup_cons in HND as [Hnin _].
    apply Hnin. rewrite fmap_app, fmap_cons. set_solver.
  - intros HND [= -> <-]. exfalso. apply NoDup_cons in HND as [Hnin _].
    apply Hnin. rewrite fmap_app, fmap_cons. set_solver.
  - intros [_ HND]%NoDup_cons [= -> Heq]. destruct (IH A' HND Heq) as (-> & -> & ->). done.
Qed.

End SplitUnique.

Section MoreAlgebra.
Context {K V : Type}.
Variable Comparator : K → K → Z.
Variable zeroK : K.
Variable zeroV : V.
Context `{!ComparatorOrder Comparator}.
Implicit Types (s T : @ptree K V) (C : list (@frame K V)) (e : nat * K * V) (t : Tree K V)
  (L : list (nat * K * V)).

(** X11.  The tree stays low: after any sequence of operations the longest
    path from the root to a nil link has at most 2 log2 (size + 1) nodes. *)
Theorem height_logarithmic (os : list (op K V)) :
  ∃ t T, run_ops Comparator os NewWith = Some (tt, t) ∧ represents t T
    ∧ height T ≤ 2 * Nat.log2 (Z.to_nat (Size t) + 1).
Proof.
  destruct (wf_run_ops Comparator os NewWith PLeaf (wf_NewWith Comparator))
    as (t & T & Hrun & Hr & Hrb & Hb).
  exists t, T. split; [done|]. split; [done|].
  unfold Size. destruct Hr as [_ ->]. rewrite Nat2Z.id. by apply rbtree_height.
Qed.

Lemma Remove_notin key t T :
  wf Comparator t T → key ∉ keys T → Remove Comparator key t = Some (tt, t).
Proof.
  intros ((Hs & _) & _ & Hb) Hnin.
  destruct (a_find Comparator key [] T) as [C s] eqn:Hf. destruct s as [|q c l k0 v0 r].
  - by eapply Remove_absent.
  - destruct (a_find_node_in Comparator _ _ _ _ _ _ _ _ _ Hf) as [-> Hin0].
    exfalso. apply Hnin. unfold keys. apply list_elem_of_fmap. by exists (q, key, v0).
Qed.

(** X12.  [Put] of the same entry again changes nothing: the state after
    the second [Put] is the state after the first. *)
Theorem Put_twice key value t t' T :
  wf Comparator t T → Put Comparator key value t = Some (tt, t') →
  Put Comparator key value t' = Some (tt, t').
Proof.
  intros Hwf HP.
  destruct (wf_Put Comparator key value t T Hwf) as (t1 & T1 & HP1 & Hwf1 & Hcase).
  rewrite HP in HP1. injection HP1 as <-.
  assert ((key, value) ∈ kvs T1) as Hin.
  { destruct Hcase as [(A & v0 & B & _ & -> & _)|(_ & A & B & _ & -> & _)]; set_solver. }
  destruct (Put_in Comparator zeroV key value value t' T1 Hwf1 Hin)
    as (p & n & t2 & _ & Hn & _ & Hv & HP2 & -> & _).
  rewrite HP2. do 2 f_equal.
  assert (set_Value value n = n) as -> by (destruct n; simpl in *; by subst).
  rewrite list_insert_id; [|done]. by destruct t'.
Qed.

(** X13.  [Remove] of the same key again changes nothing: the second
    [Remove] finds no node and returns the state as it is. *)
Theorem Remove_twice key t t' T :
  wf Comparator t T → Remove Comparator key t = Some (tt, t') →
  Remove Comparator key t' = Some (tt, t').
Proof.
  intros Hwf HR.
  destruct (wf_Remove Comparator key t T Hwf) as (t1 & T1 & HR1 & Hwf1 & Hcase).
  rewrite HR in HR1. injection HR1 as <-.
  apply (Remove_notin key t' T1 Hwf1).
  destruct Hcase as [(Hnin & _ & ->)|(A & v & B & HT & HT1 & _)]; [done|].
  destruct Hwf as (_ & _ & Hb).
  rewrite (keys_delete Comparator T T1 A B key v key Hb HT HT1). tauto.
Qed.

(** X14.  [Remove] undoes [Put] of a new key: after [Put] of a key that was
    not in the tree and [Remove] of that key, the tree has the entries and
    the size it had.  (The shape and the cells may differ.) *)
Theorem Put_Remove_round_trip key value t T :
  wf Comparator t T → key ∉ keys T →
  ∃ t1 t2 T2, Put Comparator key value t = Some (tt, t1)
    ∧ Remove Comparator key t1 = Some (tt, t2) ∧ wf Comparator t2 T2
    ∧ kvs T2 = kvs T ∧ Size t2 = Size t
    ∧ ∀ k, Get Comparator zeroV t2 k = Get Comparator zeroV t k.
Proof.
  intros Hwf Hnin.
  destruct (wf_Put Comparator key value t T Hwf) as (t1 & T1 & HP & Hwf1 & Hcase).
  destruct Hcase as [(A & v0 & B & HT & _)|(_ & A & B & HT & HT1 & Hsz1)].
  { exfalso. apply Hnin. rewrite keys_kvs, HT, fmap_app, fmap_cons. set_solver. }
  destruct (wf_Remove Comparator key t1 T1 Hwf1) as (t2 & T2 & HR & Hwf2 & Hcase).
  destruct Hcase as [(Hnin1 & _)|(A' & v' & B' & HT1' & HT2 & Hsz2)].
  { exfalso. apply Hnin1. rewrite keys_kvs, HT1, fmap_app, fmap_cons. set_solver. }
  assert (A = A' ∧ value = v' ∧ B = B') as (<- & <- & <-).
  { apply (split_unique A B A' B' key value v'); [|congruence].
    rewrite <- HT1, <- keys_kvs. apply (sorted_keys_NoDup Comparator), Hwf1. }
  assert (kvs T2 = kvs T) as Hkvs by congruence.
  exists t1, t2, T2. split_and!; try done.
  - unfold Size. lia.
  - intros k. destruct Hwf as ((Hs & _) & _ & Hb). destruct Hwf2 as ((Hs2 & _) & _ & Hb2).
    apply (Get_agree Comparator zeroV k t T t2 T2 Hs Hb Hs2 Hb2). by rewrite Hkvs.
Qed.

(** X15.  For a key of the tree, [Floor] and [Ceiling] both return the node
    of the key itself, the node that [lookup] finds. *)
Theorem Floor_Ceiling_of_key key t T :
  wf Comparator t T → key ∈ keys T →
  ∃ p n, lookup Comparator t key = Some (Some p)
    ∧ store t !! p = Some n ∧ Key n = key
    ∧ Floor Comparator t key = Some (Some p, true)
    ∧ Ceiling Comparator t key = Some (Some p, true).
Proof.
  intros ((Hs & _) & _ & Hb) Hin.
  rewrite (lookup_spec Comparator key t T Hs), (Floor_spec Comparator key t T Hs),
    (Ceiling_spec Comparator key t T Hs).
  unfold a_floor, a_ceiling.
  destruct (a_find Comparator key [] T) as [C s] eqn:Hf. destruct s as [|q c l k0 v0 r].
  { exfalso. by eapply a_find_leaf_notin. }
  destruct (a_find_node_in Comparator _ _ _ _ _ _ _ _ _ Hf) as [-> Hin0].
  destruct (shape_entry T t q key v0 Hs Hin0) as (n & Hn & Hk & _).
  exists q, n. done.
Qed.

End MoreAlgebra.

(** * Rotations *)

Section RotationProps.
Context {K V : Type}.
Implicit Types (s T : @ptree K V) (C : list (@frame K V)) (e : nat * K * V) (t : Tree K V)
  (L : list (nat * K * V)).


End RotationProps.

(** * The tree map (maps/treemap)

    A [Map] holds a pointer to its red-black tree and hands every call on
    to it.  [Min], [Max], [Floor] and [Ceiling] read the key and the value
    out of the node that the tree returns.  The zero values that
    [utils.AnyEmpty] returns are parameters: its code is not among the
    sources. *)

Module treemap.
Section TreeMap.
Context {K V : Type}.
Variable Comparator : K → K → Z.
Variable zeroK : K.
Variable zeroV : V.

Local Abbreviation rbt_Floor := (Floor Comparator).
Local Abbreviation rbt_Ceiling := (Ceiling Comparator).

Record Map := mkMap { tree : Tree K V }.

(** [m.Min()] *)
Definition Min (m : Map) : option (K * V) :=
  node ← Left_ (tree m);
  match node with
  | Some _ => n ← deref (tree m) node; Some (Key n, Value n)
  | None => Some (zeroK, zeroV)
  end.

(** [m.Max()]: the results are of type [interface{}], nil on the empty
    map. *)
Definition Max (m : Map) : option (option K * option V) :=
  node ← Right_ (tree m);
  match node with
  | Some _ => n ← deref (tree m) node; Some (Some (Key n), Some (Value n))
  | None => Some (None, None)
  end.

(** [m.Floor(key)] *)
Definition Floor (m : Map) (key : K) : option (K * V) :=
  r ← rbt_Floor (tree m) key;
  if (r.2 : bool) then n ← deref (tree m) r.1; Some (Key n, Value n)
  else Some (zeroK, zeroV).

(** [m.Ceiling(key)] *)
Definition Ceiling (m : Map) (key : K) : option (K * V) :=
  r ← rbt_Ceiling (tree m) key;
  if (r.2 : bool) then n ← deref (tree m) r.1; Some (Key n, Value n)
  else Some (zeroK, zeroV).

Context `{!ComparatorOrder Comparator}.
Implicit Types (T : @ptree K V) (m : Map).

(** X17.  [Min] returns the smallest key of the map with its value, [Max]
    the largest key with its value; on the empty map [Min] returns the zero
    values and [Max] returns nil. *)
Theorem Min_Max_extremes m T :
  wf Comparator (tree m) T →
  (∃ k v, Min m = Some (k, v)
     ∧ match kvs T with
       | [] => k = zeroK ∧ v = zeroV
       | _ => (k, v) ∈ kvs T ∧ ∀ k', k' ∈ keys T → kle Comparator k k'
       end)
  ∧ (∃ r, Max m = Some r
     ∧ match kvs T with
       | [] => r = (None, None)
       | _ => ∃ k v, r = (Some k, Some v) ∧ (k, v) ∈ kvs T
                ∧ ∀ k', k' ∈ keys T → kle Comparator k' k
       end).
Proof.
  intros ((Hs & _) & _ & Hb). apply bst_sorted in Hb; [|done]. split.
  - unfold Min. rewrite (Left_spec (tree m) T Hs). simpl. unfold kvs, keys.
    destruct (inorder T) as [|[[p k] v] L] eqn:HL; simpl; [by exists zeroK, zeroV|].
    destruct (shape_entry T (tree m) p k v Hs) as (n & Hn & <- & <-); [rewrite HL; set_solver|].
    unfold entry_ptr. simpl. rewrite Hn. simpl. exists (Key n), (Value n). split; [done|].
    split; [set_solver|]. intros k' [->|Hin]%elem_of_cons; [by apply kle_refl|].
    apply list_elem_of_fmap in Hin as (e' & -> & Hin).
    apply (sorted_entries_cons Comparator) in Hb as [Hlt _]. by apply klt_kle, Hlt.
  - unfold Max. rewrite (Right_spec (tree m) T Hs). simpl. unfold kvs, keys.
    destruct (last (inorder T)) as [[[p k] v]|] eqn:HL; simpl.
    + apply last_Some_snoc in HL as [L HL].
      destruct (shape_entry T (tree m) p k v Hs) as (n & Hn & <- & <-); [rewrite HL; set_solver|].
      unfold entry_ptr. simpl. rewrite Hn. simpl. eexists; split; [done|].
      rewrite HL, fmap_app. simpl.
      destruct (((λ e, (e.1.2, e.2)) <$> L) ++ [(Key n, Value n)]) eqn:E.
      { symmetry in E. by apply app_cons_not_nil in E. }
      rewrite <- E. exists (Key n), (Value n). split; [done|]. split; [set_solver|].
      intros k' (e' & -> & Hin)%list_elem_of_fmap. rewrite HL in Hb.
      by apply (sorted_snoc_le Comparator L (p, Key n, Value n) e').
    + apply last_None_nil in HL. rewrite HL. simpl. by eexists.
Qed.

(** X18.  [Floor] returns the largest key of the map that is not above the
    given key, with its value, and [Ceiling] the smallest key that is not
    below it; when there is no such key they return the zero values. *)
Theorem Floor_Ceiling_entries m T key :
  wf Comparator (tree m) T →
  (∃ k v, Floor m key = Some (k, v)
     ∧ (((k, v) ∈ kvs T ∧ kle Comparator k key
         ∧ ∀ k', k' ∈ keys T → kle Comparator k' key → kle Comparator k' k)
        ∨ ((∀ k', k' ∈ keys T → ¬ kle Comparator k' key) ∧ k = zeroK ∧ v = zeroV)))
  ∧ (∃ k v, Ceiling m key = Some (k, v)
     ∧ (((k, v) ∈ kvs T ∧ kle Comparator key k
         ∧ ∀ k', k' ∈ keys T → kle Comparator key k' → kle Comparator k k')
        ∨ ((∀ k', k' ∈ keys T → ¬ kle Comparator key k') ∧ k = zeroK ∧ v = zeroV))).
Proof.
  intros ((Hs & _) & _ & Hb). split.
  - unfold Floor. rewrite (Floor_spec Comparator key (tree m) T Hs). simpl.
    pose proof (a_floor_correct Comparator key T Hb) as Hc.
    destruct (a_floor Comparator key T) as [[p|] []]; try done; simpl.
    + destruct Hc as ([[p' k] v] & <- & (Hin & Hle & Hmax)).
      destruct (shape_entry T (tree m) p' k v Hs Hin) as (n & Hn & <- & <-).
      unfold entry_ptr. simpl. rewrite Hn. simpl. exists (Key n), (Value n).
      split; [done|]. left. split_and!; [apply kvs_inorder; eauto|done|].
      intros k' (e' & -> & Hin')%list_elem_of_fmap Hle'. by apply (Hmax e').
    + exists zeroK, zeroV. split; [done|]. right. split; [|done].
      intros k' (e' & -> & Hin')%list_elem_of_fmap Hle'.
      eapply (kle_not_gt Comparator); [exact Hle'|]. by apply Hc.
  - unfold Ceiling. rewrite (Ceiling_spec Comparator key (tree m) T Hs). simpl.
    pose proof (a_ceiling_correct Comparator key T Hb) as Hc.
    destruct (a_ceiling Comparator key T) as [[p|] []]; try done; simpl.
    + destruct Hc as ([[p' k] v] & <- & (Hin & Hle & Hmax)).
      destruct (shape_entry T (tree m) p' k v Hs Hin) as (n & Hn & <- & <-).
      unfold entry_ptr. simpl. rewrite Hn. simpl. exists (Key n), (Value n).
      split; [done|]. left. split_and!; [apply kvs_inorder; eauto|done|].
      intros k' (e' & -> & Hin')%list_elem_of_fmap Hle'. by apply (Hmax e').
    + exists zeroK, zeroV. split; [done|]. right. split; [|done].
      intros k' (e' & -> & Hin')%list_elem_of_fmap Hle'.
      eapply (kle_not_gt Comparator); [exact Hle'|]. by apply Hc.
Qed.

End TreeMap.
End treemap.

(** * Keys and values are written in two places only

    The fix-ups and the rotations write colours and links.  The relation
    [kv_same] says that every cell of the arena, reachable or not, holds
    the key and the value it held. *)

Section KeepEntries.
Context {K V : Type}.
Implicit Types (t : Tree K V) (n : Node K V).

Definition kv_same t t' : Prop :=
  ∀ p n, store t !! p = Some n →
         ∃ n', store t' !! p = Some n' ∧ Key n' = Key n ∧ Value n' = Value n.

Definition kv_pres {A} (m : @M K V A) : Prop :=
  ∀ t a t', m t = Some (a, t') → kv_same t t'.

(** A field update that is not of the key or the value. *)
Definition kv_update (f : Node K V → Node K V) : Prop :=
  ∀ n, Key (f n) = Key n ∧ Value (f n) = Value n.

Lemma kv_same_refl t : kv_same t t.
Proof. intros p n Hn. eauto. Qed.

Lemma kv_same_trans t1 t2 t3 : kv_same t1 t2 → kv_same t2 t3 → kv_same t1 t3.
Proof.
  intros H12 H23 p n Hn. destruct (H12 p n Hn) as (n2 & Hn2 & Hk2 & Hv2).
  destruct (H23 p n2 Hn2) as (n3 & Hn3 & Hk3 & Hv3). exists n3. split; [done|]. split; congruence.
Qed.

Lemma kv_same_store t t' : store t' = store t → kv_same t t'.
Proof. intros Heq p n Hn. rewrite Heq. eauto. Qed.

Lemma kv_ret {A} (a : A) : kv_pres (ret a).
Proof. intros t a' t' [= _ <-]. apply kv_same_refl. Qed.

Lemma kv_panic {A} : kv_pres (@panic K V A).
Proof. by intros t a t'. Qed.

Lemma kv_get p : kv_pres (get p).
Proof. intros t a t'. unfold get. destruct (deref t p); [|done]. intros [= _ <-]. apply kv_same_refl. Qed.

Lemma kv_ask {A} (f : Tree K V → option A) : kv_pres (ask f).
Proof. intros t a t'. unfold ask. destruct (f t); [|done]. intros [= _ <-]. apply kv_same_refl. Qed.

Lemma kv_set_Root r : kv_pres (@set_Root K V r).
Proof. intros t a t' [= _ <-]. by apply kv_same_store. Qed.

Lemma kv_set_size f : kv_pres (@set_size K V f).
Proof. intros t a t' [= _ <-]. by apply kv_same_store. Qed.

Lemma kv_alloc n : kv_pres (alloc n).
Proof.
  intros t a t' [= _ <-] p n0 Hn. exists n0. split; [|done]. simpl. by apply lookup_app_l_Some.
Qed.

Lemma kv_modify p f : kv_update f → kv_pres (modify p f).
Proof.
  intros Hf t a t'. unfold modify. destruct p as [i|]; [|done].
  destruct (store t !! i) as [ni|] eqn:Hi; [|done]. intros [= _ <-] q n Hn. simpl.
  destruct (decide (q = i)) as [->|Hne].
  - rewrite Hn in Hi. injection Hi as ->. exists (f ni).
    split; [|apply Hf]. apply list_lookup_insert_eq. by eapply lookup_lt_Some.
  - exists n. split; [|done]. by rewrite list_lookup_insert_ne.
Qed.

Lemma kv_bind {A B} (m : @M K V A) (f : A → @M K V B) :
  kv_pres m → (∀ a, kv_pres (f a)) → kv_pres (bind m f).
Proof.
  intros Hm Hf t b t'. unfold bind. destruct (m t) as [[a t1]|] eqn:E; [|done].
  intros Hfa. eapply kv_same_trans; [by eapply Hm|by eapply Hf].
Qed.

Lemma kv_update_color c : kv_update (@set_color K V c).
Proof. done. Qed.
Lemma kv_update_Left p : kv_update (@set_Left K V p).
Proof. done. Qed.
Lemma kv_update_Right p : kv_update (@set_Right K V p).
Proof. done. Qed.
Lemma kv_update_Parent p : kv_update (@set_Parent K V p).
Proof. done. Qed.

End KeepEntries.

Ltac kv_step :=
  first
    [ apply kv_ret | apply kv_panic | apply kv_get | apply kv_ask | apply kv_set_Root
    | apply kv_set_size | apply kv_alloc
    | apply kv_modify; first [apply kv_update_color | apply kv_update_Left
                             | apply kv_update_Right | apply kv_update_Parent]
    | apply kv_bind; [|intros ?]
    | assumption
    | match goal with
      | |- kv_pres (match ?x with _ => _ end) => destruct x
      | |- kv_pres (if ?x then _ else _) => destruct x
      | H : ∀ p, kv_pres (?f p) |- kv_pres (?f _) => apply H
      end ].

Ltac kv_auto := cbv zeta; repeat kv_step.

Section KeepEntriesCode.
Context {K V : Type}.
Variable Comparator : K → K → Z.
Implicit Types (t : Tree K V) (n : Node K V) (nd : ptr).

Lemma kv_andM (a b : @M K V bool) : kv_pres a → kv_pres b → kv_pres (andM a b).
Proof. intros Ha Hb. unfold andM. kv_auto. Qed.

Lemma kv_is_left_child nd : kv_pres (@is_left_child K V nd).
Proof. unfold is_left_child. kv_auto. Qed.
Lemma kv_is_right_child nd : kv_pres (@is_right_child K V nd).
Proof. unfold is_right_child. kv_auto. Qed.
Lemma kv_parent_is_left_of nd g : kv_pres (@parent_is_left_of K V nd g).
Proof. unfold parent_is_left_of. kv_auto. Qed.
Lemma kv_parent_is_right_of nd g : kv_pres (@parent_is_right_of K V nd g).
Proof. unfold parent_is_right_of. kv_auto. Qed.
Lemma kv_color_is c nd : kv_pres (@color_is K V c nd).
Proof. unfold color_is. kv_auto. Qed.
Lemma kv_parent_color_is c nd : kv_pres (@parent_color_is K V c nd).
Proof. unfold parent_color_is. kv_auto; try apply kv_color_is. Qed.
Lemma kv_left_color_is c nd : kv_pres (@left_color_is K V c nd).
Proof. unfold left_color_is. kv_auto; try apply kv_color_is. Qed.
Lemma kv_right_color_is c nd : kv_pres (@right_color_is K V c nd).
Proof. unfold right_color_is. kv_auto; try apply kv_color_is. Qed.

Lemma kv_replaceNode old new : kv_pres (@replaceNode K V old new).
Proof. unfold replaceNode. kv_auto. Qed.

Lemma kv_rotateLeft nd : kv_pres (@rotateLeft K V nd).
Proof. unfold rotateLeft. kv_auto; try apply kv_replaceNode. Qed.

Lemma kv_rotateRight nd : kv_pres (@rotateRight K V nd).
Proof. unfold rotateRight. kv_auto; try apply kv_replaceNode. Qed.

Lemma kv_insertCase5 nd : kv_pres (@insertCase5 K V nd).
Proof. unfold insertCase5. kv_auto. Qed.

Lemma kv_insertCase4 nd : kv_pres (@insertCase4 K V nd).
Proof. unfold insertCase4. kv_auto. Qed.

Lemma kv_insertCase1 fuel : ∀ nd, kv_pres (@insertCase1 K V fuel nd).
Proof.
  induction fuel as [|fuel IH]; intros nd; simpl; [apply kv_panic|].
  unfold insertCase2, insertCase3. kv_auto; try apply kv_insertCase4.
Qed.

Lemma kv_deleteCase6 nd : kv_pres (@deleteCase6 K V nd).
Proof. unfold deleteCase6. kv_auto. Qed.

Lemma kv_deleteCase5 nd : kv_pres (@deleteCase5 K V nd).
Proof. unfold deleteCase5. kv_auto. Qed.

Lemma kv_deleteCase4 nd : kv_pres (@deleteCase4 K V nd).
Proof. unfold deleteCase4. kv_auto. Qed.

Lemma kv_deleteCase1 fuel : ∀ nd, kv_pres (@deleteCase1 K V fuel nd).
Proof.
  induction fuel as [|fuel IH]; intros nd; simpl; [apply kv_panic|].
  unfold deleteCase2, deleteCase3. kv_auto; try apply kv_deleteCase4.
Qed.

(** [Remove] of a key whose node has at most one child writes no key and no
    value. *)
Lemma Remove_kv_same key t t' p n :
  lookup Comparator t key = Some (Some p) → store t !! p = Some n →
  Left n = None ∨ Right n = None →
  Remove Comparator key t = Some (tt, t') → kv_same t t'.
Proof.
  intros Hl Hn Hone. unfold Remove.
  unfold bind at 1. unfold ask at 1. rewrite Hl.
  unfold bind at 1. unfold get at 1. simpl. rewrite Hn.
  assert (∀ m : @M K V unit, kv_pres m → m t = Some (tt, t') → kv_same t t') as Hgo.
  { intros m Hm. apply Hm. }
  destruct Hone as [HL|HR].
  - rewrite HL. apply Hgo. kv_auto; try apply kv_deleteCase1.
  - rewrite HR. destruct (Left n); apply Hgo; kv_auto; try apply kv_deleteCase1.
Qed.

(** X19.  The fix-ups of insertion and deletion, the rotations and
    [replaceNode] never write a key or a value: whatever the state they run
    in, every cell of the arena holds afterwards the key and the value it
    held before. *)
Theorem fixups_write_no_entry :
  (∀ fuel nd, kv_pres (@insertCase1 K V fuel nd))
  ∧ (∀ fuel nd, kv_pres (@deleteCase1 K V fuel nd))
  ∧ (∀ nd, kv_pres (@insertCase4 K V nd))
  ∧ (∀ nd, kv_pres (@deleteCase4 K V nd))
  ∧ (∀ nd, kv_pres (@rotateLeft K V nd))
  ∧ (∀ nd, kv_pres (@rotateRight K V nd))
  ∧ (∀ old new, kv_pres (@replaceNode K V old new)).
Proof.
  split_and!; intros.
  - apply kv_insertCase1.
  - apply kv_deleteCase1.
  - apply kv_insertCase4.
  - apply kv_deleteCase4.
  - apply kv_rotateLeft.
  - apply kv_rotateRight.
  - apply kv_replaceNode.
Qed.

End KeepEntriesCode.

Section EndNodes.
Context {K V : Type}.
Variable Comparator : K → K → Z.
Context `{!ComparatorOrder Comparator}.
Implicit Types (s T : @ptree K V) (C : list (@frame K V)) (e : nat * K * V) (t : Tree K V)
  (L : list (nat * K * V)).

Lemma inorder_nil_leaf T : inorder T = [] → T = PLeaf.
Proof. destruct T as [|? ? l ? ? r]; [done|]. simpl. by destruct (inorder l). Qed.

(** The node of the first entry has no left child, the node of the last
    entry no right child. *)
Lemma first_no_left t T p k v L :
  shape T t → inorder T = (p, k, v) :: L →
  ∃ n, store t !! p = Some n ∧ Left n = None ∧ Key n = k ∧ Value n = v.
Proof.
  intros Hs Hin.
  destruct (split_zipper [] T [] (p, k, v) L Hin) as (C & c & l & r & Hp & Hbe & _).
  change (plug [] T) with T in Hp. simpl in Hp, Hbe. rewrite <- Hp in Hs.
  apply app_eq_nil in Hbe as [_ ->%inorder_nil_leaf].
  eexists. split; [apply (shape_lookup _ _ _ _ _ _ _ _ Hs)|done].
Qed.

Lemma last_no_right t T p k v L :
  shape T t → inorder T = L ++ [(p, k, v)] →
  ∃ n, store t !! p = Some n ∧ Right n = None ∧ Key n = k ∧ Value n = v.
Proof.
  intros Hs Hin.
  destruct (split_zipper [] T L (p, k, v) [] Hin) as (C & c & l & r & Hp & _ & Haf).
  change (plug [] T) with T in Hp. simpl in Hp, Haf. rewrite <- Hp in Hs.
  apply app_eq_nil in Haf as [->%inorder_nil_leaf _].
  eexists. split; [apply (shape_lookup _ _ _ _ _ _ _ _ Hs)|done].
Qed.

(** [lookup] of the key of an entry finds the node of the entry. *)
Lemma lookup_entry t T p k v :
  shape T t → bst Comparator T → (p, k, v) ∈ inorder T →
  lookup Comparator t k = Some (Some p).
Proof.
  intros Hs Hb Hin. rewrite (lookup_spec Comparator k t T Hs).
  destruct (a_find Comparator k [] T) as [C s] eqn:Hf. destruct s as [|q c l k0 v0 r].
  - exfalso. apply (a_find_leaf_notin Comparator k T C Hb Hf).
    unfold keys. apply list_elem_of_fmap. by exists (p, k, v).
  - destruct (a_find_node_in Comparator _ _ _ _ _ _ _ _ _ Hf) as [-> Hin0].
    apply bst_sorted in Hb; [|done].
    by pose proof (sorted_entries_unique Comparator _ _ _ Hb Hin Hin0 eq_refl) as [= -> _].
Qed.

Lemma kvs_cons_split T k v rest A v' B :
  bst Comparator T → kvs T = (k, v) :: rest → kvs T = A ++ (k, v') :: B →
  A = [] ∧ v' = v ∧ B = rest.
Proof.
  intros Hb H1 H2.
  destruct (split_unique [] rest A B k v v') as (<- & <- & <-); [|by rewrite <- H2|done].
  change ([] ++ (k, v) :: rest) with ((k, v) :: rest).
  rewrite <- H1, <- keys_kvs. by apply (sorted_keys_NoDup Comparator).
Qed.

Lemma kvs_snoc_split T k v front A v' B :
  bst Comparator T → kvs T = front ++ [(k, v)] → kvs T = A ++ (k, v') :: B →
  A = front ∧ v' = v ∧ B = [].
Proof.
  intros Hb H1 H2.
  destruct (split_unique front [] A B k v v') as (<- & <- & <-); [|by rewrite <- H2|done].
  rewrite <- H1, <- keys_kvs. by apply (sorted_keys_NoDup Comparator).
Qed.

End EndNodes.

(** * The extended tree of the examples (examples/redblacktreeextended)

    [RedBlackTreeExtended] embeds a pointer to a tree: its methods work on
    the state of that tree. *)

Module redblacktreeextended.
Section Extended.
Context {K V : Type}.
Variable Comparator : K → K → Z.
Variable zeroV : V.

(** [tree.getMinFromNode(node)] *)
Fixpoint getMinFromNode (fuel : nat) (t : Tree K V) (node : ptr) : option (ptr * bool) :=
  match fuel with
  | O => None
  | S fuel' =>
      match node with
      | None => Some (None, false)
      | Some _ =>
          n ← deref t node;
          match Left n with
          | None => Some (node, true)
          | Some _ => getMinFromNode fuel' t (Left n)
          end
      end
  end.

(** [tree.getMaxFromNode(node)] *)
Fixpoint getMaxFromNode (fuel : nat) (t : Tree K V) (node : ptr) : option (ptr * bool) :=
  match fuel with
  | O => None
  | S fuel' =>
      match node with
      | None => Some (None, false)
      | Some _ =>
          n ← deref t node;
          match Right n with
          | None => Some (node, true)
          | Some _ => getMaxFromNode fuel' t (Right n)
          end
      end
  end.

(** [tree.GetMin()] *)
Definition GetMin (t : Tree K V) : option (V * bool) :=
  r ← getMinFromNode (fuel_of t) t (Root t);
  match r.1 with
  | Some _ => n ← deref t r.1; Some (Value n, r.2)
  | None => Some (zeroV, false)
  end.

(** [tree.GetMax()]: the value is of type [interface{}], nil when there is
    none. *)
Definition GetMax (t : Tree K V) : option (option V * bool) :=
  r ← getMaxFromNode (fuel_of t) t (Root t);
  match r.1 with
  | Some _ => n ← deref t r.1; Some (Some (Value n), r.2)
  | None => Some (None, false)
  end.

(** [tree.RemoveMin()]: the value is read from the node after the node has
    been removed. *)
Definition RemoveMin : @M K V (option V * bool) :=
  r <- ask (λ t, getMinFromNode (fuel_of t) t (Root t)) ;;
  if (r.2 : bool) then
    n <- get r.1 ;;
    Remove Comparator (Key n) ;;;
    n' <- get r.1 ;;
    ret (Some (Value n'), r.2)
  else ret (None, false).

(** [tree.RemoveMax()] *)
Definition RemoveMax : @M K V (option V * bool) :=
  r <- ask (λ t, getMaxFromNode (fuel_of t) t (Root t)) ;;
  if (r.2 : bool) then
    n <- get r.1 ;;
    Remove Comparator (Key n) ;;;
    n' <- get r.1 ;;
    ret (Some (Value n'), r.2)
  else ret (None, false).

Context `{!ComparatorOrder Comparator}.
Implicit Types (s T : @ptree K V) (C : list (@frame K V)) (e : nat * K * V) (t : Tree K V)
  (L : list (nat * K * V)).

Lemma getMinFromNode_spec t s C fuel :
  length (ptrs s) < fuel → shape (plug C s) t →
  getMinFromNode fuel t (rootp s)
  = Some (match head (inorder s) with
          | Some e => (Some (entry_ptr e), true)
          | None => (None, false)
          end).
Proof.
  revert C fuel; induction s as [|p c l IHl k v r IHr]; intros C fuel Hf Hs.
  { destruct fuel; [lia|done]. }
  simpl in Hf. rewrite length_app in Hf. destruct fuel as [|fuel]; [lia|].
  simpl. rewrite (shape_lookup _ _ _ _ _ _ _ _ Hs). simpl.
  destruct l as [|pl cl ll kl vl rl]; [done|].
  change (Some pl) with (rootp (PNode pl cl ll kl vl rl)).
  rewrite (IHl (Frame p c k v DL r :: C) fuel); [|simpl in *; lia|done].
  simpl. by destruct (inorder ll).
Qed.

Lemma getMaxFromNode_spec t s C fuel :
  length (ptrs s) < fuel → shape (plug C s) t →
  getMaxFromNode fuel t (rootp s)
  = Some (match last (inorder s) with
          | Some e => (Some (entry_ptr e), true)
          | None => (None, false)
          end).
Proof.
  revert C fuel; induction s as [|p c l IHl k v r IHr]; intros C fuel Hf Hs.
  { destruct fuel; [lia|done]. }
  simpl in Hf. rewrite length_app in Hf. destruct fuel as [|fuel]; [lia|].
  simpl. rewrite (shape_lookup _ _ _ _ _ _ _ _ Hs). simpl.
  rewrite last_app, last_cons.
  destruct r as [|pr cr lr kr vr rr]; [done|].
  change (Some pr) with (rootp (PNode pr cr lr kr vr rr)).
  rewrite (IHr (Frame p c k v DR l :: C) fuel); [|simpl in *; lia|done].
  destruct (last (inorder (PNode pr cr lr kr vr rr))) eqn:E; [done|].
  apply last_None_nil in E. simpl in E. by destruct (inorder lr).
Qed.

Lemma getMin_root t T :
  shape T t →
  getMinFromNode (fuel_of t) t (Root t)
  = Some (match head (inorder T) with
          | Some e => (Some (entry_ptr e), true)
          | None => (None, false)
          end).
Proof.
  intros Hs. pose proof (shape_length _ _ Hs). destruct Hs as (HR & HND & Hh). rewrite HR.
  apply (getMinFromNode_spec t T []); [unfold fuel_of; lia|done].
Qed.

Lemma getMax_root t T :
  shape T t →
  getMaxFromNode (fuel_of t) t (Root t)
  = Some (match last (inorder T) with
          | Some e => (Some (entry_ptr e), true)
          | None => (None, false)
          end).
Proof.
  intros Hs. pose proof (shape_length _ _ Hs). destruct Hs as (HR & HND & Hh). rewrite HR.
  apply (getMaxFromNode_spec t T []); [unfold fuel_of; lia|done].
Qed.

(** X20.  [GetMin] returns the value of the smallest key and [GetMax] the
    value of the largest key, with found = true; on the empty tree they
    return found = false, with the zero value and with nil. *)
Theorem GetMin_GetMax_values t T :
  wf Comparator t T →
  GetMin t = Some (match head (kvs T) with Some kv => (kv.2, true) | None => (zeroV, false) end)
  ∧ GetMax t = Some (match last (kvs T) with
                     | Some kv => (Some kv.2, true)
                     | None => (None, false)
                     end)
  ∧ (∀ kv k, head (kvs T) = Some kv → k ∈ keys T → kle Comparator kv.1 k)
  ∧ (∀ kv k, last (kvs T) = Some kv → k ∈ keys T → kle Comparator k kv.1).
Proof.
  intros ((Hs & _) & _ & Hb). apply bst_sorted in Hb; [|done]. unfold kvs, keys. split_and!.
  - unfold GetMin. rewrite (getMin_root t T Hs). simpl.
    destruct (inorder T) as [|[[p k] v] L] eqn:HL; simpl; [done|].
    destruct (shape_entry T t p k v Hs) as (n & Hn & _ & <-); [rewrite HL; set_solver|].
    unfold entry_ptr. simpl. by rewrite Hn.
  - unfold GetMax. rewrite (getMax_root t T Hs). simpl. rewrite fmap_last.
    destruct (last (inorder T)) as [[[p k] v]|] eqn:HL; simpl; [|done].
    apply last_Some_snoc in HL as [L HL].
    destruct (shape_entry T t p k v Hs) as (n & Hn & _ & <-); [rewrite HL; set_solver|].
    unfold entry_ptr. simpl. by rewrite Hn.
  - intros kv k Hh (e' & -> & Hin)%list_elem_of_fmap.
    destruct (inorder T) as [|e L] eqn:HL; [done|]. simpl in Hh. injection Hh as <-.
    apply (sorted_entries_cons Comparator) in Hb as [Hlt _].
    apply elem_of_cons in Hin as [->|Hin]; [by apply kle_refl|]. by apply klt_kle, Hlt.
  - intros kv k Hh (e' & -> & Hin)%list_elem_of_fmap. rewrite fmap_last in Hh.
    destruct (last (inorder T)) as [e|] eqn:HL; [|done]. simpl in Hh. injection Hh as <-.
    apply last_Some_snoc in HL as [L HL]. rewrite HL in Hb, Hin.
    by apply (sorted_snoc_le Comparator L e e').
Qed.

End Extended.

Section ExtendedRemove.
Context {K V : Type}.
Variable Comparator : K → K → Z.
Context `{!ComparatorOrder Comparator}.
Implicit Types (s T : @ptree K V) (C : list (@frame K V)) (e : nat * K * V) (t : Tree K V)
  (L : list (nat * K * V)).

Lemma RemoveMin_spec t T :
  wf Comparator t T →
  ∃ r t' T', RemoveMin Comparator t = Some (r, t') ∧ wf Comparator t' T'
    ∧ match kvs T with
      | [] => r = (None, false) ∧ t' = t
      | (k, v) :: rest =>
          r = (Some v, true) ∧ kvs T' = rest ∧ Size t' = (Size t - 1)%Z
      end.
Proof.
  intros Hwf. pose proof Hwf as ((Hs & _) & _ & Hb).
  unfold RemoveMin. unfold bind at 1. unfold ask at 1. rewrite (getMin_root t T Hs).
  unfold kvs. destruct (inorder T) as [|[[p k] v] L] eqn:HL; simpl.
  { exists (None, false), t, T. done. }
  destruct (first_no_left t T p k v L Hs HL) as (n & Hn & HLn & Hk & Hv).
  unfold entry_ptr. simpl.
  unfold bind at 1. unfold get at 1. simpl. rewrite Hn. rewrite Hk.
  destruct (wf_Remove Comparator k t T Hwf) as (t' & T' & HR & Hwf' & Hcase).
  unfold bind at 1. rewrite HR.
  assert (lookup Comparator t k = Some (Some p)) as Hlook.
  { apply (lookup_entry Comparator t T p k v Hs Hb). rewrite HL. set_solver. }
  destruct (Remove_kv_same Comparator k t t' p n Hlook Hn (or_introl HLn) HR p n Hn)
    as (n' & Hn' & _ & Hv').
  unfold bind at 1. unfold get at 1. simpl. rewrite Hn'. unfold ret. rewrite Hv', Hv.
  exists (Some v, true), t', T'. split; [done|]. split; [done|]. split; [done|].
  destruct Hcase as [(Hnin & _)|(A & v0 & B & HT & HT' & Hsz)].
  { exfalso. apply Hnin. unfold keys. rewrite HL. set_solver. }
  assert (kvs T = (k, v) :: ((λ e, (e.1.2, e.2)) <$> L)) as Hkvs by (unfold kvs; by rewrite HL).
  destruct (kvs_cons_split Comparator T k v _ A v0 B Hb Hkvs HT) as (-> & -> & ->).
  split; [exact HT'|exact Hsz].
Qed.

Lemma RemoveMax_spec t T :
  wf Comparator t T →
  ∃ r t' T', RemoveMax Comparator t = Some (r, t') ∧ wf Comparator t' T'
    ∧ match last (kvs T) with
      | None => r = (None, false) ∧ t' = t
      | Some (k, v) =>
          r = (Some v, true) ∧ kvs T = kvs T' ++ [(k, v)] ∧ Size t' = (Size t - 1)%Z
      end.
Proof.
  intros Hwf. pose proof Hwf as ((Hs & _) & _ & Hb).
  unfold RemoveMax. unfold bind at 1. unfold ask at 1. rewrite (getMax_root t T Hs).
  unfold kvs. rewrite fmap_last.
  destruct (last (inorder T)) as [[[p k] v]|] eqn:HL; simpl.
  2: { exists (None, false), t, T. done. }
  apply last_Some_snoc in HL as [L HL].
  destruct (last_no_right t T p k v L Hs HL) as (n & Hn & HLn & Hk & Hv).
  unfold entry_ptr. simpl.
  unfold bind at 1. unfold get at 1. simpl. rewrite Hn. rewrite Hk.
  destruct (wf_Remove Comparator k t T Hwf) as (t' & T' & HR & Hwf' & Hcase).
  unfold bind at 1. rewrite HR.
  assert (lookup Comparator t k = Some (Some p)) as Hlook.
  { apply (lookup_entry Comparator t T p k v Hs Hb). rewrite HL. set_solver. }
  destruct (Remove_kv_same Comparator k t t' p n Hlook Hn (or_intror HLn) HR p n Hn)
    as (n' & Hn' & _ & Hv').
  unfold bind at 1. unfold get at 1. simpl. rewrite Hn'. unfold ret. rewrite Hv', Hv.
  exists (Some v, true), t', T'. split; [done|]. split; [done|]. split; [done|].
  destruct Hcase as [(Hnin & _)|(A & v0 & B & HT & HT' & Hsz)].
  { exfalso. apply Hnin. unfold keys. rewrite HL, fmap_app. set_solver. }
  assert (kvs T = ((λ e, (e.1.2, e.2)) <$> L) ++ [(k, v)]) as Hkvs.
  { unfold kvs. by rewrite HL, fmap_app. }
  destruct (kvs_snoc_split Comparator T k v _ A v0 B Hb Hkvs HT) as (-> & -> & ->).
  split; [|exact Hsz]. change (kvs T = kvs T' ++ [(k, v)]).
  rewrite HT', app_nil_r. exact Hkvs.
Qed.

(** X21.  [RemoveMin] removes the entry of the smallest key and returns its
    value, [RemoveMax] that of the largest key; on the empty tree they
    return nil and false and change nothing.  In the example of the
    source, the tree of 1..5 with values "a".."e" has "e" for its largest
    and "a" for its smallest key, and after [RemoveMin], [RemoveMax],
    [RemoveMin], [RemoveMax] it holds the key 3 with value "c" only. *)
Theorem RemoveMin_RemoveMax_entries t T :
  wf Comparator t T →
  (∃ r t' T', RemoveMin Comparator t = Some (r, t') ∧ wf Comparator t' T'
     ∧ match kvs T with
       | [] => r = (None, false) ∧ t' = t
       | (k, v) :: rest =>
           r = (Some v, true) ∧ kvs T' = rest ∧ Size t' = (Size t - 1)%Z
       end)
  ∧ (∃ r t' T', RemoveMax Comparator t = Some (r, t') ∧ wf Comparator t' T'
     ∧ match last (kvs T) with
       | None => r = (None, false) ∧ t' = t
       | Some (k, v) =>
           r = (Some v, true) ∧ kvs T = kvs T' ++ [(k, v)] ∧ Size t' = (Size t - 1)%Z
       end)
  ∧ (∃ u u1 u2 u3 u4 : Tree Z string,
       run_ops IntComparator
         [OpPut 1%Z "a"; OpPut 2%Z "b"; OpPut 3%Z "c"; OpPut 4%Z "d"; OpPut 5%Z "e"] NewWith
       = Some (tt, u)
       ∧ GetMax u = Some (Some "e", true) ∧ GetMin "" u = Some ("a", true)
       ∧ RemoveMin IntComparator u = Some ((Some "a", true), u1)
       ∧ RemoveMax IntComparator u1 = Some ((Some "e", true), u2)
       ∧ RemoveMin IntComparator u2 = Some ((Some "b", true), u3)
       ∧ RemoveMax IntComparator u3 = Some ((Some "d", true), u4)
       ∧ Keys IntComparator 0%Z u4 = Some [3%Z]
       ∧ GetMax u4 = Some (Some "c", true) ∧ GetMin "" u4 = Some ("c", true)).
Proof.
  intros Hwf. split; [by apply RemoveMin_spec|]. split; [by apply RemoveMax_spec|].
  do 5 eexists. split; [vm_compute; reflexivity|].
  split; [vm_compute; reflexivity|]. split; [vm_compute; reflexivity|].
  split; [vm_compute; reflexivity|]. split; [vm_compute; reflexivity|].
  split; [vm_compute; reflexivity|]. split; [vm_compute; reflexivity|].
  split; [vm_compute; reflexivity|]. split; vm_compute; reflexivity.
Qed.

End ExtendedRemove.
End redblacktreeextended.

(** * The enumerable functions of the tree map (maps/treemap, enumerable)

    [Any], [All], [Find], [Select] and [Map] walk the map with its iterator
    and call a function of the caller on every entry.  The function is a
    pure function here: a Go function with effects of its own is outside
    this model. *)

Module treemap_enumerable.
Import treemap.
Section Enumerable.
Context {K V : Type}.
Variable Comparator : K → K → Z.
Variable zeroK : K.
Variable zeroV : V.

Fixpoint Any_loop (fuel : nat) (t : Tree K V) (it : Iterator) (f : K → V → bool)
    : option bool :=
  match fuel with
  | O => None
  | S fuel' =>
      r ← Next Comparator t it;
      if (r.1 : bool) then
        k ← Iterator_Key t r.2;
        v ← Iterator_Value t r.2;
        if f k v then Some true else Any_loop fuel' t r.2 f
      else Some false
  end.

(** [m.Any(f)] *)
Definition Any (m : Map) (f : K → V → bool) : option bool :=
  Any_loop (S (fuel_of (tree m))) (tree m) Iterator_ f.

Fixpoint All_loop (fuel : nat) (t : Tree K V) (it : Iterator) (f : K → V → bool)
    : option bool :=
  match fuel with
  | O => None
  | S fuel' =>
      r ← Next Comparator t it;
      if (r.1 : bool) then
        k ← Iterator_Key t r.2;
        v ← Iterator_Value t r.2;
        if negb (f k v) then Some false else All_loop fuel' t r.2 f
      else Some true
  end.

(** [m.All(f)] *)
Definition All (m : Map) (f : K → V → bool) : option bool :=
  All_loop (S (fuel_of (tree m))) (tree m) Iterator_ f.

Fixpoint Find_loop (fuel : nat) (t : Tree K V) (it : Iterator) (f : K → V → bool)
    : option (K * V) :=
  match fuel with
  | O => None
  | S fuel' =>
      r ← Next Comparator t it;
      if (r.1 : bool) then
        k ← Iterator_Key t r.2;
        v ← Iterator_Value t r.2;
        if f k v then
          k' ← Iterator_Key t r.2;
          v' ← Iterator_Value t r.2;
          Some (k', v')
        else Find_loop fuel' t r.2 f
      else Some (zeroK, zeroV)
  end.

(** [m.Find(f)] *)
Definition Find (m : Map) (f : K → V → bool) : option (K * V) :=
  Find_loop (S (fuel_of (tree m))) (tree m) Iterator_ f.

Fixpoint Select_loop (fuel : nat) (t : Tree K V) (it : Iterator) (f : K → V → bool)
    (new : Tree K V) : option (Tree K V) :=
  match fuel with
  | O => None
  | S fuel' =>
      r ← Next Comparator t it;
      if (r.1 : bool) then
        k ← Iterator_Key t r.2;
        v ← Iterator_Value t r.2;
        if f k v then
          k' ← Iterator_Key t r.2;
          v' ← Iterator_Value t r.2;
          new' ← Put Comparator k' v' new;
          Select_loop fuel' t r.2 f new'.2
        else Select_loop fuel' t r.2 f new
      else Some new
  end.

(** [m.Select(f)]: the new map has a tree of its own, with the comparator
    of [m]. *)
Definition Select (m : Map) (f : K → V → bool) : option Map :=
  new ← Select_loop (S (fuel_of (tree m))) (tree m) Iterator_ f NewWith;
  Some (mkMap new).

Fixpoint Map_loop (fuel : nat) (t : Tree K V) (it : Iterator) (f : K → V → K * V)
    (new : Tree K V) : option (Tree K V) :=
  match fuel with
  | O => None
  | S fuel' =>
      r ← Next Comparator t it;
      if (r.1 : bool) then
        k ← Iterator_Key t r.2;
        v ← Iterator_Value t r.2;
        new' ← Put Comparator (f k v).1 (f k v).2 new;
        Map_loop fuel' t r.2 f new'.2
      else Some new
  end.

(** [m.Map(f)] *)
Definition Map_ (m : Map) (f : K → V → K * V) : option Map :=
  new ← Map_loop (S (fuel_of (tree m))) (tree m) Iterator_ f NewWith;
  Some (mkMap new).

Context `{!ComparatorOrder Comparator}.
Implicit Types (s T : @ptree K V) (C : list (@frame K V)) (e : nat * K * V) (t : Tree K V)
  (L : list (nat * K * V)).

(** An entry as the pair that the functions of the caller see. *)
Definition kv_of e : K * V := (e.1.2, e.2).

Lemma kvs_kv_of T : kvs T = kv_of <$> inorder T.
Proof. done. Qed.

Lemma Any_loop_from f t T L2 : ∀ L1 e fuel,
  shape T t → bst Comparator T → inorder T = L1 ++ e :: L2 → length L2 < fuel →
  Any_loop fuel t (IteratorAt (Some (entry_ptr e))) f
  = Some (existsb (uncurry f) (kv_of <$> L2)).
Proof.
  induction L2 as [|e' L2 IH]; intros L1 e fuel Hs Hb Hin Hf;
    (destruct fuel as [|fuel]; [simpl in Hf; lia|]); simpl in Hf;
    cbn [Any_loop]; rewrite (Next_between _ _ _ _ _ _ Hs Hb Hin); simpl; [done|].
  rewrite (Iterator_Key_entry t T e'); [|done|rewrite Hin; set_solver]. simpl.
  rewrite (Iterator_Value_entry t T e'); [|done|rewrite Hin; set_solver]. simpl.
  unfold entry_key. destruct (f e'.1.2 e'.2); [done|]. simpl.
  pose proof (IH (L1 ++ [e]) e' fuel Hs Hb) as H. unfold IteratorAt in H.
  apply H; [|lia]. by rewrite Hin, <- app_assoc.
Qed.

Lemma All_loop_from f t T L2 : ∀ L1 e fuel,
  shape T t → bst Comparator T → inorder T = L1 ++ e :: L2 → length L2 < fuel →
  All_loop fuel t (IteratorAt (Some (entry_ptr e))) f
  = Some (forallb (uncurry f) (kv_of <$> L2)).
Proof.
  induction L2 as [|e' L2 IH]; intros L1 e fuel Hs Hb Hin Hf;
    (destruct fuel as [|fuel]; [simpl in Hf; lia|]); simpl in Hf;
    cbn [All_loop]; rewrite (Next_between _ _ _ _ _ _ Hs Hb Hin); simpl; [done|].
  rewrite (Iterator_Key_entry t T e'); [|done|rewrite Hin; set_solver]. simpl.
  rewrite (Iterator_Value_entry t T e'); [|done|rewrite Hin; set_solver]. simpl.
  unfold entry_key. destruct (f e'.1.2 e'.2); [|done]. simpl.
  pose proof (IH (L1 ++ [e]) e' fuel Hs Hb) as H. unfold IteratorAt in H.
  apply H; [|lia]. by rewrite Hin, <- app_assoc.
Qed.

(** The first entry, in the order of the keys, that the function accepts. *)
Definition first_match (f : K → V → bool) (l : list (K * V)) : K * V :=
  match filter (λ kv, f kv.1 kv.2 = true) l with
  | kv :: _ => kv
  | [] => (zeroK, zeroV)
  end.

Lemma first_match_cons f kv l :
  first_match f (kv :: l) = if f kv.1 kv.2 then kv else first_match f l.
Proof.
  unfold first_match. rewrite filter_cons. destruct (f kv.1 kv.2) eqn:E.
  - by rewrite decide_True.
  - by rewrite decide_False.
Qed.

Lemma Find_loop_from f t T L2 : ∀ L1 e fuel,
  shape T t → bst Comparator T → inorder T = L1 ++ e :: L2 → length L2 < fuel →
  Find_loop fuel t (IteratorAt (Some (entry_ptr e))) f
  = Some (first_match f (kv_of <$> L2)).
Proof.
  induction L2 as [|e' L2 IH]; intros L1 e fuel Hs Hb Hin Hf;
    (destruct fuel as [|fuel]; [simpl in Hf; lia|]); simpl in Hf;
    cbn [Find_loop]; rewrite (Next_between _ _ _ _ _ _ Hs Hb Hin); [done|].
  rewrite fmap_cons, first_match_cons. simpl.
  rewrite !(Iterator_Key_entry t T e'); [|done|rewrite Hin; set_solver]. simpl.
  rewrite !(Iterator_Value_entry t T e'); [|done|rewrite Hin; set_solver]. simpl.
  unfold entry_key. destruct (f e'.1.2 e'.2) eqn:E; [by destruct e' as [[? ?] ?]|].
  pose proof (IH (L1 ++ [e]) e' fuel Hs Hb) as H. unfold IteratorAt in H.
  apply H; [|lia]. by rewrite Hin, <- app_assoc.
Qed.

(** [Put] of a key above all the keys of the tree adds the entry at the
    end. *)
Lemma Put_append key value t T :
  wf Comparator t T → (∀ k, k ∈ keys T → klt Comparator k key) →
  ∃ t' T', Put Comparator key value t = Some (tt, t') ∧ wf Comparator t' T'
    ∧ kvs T' = kvs T ++ [(key, value)].
Proof.
  intros Hwf Hlt.
  destruct (wf_Put Comparator key value t T Hwf) as (t' & T' & HP & Hwf' & Hcase).
  exists t', T'. split; [done|]. split; [done|].
  destruct Hcase as [(A & v0 & B & HT & _)|(_ & A & B & HT & HT' & _)].
  { exfalso. apply (klt_irrefl Comparator key), Hlt.
    rewrite keys_kvs, HT, fmap_app, fmap_cons. set_solver. }
  destruct B as [|[kb vb] B]; [by rewrite HT, HT', app_nil_r|]. exfalso.
  assert (klt Comparator kb key) as H1.
  { apply Hlt. rewrite keys_kvs, HT, fmap_app, fmap_cons. set_solver. }
  assert (klt Comparator key kb) as H2.
  { destruct Hwf' as (_ & _ & Hb'). apply bst_sorted in Hb'; [|done].
    unfold sorted_entries in Hb'. fold (keys T') in Hb'.
    rewrite keys_kvs, HT', fmap_app, !fmap_cons in Hb'. simpl in Hb'.
    apply StronglySorted_app in Hb' as (_ & _ & Hb').
    apply StronglySorted_cons in Hb' as [Hall _]. rewrite Forall_forall in Hall.
    apply Hall. set_solver. }
  by eapply klt_asym.
Qed.

(** The loops of [Select] and [Map], with the entries [P] done and the
    entries [R] to come: [Next] of the iterator lands on the first entry of
    [R]. *)
Lemma Select_loop_spec f t T R : ∀ P it fuel new Tn,
  shape T t → bst Comparator T → inorder T = P ++ R → length R < fuel →
  Next Comparator t it = Some (landed (head R) pos_end) →
  wf Comparator new Tn → kvs Tn = filter (λ kv, f kv.1 kv.2 = true) (kv_of <$> P) →
  ∃ res Tr, Select_loop fuel t it f new = Some res ∧ wf Comparator res Tr
    ∧ kvs Tr = filter (λ kv, f kv.1 kv.2 = true) (kv_of <$> inorder T).
Proof.
  induction R as [|e R IH]; intros P it fuel new Tn Hs Hb Hin Hf HN Hwf Hkvs;
    (destruct fuel as [|fuel]; [simpl in Hf; lia|]); simpl in Hf;
    cbn [Select_loop]; rewrite HN; simpl.
  { exists new, Tn. rewrite Hin, app_nil_r. done. }
  rewrite !(Iterator_Key_entry t T e); [|done|rewrite Hin; set_solver]. simpl.
  rewrite !(Iterator_Value_entry t T e); [|done|rewrite Hin; set_solver]. simpl.
  assert (inorder T = (P ++ [e]) ++ R) as Hin' by (by rewrite <- app_assoc).
  assert (Next Comparator t {| node := Some (entry_ptr e); pos := pos_between |}
          = Some (landed (head R) pos_end)) as HN'.
  { apply (Next_between Comparator t T P e R Hs Hb Hin). }
  unfold entry_key. destruct (f e.1.2 e.2) eqn:E.
  - destruct (Put_append e.1.2 e.2 new Tn Hwf) as (new' & Tn' & HP & Hwf' & Hkvs').
    { intros k Hk. rewrite keys_kvs, Hkvs in Hk.
      apply list_elem_of_fmap in Hk as ([k0 v0] & -> & Hk).
      apply list_elem_of_filter in Hk as [_ Hk].
      apply list_elem_of_fmap in Hk as (e0 & [= -> ->] & He0).
      apply bst_sorted in Hb; [|done]. rewrite Hin in Hb.
      apply (sorted_entries_app Comparator) in Hb as (Hlt & _ & _).
      apply (Hlt e0 e); [done|set_solver]. }
    rewrite HP. simpl. apply (IH (P ++ [e]) _ fuel new' Tn' Hs Hb Hin'); [lia|done|done|].
    rewrite Hkvs', Hkvs, fmap_app, filter_app. f_equal. simpl.
    rewrite filter_cons, decide_True by done. done.
  - apply (IH (P ++ [e]) _ fuel new Tn Hs Hb Hin'); [lia|done|done|].
    rewrite Hkvs, fmap_app, filter_app. simpl.
    rewrite filter_cons, decide_False, filter_nil, app_nil_r; [done|]. simpl. congruence.
Qed.

Lemma Map_loop_spec f t T R : ∀ P it fuel new Tn,
  shape T t → bst Comparator T → inorder T = P ++ R → length R < fuel →
  Next Comparator t it = Some (landed (head R) pos_end) →
  wf Comparator new Tn →
  ∃ res Tr, Map_loop fuel t it f new = Some res ∧ wf Comparator res Tr
    ∧ run_ops Comparator (uncurry OpPut <$> (uncurry f <$> (kv_of <$> R))) new
      = Some (tt, res).
Proof.
  induction R as [|e R IH]; intros P it fuel new Tn Hs Hb Hin Hf HN Hwf;
    (destruct fuel as [|fuel]; [simpl in Hf; lia|]); simpl in Hf;
    cbn [Map_loop]; rewrite HN; simpl.
  { by exists new, Tn. }
  rewrite !(Iterator_Key_entry t T e); [|done|rewrite Hin; set_solver]. simpl.
  rewrite !(Iterator_Value_entry t T e); [|done|rewrite Hin; set_solver]. simpl.
  assert (inorder T = (P ++ [e]) ++ R) as Hin' by (by rewrite <- app_assoc).
  assert (Next Comparator t {| node := Some (entry_ptr e); pos := pos_between |}
          = Some (landed (head R) pos_end)) as HN'.
  { apply (Next_between Comparator t T P e R Hs Hb Hin). }
  unfold entry_key.
  destruct (wf_Put Comparator (f e.1.2 e.2).1 (f e.1.2 e.2).2 new Tn Hwf)
    as (new' & Tn' & HP & Hwf' & _).
  rewrite HP. simpl.
  destruct (IH (P ++ [e]) (mkIterator (Some (entry_ptr e)) pos_between) fuel new' Tn' Hs Hb Hin')
    as (res & Tr & HM & Hwfr & Hrun);
    [lia|done|done|].
  exists res, Tr. split; [done|]. split; [done|].
  unfold bind. unfold kv_of at 1. simpl. destruct (f e.1.2 e.2) as [k2 v2] eqn:Ef.
  simpl in *. rewrite HP. exact Hrun.
Qed.

Lemma fuel_enough t T : shape T t → length (inorder T) < fuel_of t.
Proof.
  intros Hs. pose proof (shape_length _ _ Hs) as H. rewrite length_ptrs_inorder in H.
  unfold fuel_of. lia.
Qed.

(** X22.  [Any] says whether the function accepts some entry of the map,
    [All] whether it accepts every entry. *)
Theorem Any_All_quantify m T f :
  wf Comparator (tree m) T →
  Any m f = Some (existsb (uncurry f) (kvs T))
  ∧ All m f = Some (forallb (uncurry f) (kvs T))
  ∧ (Any m f = Some true ↔ ∃ k v, (k, v) ∈ kvs T ∧ f k v = true)
  ∧ (All m f = Some true ↔ ∀ k v, (k, v) ∈ kvs T → f k v = true).
Proof.
  intros ((Hs & _) & _ & Hb). pose proof (fuel_enough _ _ Hs) as Hfu.
  assert (Any m f = Some (existsb (uncurry f) (kvs T))) as HA.
  { unfold Any. set (fu := fuel_of (tree m)) in *. clearbody fu.
    cbn [Any_loop]. unfold Iterator_. rewrite (Next_begin _ _ _ _ Hs). rewrite kvs_kv_of.
    destruct (inorder T) as [|e L2] eqn:Hin; simpl; [done|].
    rewrite (Iterator_Key_entry (tree m) T e); [|done|rewrite Hin; set_solver]. simpl.
    rewrite (Iterator_Value_entry (tree m) T e); [|done|rewrite Hin; set_solver]. simpl.
    unfold entry_key. destruct (f e.1.2 e.2); [done|]. simpl.
    pose proof (Any_loop_from f (tree m) T L2 [] e fu Hs Hb Hin) as H.
    unfold IteratorAt in H. simpl in Hfu. apply H. lia. }
  assert (All m f = Some (forallb (uncurry f) (kvs T))) as HL.
  { unfold All. set (fu := fuel_of (tree m)) in *. clearbody fu.
    cbn [All_loop]. unfold Iterator_. rewrite (Next_begin _ _ _ _ Hs). rewrite kvs_kv_of.
    destruct (inorder T) as [|e L2] eqn:Hin; simpl; [done|].
    rewrite (Iterator_Key_entry (tree m) T e); [|done|rewrite Hin; set_solver]. simpl.
    rewrite (Iterator_Value_entry (tree m) T e); [|done|rewrite Hin; set_solver]. simpl.
    unfold entry_key. destruct (f e.1.2 e.2); [|done]. simpl.
    pose proof (All_loop_from f (tree m) T L2 [] e fu Hs Hb Hin) as H.
    unfold IteratorAt in H. simpl in Hfu. apply H. lia. }
  split; [done|]. split; [done|]. rewrite HA, HL. split.
  - split.
    + intros [= H]. apply existsb_exists in H as ([k v] & Hin%list_elem_of_In & Hf). eauto.
    + intros (k & v & Hin%list_elem_of_In & Hf). f_equal. apply existsb_exists.
      by exists (k, v).
  - split.
    + intros [= H] k v Hin%list_elem_of_In. rewrite forallb_forall in H. apply (H (k, v) Hin).
    + intros H. f_equal. apply forallb_forall. intros [k v] Hin%list_elem_of_In.
      by apply H.
Qed.

(** X23.  [Find] returns the first entry, in the order of the keys, that
    the function accepts: the function rejects every entry of a smaller
    key.  When it accepts none, [Find] returns the zero values. *)
Theorem Find_first m T f :
  wf Comparator (tree m) T →
  ∃ k v, Find m f = Some (k, v)
    ∧ ((∃ A B, kvs T = A ++ (k, v) :: B ∧ f k v = true
               ∧ ∀ k' v', (k', v') ∈ A → f k' v' = false)
       ∨ ((∀ k' v', (k', v') ∈ kvs T → f k' v' = false) ∧ k = zeroK ∧ v = zeroV)).
Proof.
  intros ((Hs & _) & _ & Hb). pose proof (fuel_enough _ _ Hs) as Hfu.
  assert (Find m f = Some (first_match f (kvs T))) as HF.
  { unfold Find. set (fu := fuel_of (tree m)) in *. clearbody fu.
    cbn [Find_loop]. unfold Iterator_. rewrite (Next_begin _ _ _ _ Hs). rewrite kvs_kv_of.
    destruct (inorder T) as [|e L2] eqn:Hin; [done|].
    rewrite fmap_cons, first_match_cons. simpl.
    rewrite !(Iterator_Key_entry (tree m) T e); [|done|rewrite Hin; set_solver]. simpl.
    rewrite !(Iterator_Value_entry (tree m) T e); [|done|rewrite Hin; set_solver]. simpl.
    unfold entry_key. destruct (f e.1.2 e.2); [by destruct e as [[? ?] ?]|].
    pose proof (Find_loop_from f (tree m) T L2 [] e fu Hs Hb Hin) as H.
    unfold IteratorAt in H. simpl in Hfu. apply H. lia. }
  rewrite HF. clear HF. generalize (kvs T). intros l.
  induction l as [|[k0 v0] l IH].
  - exists zeroK, zeroV. split; [done|]. right. split; [|done]. by intros k' v' ?%elem_of_nil.
  - rewrite first_match_cons. simpl. destruct (f k0 v0) eqn:E.
    + exists k0, v0. split; [done|]. left. exists [], l. split; [done|]. split; [done|].
      by intros k' v' ?%elem_of_nil.
    + destruct IH as (k & v & -> & [(A & B & -> & Hf & HA)|(Hall & -> & ->)]).
      * exists k, v. split; [done|]. left. exists ((k0, v0) :: A), B.
        split; [done|]. split; [done|].
        intros k' v' [[= -> ->]|Hin]%elem_of_cons; [done|by apply HA].
      * exists zeroK, zeroV. split; [done|]. right. split; [|done].
        intros k' v' [[= -> ->]|Hin]%elem_of_cons; [done|by apply Hall].
Qed.

(** X24.  [Select] returns a new map that holds the entries of the map
    that the function accepts, and no other; the new map is a well-formed
    tree of its own. *)
Theorem Select_filters m T f :
  wf Comparator (tree m) T →
  ∃ m' T', Select m f = Some m' ∧ wf Comparator (tree m') T'
    ∧ kvs T' = filter (λ kv, f kv.1 kv.2 = true) (kvs T)
    ∧ ∀ k v, (k, v) ∈ kvs T' ↔ (k, v) ∈ kvs T ∧ f k v = true.
Proof.
  intros ((Hs & _) & _ & Hb). pose proof (fuel_enough _ _ Hs) as Hfu.
  destruct (Select_loop_spec f (tree m) T (inorder T) [] Iterator_ (S (fuel_of (tree m)))
              NewWith PLeaf Hs Hb eq_refl) as (res & Tr & HS & Hwf & Hkvs);
    [lia|apply (Next_begin _ _ _ _ Hs)|apply wf_NewWith|done|].
  exists (mkMap res), Tr. unfold Select. rewrite HS. simpl.
  split; [done|]. split; [done|]. split; [done|].
  intros k v. rewrite Hkvs, list_elem_of_filter. simpl. tauto.
Qed.

(** X25.  [Map] returns a new map built by [Put] of the image of every
    entry, taken in the order of the keys of the map: its keys are the keys
    of the images. *)
Theorem Map_puts_images m T f :
  wf Comparator (tree m) T →
  ∃ m' T', Map_ m f = Some m' ∧ wf Comparator (tree m') T'
    ∧ run_ops Comparator (uncurry OpPut <$> (uncurry f <$> kvs T)) NewWith
      = Some (tt, tree m')
    ∧ ∀ k', k' ∈ keys T' ↔ ∃ k v, (k, v) ∈ kvs T ∧ (f k v).1 = k'.
Proof.
  intros ((Hs & _) & _ & Hb). pose proof (fuel_enough _ _ Hs) as Hfu.
  destruct (Map_loop_spec f (tree m) T (inorder T) [] Iterator_ (S (fuel_of (tree m)))
              NewWith PLeaf Hs Hb eq_refl) as (res & Tr & HS & Hwf & Hrun);
    [lia|apply (Next_begin _ _ _ _ Hs)|apply wf_NewWith|].
  exists (mkMap res), Tr. unfold Map_. rewrite HS. simpl.
  split; [done|]. split; [done|]. split; [done|].
  destruct (run_puts_keys Comparator (uncurry f <$> kvs T) NewWith PLeaf (wf_NewWith Comparator))
    as (t1 & T1 & Hrun1 & Hwf1 & Hkeys).
  rewrite kvs_kv_of in Hrun1. rewrite Hrun in Hrun1. injection Hrun1 as <-.
  assert (T1 = Tr) as ->.
  { rewrite <- (shape_tree_of res T1), <- (shape_tree_of res Tr); [done|apply Hwf|apply Hwf1]. }
  intros k'. rewrite Hkeys. unfold keys. simpl. split.
  - intros [Hin|Hin%elem_of_nil]; [|done].
    apply list_elem_of_fmap in Hin as (kv' & -> & Hin).
    apply list_elem_of_fmap in Hin as ([k v] & -> & Hin). eauto.
  - intros (k & v & Hin & <-). left.
    apply list_elem_of_fmap. exists (f k v). split; [done|].
    apply list_elem_of_fmap. by exists (k, v).
Qed.

End Enumerable.
End treemap_enumerable.

(** * Bidirectional maps

    Both bidirectional maps of the repository keep two maps, one from keys
    to values and one back, and run the same steps on them.  The algebra of
    these steps is stated once, on maps seen as functions. *)

Section BidiAlgebra.
Context {K V : Type}.
Variable eqK : K → K → bool.
Variable eqV : V → V → bool.
Hypothesis eqK_spec : ∀ x y, eqK x y = true ↔ x = y.
Hypothesis eqV_spec : ∀ x y, eqV x y = true ↔ x = y.

Definition upd {A B} (eqA : A → A → bool) (F : A → option B) (a : A) (b : B) : A → option B :=
  λ x, if eqA x a then Some b else F x.

Definition del {A B} (eqA : A → A → bool) (F : A → option B) (a : A) : A → option B :=
  λ x, if eqA x a then None else F x.

(** The two maps are inverse to each other. *)
Definition inverse_maps (F : K → option V) (I : V → option K) : Prop :=
  ∀ k v, F k = Some v ↔ I v = Some k.

(** The steps of [Put]: drop the old value of the key from the inverse map,
    drop the old key of the value from the forward map, then write both. *)
Definition put_inverse (F : K → option V) (I : V → option K) (key : K) : V → option K :=
  match F key with Some v0 => del eqV I v0 | None => I end.

Definition put_forward (F : K → option V) (I1 : V → option K) (value : V) : K → option V :=
  match I1 value with Some k0 => del eqK F k0 | None => F end.

Lemma eqK_refl x : eqK x x = true.
Proof. by apply eqK_spec. Qed.
Lemma eqV_refl x : eqV x x = true.
Proof. by apply eqV_spec. Qed.
Lemma eqK_false x y : eqK x y = false ↔ x ≠ y.
Proof. rewrite <- eqK_spec. by destruct (eqK x y). Qed.
Lemma eqV_false x y : eqV x y = false ↔ x ≠ y.
Proof. rewrite <- eqV_spec. by destruct (eqV x y). Qed.

Ltac bidi_eqs :=
  repeat match goal with
    | H : eqK _ _ = true |- _ => apply eqK_spec in H
    | H : eqV _ _ = true |- _ => apply eqV_spec in H
    | H : eqK _ _ = false |- _ => apply eqK_false in H
    | H : eqV _ _ = false |- _ => apply eqV_false in H
    end.

Ltac bidi_cases :=
  repeat match goal with
    | |- context [if ?b then _ else _] => destruct b eqn:?
    | |- context [match ?x with Some _ => _ | None => _ end] => destruct x eqn:?
    | H : context [if ?b then _ else _] |- _ => destruct b eqn:?
    | H : context [match ?x with Some _ => _ | None => _ end] |- _ => destruct x eqn:?
    end.

Ltac bidi_sat Hinv :=
  repeat match goal with
    | H : ?F ?a = Some ?b |- _ =>
        lazymatch type of Hinv with
        | inverse_maps F ?I =>
            lazymatch goal with
            | _ : I b = Some a |- _ => fail
            | _ => pose proof (proj1 (Hinv a b) H)
            end
        | inverse_maps ?F' F =>
            lazymatch goal with
            | _ : F' b = Some a |- _ => fail
            | _ => pose proof (proj2 (Hinv b a) H)
            end
        end
    end.

Ltac bidi_solve Hinv :=
  unfold upd, del, put_forward, put_inverse in *; bidi_cases; bidi_eqs; subst;
  (split; intros ?); simplify_eq; unfold del in *; bidi_cases; bidi_eqs; subst; simplify_eq;
  bidi_sat Hinv; first [congruence | apply Hinv; congruence].

Lemma inverse_maps_put F I key value :
  inverse_maps F I →
  inverse_maps (upd eqK (put_forward F (put_inverse F I key) value) key value)
               (upd eqV (put_inverse F I key) value key).
Proof. intros Hinv k v. bidi_solve Hinv. Qed.

Lemma inverse_maps_remove F I key value :
  inverse_maps F I → F key = Some value →
  inverse_maps (del eqK F key) (del eqV I value).
Proof. intros Hinv HF k v. bidi_solve Hinv. Qed.

Ltac bidi_go Hinv :=
  unfold upd, del, put_forward, put_inverse in *; bidi_cases; bidi_eqs; subst; simplify_eq;
  bidi_sat Hinv; first [done | congruence | apply Hinv; congruence].

(** What [Put] does to the two maps. *)
Lemma put_effects F I key value :
  inverse_maps F I →
  let I1 := put_inverse F I key in
  let F' := upd eqK (put_forward F I1 value) key value in
  let I' := upd eqV I1 value key in
  F' key = Some value ∧ I' value = Some key
  ∧ (∀ v0, F key = Some v0 → v0 ≠ value → I' v0 = None)
  ∧ (∀ k0, I value = Some k0 → k0 ≠ key → F' k0 = None)
  ∧ (∀ k v, k ≠ key → v ≠ value → F k = Some v → F' k = Some v).
Proof.
  intros Hinv. simpl. split_and!.
  - unfold upd. by rewrite eqK_refl.
  - unfold upd. by rewrite eqV_refl.
  - intros v0 H0 Hne. unfold upd, put_inverse. rewrite H0.
    destruct (eqV v0 value) eqn:E; [by apply eqV_spec in E|].
    unfold del. by rewrite eqV_refl.
  - intros k0 H0 Hne. unfold upd.
    destruct (eqK k0 key) eqn:E; [by apply eqK_spec in E|].
    unfold put_forward. assert (put_inverse F I key value = Some k0) as ->.
    { unfold put_inverse. destruct (F key) as [v0|] eqn:E4; [|done].
      unfold del. destruct (eqV value v0) eqn:E5; [|done].
      apply eqV_spec in E5 as <-. apply Hinv in E4. congruence. }
    unfold del. by rewrite eqK_refl.
  - intros k v Hk Hv HF. unfold upd.
    destruct (eqK k key) eqn:E; [by apply eqK_spec in E|].
    unfold put_forward.
    destruct (put_inverse F I key value) as [k0|] eqn:E2; [|done].
    unfold del. destruct (eqK k k0) eqn:E3; [|done]. exfalso.
    apply eqK_spec in E3 as <-. unfold put_inverse in E2.
    destruct (F key) as [v0|];
      [unfold del in E2; destruct (eqV value v0); [done|]|]; apply Hinv in E2; congruence.
Qed.

Lemma inverse_maps_ext (F F' : K → option V) (I I' : V → option K) :
  (∀ k, F' k = F k) → (∀ v, I' v = I v) → inverse_maps F I → inverse_maps F' I'.
Proof. intros HF HI Hinv k v. rewrite HF, HI. apply Hinv. Qed.

End BidiAlgebra.

(** * The bidirectional tree map (maps/treebidimap)

    The map keeps two red-black trees by value: one from the keys to the
    values under the comparator of the keys, one from the values to the
    keys under the comparator of the values. *)

Module treebidimap.
Section TreeBidiMap.
Context {K V : Type}.
Variable keyComparator : K → K → Z.
Variable valueComparator : V → V → Z.
(** The zero values of [utils.AnyEmpty]. *)
Variable zeroK : K.
Variable zeroV : V.

Local Abbreviation rbt_NewWith := NewWith.
Local Abbreviation rbt_Put := Put.
Local Abbreviation rbt_Get := Get.
Local Abbreviation rbt_Remove := Remove.
Local Abbreviation rbt_Clear := Clear.
Local Abbreviation rbt_Size := Size.
Local Abbreviation rbt_Keys := Keys.

Record Map := mkMap {
  forwardMap : Tree K V;
  inverseMap : Tree V K
}.

(** [NewWith(keyComparator, valueComparator)] *)
Definition NewWith : Map := mkMap rbt_NewWith rbt_NewWith.

(** A method of a tree, for the state it leaves. *)
Definition exec {A B} (m : @M A B unit) (t : Tree A B) : option (Tree A B) :=
  r ← m t; Some r.2.

(** [m.Put(key, value)] *)
Definition Put (key : K) (value : V) (b : Map) : option Map :=
  r ← rbt_Get keyComparator zeroV (forwardMap b) key;
  inverse1 ← (if (r.2 : bool) then exec (rbt_Remove valueComparator r.1) (inverseMap b)
              else Some (inverseMap b));
  r' ← rbt_Get valueComparator zeroK inverse1 value;
  forward1 ← (if (r'.2 : bool) then exec (rbt_Remove keyComparator r'.1) (forwardMap b)
              else Some (forwardMap b));
  forward2 ← exec (rbt_Put keyComparator key value) forward1;
  inverse2 ← exec (rbt_Put valueComparator value key) inverse1;
  Some (mkMap forward2 inverse2).

(** [m.Get(key)] *)
Definition Get (b : Map) (key : K) : option (V * bool) :=
  r ← rbt_Get keyComparator zeroV (forwardMap b) key;
  if (r.2 : bool) then Some (r.1, true) else Some (zeroV, false).

(** [m.GetKey(value)] *)
Definition GetKey (b : Map) (value : V) : option (K * bool) :=
  r ← rbt_Get valueComparator zeroK (inverseMap b) value;
  if (r.2 : bool) then Some (r.1, true) else Some (zeroK, false).

(** [m.Remove(key)] *)
Definition Remove (key : K) (b : Map) : option Map :=
  r ← rbt_Get keyComparator zeroV (forwardMap b) key;
  if (r.2 : bool) then
    forward1 ← exec (rbt_Remove keyComparator key) (forwardMap b);
    inverse1 ← exec (rbt_Remove valueComparator r.1) (inverseMap b);
    Some (mkMap forward1 inverse1)
  else Some b.

(** [m.Size()], [m.Empty()] *)
Definition Size (b : Map) : Z := rbt_Size (forwardMap b).
Definition Empty (b : Map) : bool := (Size b =? 0)%Z.

(** [m.Keys()], [m.Values()]: the values are the keys of the inverse map. *)
Definition Keys (b : Map) : option (list K) := rbt_Keys keyComparator zeroK (forwardMap b).
Definition Values (b : Map) : option (list V) := rbt_Keys valueComparator zeroV (inverseMap b).

(** [m.Clear()] *)
Definition Clear (b : Map) : option Map :=
  forward1 ← exec rbt_Clear (forwardMap b);
  inverse1 ← exec rbt_Clear (inverseMap b);
  Some (mkMap forward1 inverse1).

(** The operations that change the map. *)
Inductive bop := BPut (key : K) (value : V) | BRemove (key : K) | BClear.

Definition run_bop (o : bop) (b : Map) : option Map :=
  match o with
  | BPut key value => Put key value b
  | BRemove key => Remove key b
  | BClear => Clear b
  end.

Fixpoint run_bops (os : list bop) (b : Map) : option Map :=
  match os with
  | [] => Some b
  | o :: os' => b' ← run_bop o b; run_bops os' b'
  end.

Context `{!ComparatorOrder keyComparator} `{!ComparatorOrder valueComparator}.

(** A tree as a function, through [Get]. *)
Definition view {A B} (cmp : A → A → Z) (zero : B) (t : Tree A B) : A → option B :=
  λ a, match rbt_Get cmp zero t a with
       | Some (b, true) => Some b
       | _ => None
       end.

Definition eq_of {A} (cmp : A → A → Z) (x y : A) : bool := (cmp x y =? 0)%Z.

Lemma eq_of_spec {A} (cmp : A → A → Z) `{!ComparatorOrder cmp} x y :
  eq_of cmp x y = true ↔ x = y.
Proof. unfold eq_of. rewrite Z.eqb_eq. apply cmp_eq. Qed.

Lemma view_Put {A B} (cmp : A → A → Z) `{!ComparatorOrder cmp} (zero : B) key value t T :
  wf cmp t T →
  ∃ t' T', exec (rbt_Put cmp key value) t = Some t' ∧ wf cmp t' T'
    ∧ ∀ a, view cmp zero t' a = upd (eq_of cmp) (view cmp zero t) key value a.
Proof.
  intros Hwf. destruct (Put_Get_view cmp zero key value t T Hwf) as (t' & T' & HP & Hwf' & HG).
  exists t', T'. unfold exec. rewrite HP. split; [done|]. split; [done|].
  intros a. unfold view, upd, eq_of. rewrite HG. by destruct (cmp a key =? 0)%Z.
Qed.

Lemma view_Remove {A B} (cmp : A → A → Z) `{!ComparatorOrder cmp} (zero : B) key t T :
  wf cmp t T →
  ∃ t' T', exec (rbt_Remove cmp key) t = Some t' ∧ wf cmp t' T'
    ∧ ∀ a, view cmp zero t' a = del (eq_of cmp) (view cmp zero t) key a.
Proof.
  intros Hwf. destruct (Remove_Get_view cmp zero key t T Hwf) as (t' & T' & HP & Hwf' & HG).
  exists t', T'. unfold exec. rewrite HP. split; [done|]. split; [done|].
  intros a. unfold view, del, eq_of. rewrite HG. by destruct (cmp a key =? 0)%Z.
Qed.

Lemma Get_view {A B} (cmp : A → A → Z) `{!ComparatorOrder cmp} (zero : B) t T a :
  wf cmp t T →
  ∃ b found, rbt_Get cmp zero t a = Some (b, found)
    ∧ view cmp zero t a = (if found then Some b else None)
    ∧ (found = false → b = zero).
Proof.
  intros ((Hs & _) & _ & Hb). unfold view.
  destruct (Get_cases cmp zero a t T Hs Hb) as [(v & _ & ->)|(_ & ->)];
    eexists _, _; done.
Qed.

(** The invariant of the map: both trees are well formed and inverse to
    each other. *)
Definition bidi_wf (b : Map) : Prop :=
  (∃ Tf, wf keyComparator (forwardMap b) Tf) ∧ (∃ Ti, wf valueComparator (inverseMap b) Ti)
  ∧ inverse_maps (view keyComparator zeroV (forwardMap b))
                 (view valueComparator zeroK (inverseMap b)).

Lemma bidi_wf_Put key value b :
  bidi_wf b → ∃ b', Put key value b = Some b' ∧ bidi_wf b'
    ∧ (∀ k, view keyComparator zeroV (forwardMap b') k
            = upd (eq_of keyComparator)
                (put_forward (eq_of keyComparator) (view keyComparator zeroV (forwardMap b))
                   (put_inverse (eq_of valueComparator)
                      (view keyComparator zeroV (forwardMap b))
                      (view valueComparator zeroK (inverseMap b)) key) value) key value k)
    ∧ (∀ v, view valueComparator zeroK (inverseMap b') v
            = upd (eq_of valueComparator)
                (put_inverse (eq_of valueComparator)
                   (view keyComparator zeroV (forwardMap b))
                   (view valueComparator zeroK (inverseMap b)) key) value key v).
Proof.
  intros ((Tf & Hf) & (Ti & Hi) & Hinv). unfold Put.
  set (F := view keyComparator zeroV (forwardMap b)) in *.
  set (I := view valueComparator zeroK (inverseMap b)) in *.
  destruct (Get_view keyComparator zeroV (forwardMap b) Tf key Hf) as (v0 & fd & -> & HF0 & _).
  simpl.
  (* the inverse map without the old value of the key *)
  assert (∃ inverse1 Ti1,
            (if fd then exec (rbt_Remove valueComparator v0) (inverseMap b)
             else Some (inverseMap b)) = Some inverse1
            ∧ wf valueComparator inverse1 Ti1
            ∧ ∀ v, view valueComparator zeroK inverse1 v
                   = put_inverse (eq_of valueComparator) F I key v)
    as (inverse1 & Ti1 & -> & Hi1 & HI1).
  { fold (F key) in HF0. unfold put_inverse. rewrite HF0. destruct fd.
    - destruct (view_Remove valueComparator zeroK v0 (inverseMap b) Ti Hi)
        as (t' & T' & HR & Hwf' & Hv). by exists t', T'.
    - by exists (inverseMap b), Ti. }
  simpl.
  destruct (Get_view valueComparator zeroK inverse1 Ti1 value Hi1) as (k0 & fd' & -> & HI0 & _).
  simpl.
  assert (∃ forward1 Tf1,
            (if fd' then exec (rbt_Remove keyComparator k0) (forwardMap b)
             else Some (forwardMap b)) = Some forward1
            ∧ wf keyComparator forward1 Tf1
            ∧ ∀ k, view keyComparator zeroV forward1 k
                   = put_forward (eq_of keyComparator) F
                       (put_inverse (eq_of valueComparator) F I key) value k)
    as (forward1 & Tf1 & -> & Hf1 & HF1).
  { rewrite HI1 in HI0. unfold put_forward. rewrite HI0. destruct fd'.
    - destruct (view_Remove keyComparator zeroV k0 (forwardMap b) Tf Hf)
        as (t' & T' & HR & Hwf' & Hv). by exists t', T'.
    - by exists (forwardMap b), Tf. }
  simpl.
  destruct (view_Put keyComparator zeroV key value forward1 Tf1 Hf1)
    as (forward2 & Tf2 & -> & Hf2 & HF2).
  destruct (view_Put valueComparator zeroK value key inverse1 Ti1 Hi1)
    as (inverse2 & Ti2 & -> & Hi2 & HI2).
  simpl. eexists. split; [done|].
  assert (∀ k, view keyComparator zeroV forward2 k
               = upd (eq_of keyComparator)
                   (put_forward (eq_of keyComparator) F
                      (put_inverse (eq_of valueComparator) F I key) value) key value k) as HFF.
  { intros k. rewrite HF2. unfold upd. destruct (eq_of keyComparator k key); [done|apply HF1]. }
  assert (∀ v, view valueComparator zeroK inverse2 v
               = upd (eq_of valueComparator)
                   (put_inverse (eq_of valueComparator) F I key) value key v) as HII.
  { intros v. rewrite HI2. unfold upd. destruct (eq_of valueComparator v value); [done|apply HI1]. }
  split; [|split; [exact HFF|exact HII]].
  split; [by exists Tf2|]. split; [by exists Ti2|]. simpl.
  eapply inverse_maps_ext; [exact HFF|exact HII|].
  apply inverse_maps_put; [by apply eq_of_spec|by apply eq_of_spec|done].
Qed.

Lemma bidi_wf_Remove key b : bidi_wf b → ∃ b', Remove key b = Some b' ∧ bidi_wf b'.
Proof.
  intros ((Tf & Hf) & (Ti & Hi) & Hinv). unfold Remove.
  destruct (Get_view keyComparator zeroV (forwardMap b) Tf key Hf) as (v0 & fd & -> & HF0 & _).
  simpl. destruct fd; [|exists b; split; [done|]; split; [by exists Tf|]; split; [by exists Ti|done]].
  destruct (view_Remove keyComparator zeroV key (forwardMap b) Tf Hf)
    as (forward1 & Tf1 & -> & Hf1 & HF1).
  destruct (view_Remove valueComparator zeroK v0 (inverseMap b) Ti Hi)
    as (inverse1 & Ti1 & -> & Hi1 & HI1).
  simpl. eexists. split; [done|].
  split; [by exists Tf1|]. split; [by exists Ti1|]. simpl.
  eapply inverse_maps_ext; [exact HF1|exact HI1|].
  apply inverse_maps_remove; [by apply eq_of_spec|by apply eq_of_spec|done|done].
Qed.

Lemma bidi_wf_NewWith : bidi_wf NewWith.
Proof.
  split; [exists PLeaf; apply wf_NewWith|]. split; [exists PLeaf; apply wf_NewWith|].
  intros k v. done.
Qed.

Lemma bidi_wf_Clear b : ∃ b', Clear b = Some b' ∧ bidi_wf b'.
Proof.
  eexists. split; [done|].
  destruct (wf_Clear keyComparator (forwardMap b)) as (t1 & [= <-] & Hwf1 & _).
  destruct (wf_Clear valueComparator (inverseMap b)) as (t2 & [= <-] & Hwf2 & _).
  split; [by exists PLeaf|]. split; [by exists PLeaf|]. intros k v. done.
Qed.

Lemma bidi_wf_run os : ∀ b, bidi_wf b → ∃ b', run_bops os b = Some b' ∧ bidi_wf b'.
Proof.
  induction os as [|o os IH]; intros b Hwf; simpl; [by exists b|].
  assert (∃ b1, run_bop o b = Some b1 ∧ bidi_wf b1) as (b1 & -> & Hwf1).
  { destruct o as [key value|key|]; simpl.
    - destruct (bidi_wf_Put key value b Hwf) as (b' & HP & Hwf' & _). eauto.
    - by apply bidi_wf_Remove.
    - by apply bidi_wf_Clear. }
  simpl. by apply IH.
Qed.

Lemma view_kvs {A B} (cmp : A → A → Z) `{!ComparatorOrder cmp} (zero : B) t T a b :
  wf cmp t T → view cmp zero t a = Some b ↔ (a, b) ∈ kvs T.
Proof.
  intros ((Hs & _) & _ & Hb). unfold view.
  destruct (Get_cases cmp zero a t T Hs Hb) as [(v & Hin & ->)|(Hnin & ->)].
  - split; [by intros [= <-]|]. intros Hin'. f_equal.
    by apply (kvs_functional cmp T a v b).
  - split; [done|]. intros Hin. exfalso. apply Hnin, keys_elem. eauto.
Qed.

Lemma NoDup_kvs {A B} (cmp : A → A → Z) `{!ComparatorOrder cmp} (T : @ptree A B) :
  bst cmp T → NoDup (kvs T).
Proof.
  intros Hb. apply (NoDup_fmap_1 fst). rewrite <- keys_kvs. by apply (sorted_keys_NoDup cmp).
Qed.

(** X26.  After any sequence of [Put], [Remove] and [Clear] on a new map,
    both trees are well formed and inverse to each other: [Get] finds the
    value of a key exactly when [GetKey] finds the key of that value, the
    two trees have the same size, and [Values] returns, in the order of the
    value comparator, the values that the keys have. *)
Theorem trees_stay_inverse (os : list bop) :
  ∃ b Tf Ti, run_bops os NewWith = Some b
    ∧ wf keyComparator (forwardMap b) Tf ∧ wf valueComparator (inverseMap b) Ti
    ∧ (∀ k v, Get b k = Some (v, true) ↔ GetKey b v = Some (k, true))
    ∧ Size b = rbt_Size (inverseMap b)
    ∧ ∃ vs, Values b = Some vs ∧ StronglySorted (klt valueComparator) vs
        ∧ vs ≡ₚ (kvs Tf).*2.
Proof.
  destruct (bidi_wf_run os NewWith bidi_wf_NewWith) as (b & Hrun & (Tf & Hf) & (Ti & Hi) & Hinv).
  exists b, Tf, Ti. split; [done|]. split; [done|]. split; [done|].
  assert (kvs Ti ≡ₚ prod_swap <$> kvs Tf) as Hperm.
  { apply NoDup_Permutation.
    - apply (NoDup_kvs valueComparator), Hi.
    - apply NoDup_fmap_2; [by intros [? ?] [? ?] [= -> ->]|].
      apply (NoDup_kvs keyComparator), Hf.
    - intros [v k]. rewrite list_elem_of_fmap.
      rewrite <- (view_kvs valueComparator zeroK (inverseMap b) Ti v k Hi). split.
      + intros HI%Hinv. exists (k, v). split; [done|].
        by apply (view_kvs keyComparator zeroV (forwardMap b) Tf k v Hf).
      + intros ([k' v'] & [= -> ->] & HF). apply Hinv.
        by apply (view_kvs keyComparator zeroV (forwardMap b) Tf k' v' Hf). }
  split_and!.
  - intros k v. unfold Get, GetKey.
    destruct (Get_view keyComparator zeroV (forwardMap b) Tf k Hf) as (v1 & fd & -> & HF0 & _).
    destruct (Get_view valueComparator zeroK (inverseMap b) Ti v Hi) as (k1 & fd' & -> & HI0 & _).
    simpl. specialize (Hinv k v). rewrite HF0, HI0 in Hinv.
    destruct fd, fd'; simpl; naive_solver.
  - unfold Size, rbt_Size.
    destruct Hf as ((_ & ->) & _). destruct Hi as ((_ & ->) & _).
    rewrite !length_ptrs_inorder. f_equal.
    transitivity (length (kvs Tf)); [unfold kvs; by rewrite length_fmap|].
    transitivity (length (kvs Ti)); [by rewrite Hperm, length_fmap|unfold kvs; by rewrite length_fmap].
  - exists (keys Ti). destruct Hi as (Hr & _ & Hb).
    split; [by apply (Keys_spec valueComparator zeroV)|].
    split; [by apply (bst_sorted valueComparator Ti)|].
    rewrite keys_kvs, Hperm, <- list_fmap_compose.
    done.
Qed.

(** X27.  [Put] on the tree map binds the key and the value to each other
    and unbinds what they were bound to.  On every map reached by the
    operations [Put] returns; afterwards the key has the value and the
    value has the key, the former value of the key has no key, the former
    key of the value has no value, and the bindings of other keys to other
    values stay. *)
Theorem Put_rebinds (os : list bop) key value :
  ∃ b b', run_bops os NewWith = Some b ∧ Put key value b = Some b'
    ∧ Get b' key = Some (value, true) ∧ GetKey b' value = Some (key, true)
    ∧ (∀ v0, Get b key = Some (v0, true) → v0 ≠ value → GetKey b' v0 = Some (zeroK, false))
    ∧ (∀ k0, GetKey b value = Some (k0, true) → k0 ≠ key → Get b' k0 = Some (zeroV, false))
    ∧ (∀ k v, k ≠ key → v ≠ value → Get b k = Some (v, true) → Get b' k = Some (v, true)).
Proof.
  destruct (bidi_wf_run os NewWith bidi_wf_NewWith) as (b & Hrun & Hwf).
  destruct (bidi_wf_Put key value b Hwf) as (b' & HP & Hwf' & HF & HI).
  exists b, b'. split; [done|]. split; [done|].
  destruct Hwf as ((Tf & Hf) & (Ti & Hi) & Hinv).
  destruct Hwf' as ((Tf' & Hf') & (Ti' & Hi') & Hinv').
  destruct (put_effects (eq_of keyComparator) (eq_of valueComparator)
              (eq_of_spec keyComparator) (eq_of_spec valueComparator) _ _ key value Hinv)
    as (H1 & H2 & H3 & H4 & H5).
  assert (∀ bb T k v, wf keyComparator (forwardMap bb) T →
            Get bb k = Some (v, true) ↔ view keyComparator zeroV (forwardMap bb) k = Some v) as HG.
  { intros bb T k v Hbb. unfold Get.
    destruct (Get_view keyComparator zeroV (forwardMap bb) T k Hbb) as (v1 & fd & -> & -> & _).
    simpl. destruct fd; naive_solver. }
  assert (∀ bb T k v, wf valueComparator (inverseMap bb) T →
            GetKey bb v = Some (k, true) ↔ view valueComparator zeroK (inverseMap bb) v = Some k)
    as HGK.
  { intros bb T k v Hbb. unfold GetKey.
    destruct (Get_view valueComparator zeroK (inverseMap bb) T v Hbb) as (v1 & fd & -> & -> & _).
    simpl. destruct fd; naive_solver. }
  assert (∀ bb T k, wf keyComparator (forwardMap bb) T →
            view keyComparator zeroV (forwardMap bb) k = None → Get bb k = Some (zeroV, false))
    as HGN.
  { intros bb T k Hbb. unfold Get.
    destruct (Get_view keyComparator zeroV (forwardMap bb) T k Hbb) as (v1 & fd & -> & -> & _).
    simpl. by destruct fd. }
  assert (∀ bb T v, wf valueComparator (inverseMap bb) T →
            view valueComparator zeroK (inverseMap bb) v = None → GetKey bb v = Some (zeroK, false))
    as HGKN.
  { intros bb T v Hbb. unfold GetKey.
    destruct (Get_view valueComparator zeroK (inverseMap bb) T v Hbb) as (v1 & fd & -> & -> & _).
    simpl. by destruct fd. }
  split_and!.
  - apply (HG b' Tf' key value Hf'). by rewrite HF.
  - apply (HGK b' Ti' key value Hi'). by rewrite HI.
  - intros v0 Hv0 Hne. apply (HG b Tf key v0 Hf) in Hv0.
    apply (HGKN b' Ti' v0 Hi'). rewrite HI. by apply H3.
  - intros k0 Hk0 Hne. apply (HGK b Ti k0 value Hi) in Hk0.
    apply (HGN b' Tf' k0 Hf'). rewrite HF. by apply H4.
  - intros k v Hk Hv HGb. apply (HG b Tf k v Hf) in HGb.
    apply (HG b' Tf' k v Hf'). rewrite HF. by apply H5.
Qed.

End TreeBidiMap.
End treebidimap.

(** * The further properties at work, on the sample tree *)

Lemma sample_kvs :
  kvs (tree_of sample) = [(5%Z, "c"); (10%Z, "a"); (15%Z, "d"); (20%Z, "b")].
Proof. reflexivity. Qed.

Lemma Get_found_iff_witness :
  wf IntComparator sample (tree_of sample)
  ∧ ∃ v found, Get IntComparator "" sample 15%Z = Some (v, found)
      ∧ (found = true ↔ 15%Z ∈ keys (tree_of sample)).
Proof.
  destruct (Get_found_iff IntComparator "" 15%Z sample (tree_of sample) sample_wf)
    as (v & found & H1 & H2 & _).
  split; [exact sample_wf|]. exists v, found. exact (conj H1 H2).
Defined.

Lemma Get_after_update_witness :
  wf IntComparator sample (tree_of sample)
  ∧ (∃ t', Put IntComparator 12%Z "z" sample = Some (tt, t')
       ∧ Get IntComparator "" t' 12%Z = Some ("z", true)
       ∧ Get IntComparator "" t' 10%Z = Get IntComparator "" sample 10%Z)
  ∧ (∃ t', Remove IntComparator 10%Z sample = Some (tt, t')
       ∧ Get IntComparator "" t' 10%Z = Some ("", false)).
Proof.
  destruct (Get_after_update IntComparator "" 12%Z "z" sample (tree_of sample) sample_wf)
    as ((t1 & T1 & HP & _ & HG1) & _).
  destruct (Get_after_update IntComparator "" 10%Z "z" sample (tree_of sample) sample_wf)
    as (_ & (t2 & T2 & HR & _ & HG2)).
  split; [exact sample_wf|]. split.
  - exists t1. split; [exact HP|]. split; [exact (HG1 12%Z)|exact (HG1 10%Z)].
  - exists t2. split; [exact HR|exact (HG2 10%Z)].
Defined.

Lemma Put_new_key_witness :
  wf IntComparator sample (tree_of sample) ∧ (7%Z ∉ keys (tree_of sample))
  ∧ ∃ t', Put IntComparator 7%Z "z" sample = Some (tt, t')
      ∧ Size t' = (Size sample + 1)%Z ∧ reachable t' (length (store sample)).
Proof.
  assert (7%Z ∉ keys (tree_of sample)) as Hin by (vm_compute; set_solver).
  destruct (Put_new_key IntComparator 7%Z "z" sample (tree_of sample) sample_wf Hin)
    as (t' & T' & HP & _ & Hsz & _ & Hr & _).
  split; [exact sample_wf|]. split; [exact Hin|].
  exists t'. exact (conj HP (conj Hsz Hr)).
Defined.

Lemma Left_Right_extremes_witness :
  wf IntComparator sample (tree_of sample)
  ∧ (∃ p n, Left_ sample = Some (Some p) ∧ store sample !! p = Some n
       ∧ ∀ k, k ∈ keys (tree_of sample) → kle IntComparator (Key n) k)
  ∧ (∃ p n, Right_ sample = Some (Some p) ∧ store sample !! p = Some n
       ∧ ∀ k, k ∈ keys (tree_of sample) → kle IntComparator k (Key n)).
Proof.
  destruct (Left_Right_extremes IntComparator sample (tree_of sample) sample_wf)
    as ((r1 & H1 & H2) & (r3 & H3 & H4)).
  split; [exact sample_wf|]. split.
  - destruct r1 as [p|]; [|destruct H2 as [H2 _]; discriminate H2].
    destruct H2 as (n & _ & Hn & _ & Hle). exists p, n. exact (conj H1 (conj Hn Hle)).
  - destruct r3 as [p|]; [|destruct H4 as [H4 _]; discriminate H4].
    destruct H4 as (n & _ & Hn & _ & Hle). exists p, n. exact (conj H3 (conj Hn Hle)).
Defined.

Lemma Values_by_key_witness :
  wf IntComparator sample (tree_of sample)
  ∧ ∃ ks vs, Keys IntComparator 0%Z sample = Some ks ∧ Values IntComparator "" sample = Some vs
      ∧ length vs = length ks ∧ zip ks vs = kvs (tree_of sample).
Proof.
  destruct (Values_by_key IntComparator 0%Z "" sample (tree_of sample) sample_wf)
    as (ks & vs & H1 & H2 & H3 & _ & H4 & _).
  split; [exact sample_wf|]. exists ks, vs. exact (conj H1 (conj H2 (conj H3 H4))).
Defined.

Lemma Empty_iff_no_keys_witness :
  wf IntComparator sample (tree_of sample)
  ∧ (Empty sample = true ↔ keys (tree_of sample) = [])
  ∧ (Empty sample = true ↔ Root sample = None).
Proof.
  split; [exact sample_wf|].
  exact (Empty_iff_no_keys IntComparator sample (tree_of sample) sample_wf).
Defined.

Lemma walks_in_order_witness :
  wf IntComparator sample (tree_of sample)
  ∧ forward IntComparator sample Iterator_ = Some (keys (tree_of sample))
  ∧ backward IntComparator sample (End_ Iterator_) = Some (reverse (keys (tree_of sample))).
Proof.
  destruct (walks_in_order IntComparator sample (tree_of sample) sample_wf)
    as (H1 & _ & H2 & _).
  split; [exact sample_wf|]. split; [exact H1|exact (H2 Iterator_)].
Defined.

Lemma Next_Prev_round_trip_witness :
  wf IntComparator sample (tree_of sample) ∧ reachable sample 0
  ∧ Next IntComparator sample (IteratorAt (Some 0)) = Some (true, IteratorAt (Some 3))
  ∧ Prev IntComparator sample (IteratorAt (Some 3)) = Some (true, IteratorAt (Some 0)).
Proof.
  assert (reachable sample 0) as Hr by (by apply reachable_root).
  assert (Next IntComparator sample (IteratorAt (Some 0)) = Some (true, IteratorAt (Some 3)))
    as HN by reflexivity.
  destruct (Next_Prev_round_trip IntComparator sample (tree_of sample) 0 sample_wf Hr) as [H _].
  split; [exact sample_wf|]. split; [exact Hr|]. split; [exact HN|exact (H _ HN)].
Defined.

Lemma Key_off_the_ends_witness :
  Next IntComparator sample (mkIterator None pos_end) = Some (false, mkIterator None pos_end)
  ∧ Iterator_Key sample (mkIterator None pos_end) = None
  ∧ Iterator_Value sample (mkIterator None pos_end) = None.
Proof.
  assert (Next IntComparator sample (mkIterator None pos_end)
          = Some (false, mkIterator None pos_end)) as HN by reflexivity.
  destruct (Key_off_the_ends IntComparator sample (mkIterator None pos_end)
              (mkIterator None pos_end) (or_introl HN)) as (_ & HK & HV).
  exact (conj HN (conj HK HV)).
Defined.

Lemma height_logarithmic_witness :
  ∃ t T, run_ops IntComparator sample_ops NewWith = Some (tt, t) ∧ represents t T
    ∧ height T ≤ 2 * Nat.log2 (Z.to_nat (Size t) + 1).
Proof. exact (height_logarithmic IntComparator sample_ops). Defined.

Lemma Put_twice_witness :
  wf IntComparator sample (tree_of sample)
  ∧ ∃ t', Put IntComparator 12%Z "z" sample = Some (tt, t')
      ∧ Put IntComparator 12%Z "z" t' = Some (tt, t').
Proof.
  assert (∃ t', Put IntComparator 12%Z "z" sample = Some (tt, t')) as [t' HP]
      by (vm_compute; eexists; reflexivity).
  split; [exact sample_wf|]. exists t'. split; [exact HP|].
  exact (Put_twice IntComparator "" 12%Z "z" sample t' (tree_of sample) sample_wf HP).
Defined.

Lemma Remove_twice_witness :
  wf IntComparator sample (tree_of sample)
  ∧ ∃ t', Remove IntComparator 10%Z sample = Some (tt, t')
      ∧ Remove IntComparator 10%Z t' = Some (tt, t').
Proof.
  assert (∃ t', Remove IntComparator 10%Z sample = Some (tt, t')) as [t' HR]
      by (vm_compute; eexists; reflexivity).
  split; [exact sample_wf|]. exists t'. split; [exact HR|].
  exact (Remove_twice IntComparator 10%Z sample t' (tree_of sample) sample_wf HR).
Defined.

Lemma Put_Remove_round_trip_witness :
  wf IntComparator sample (tree_of sample) ∧ (7%Z ∉ keys (tree_of sample))
  ∧ ∃ t1 t2 T2, Put IntComparator 7%Z "z" sample = Some (tt, t1)
      ∧ Remove IntComparator 7%Z t1 = Some (tt, t2) ∧ wf IntComparator t2 T2
      ∧ kvs T2 = kvs (tree_of sample) ∧ Size t2 = Size sample.
Proof.
  assert (7%Z ∉ keys (tree_of sample)) as Hin by (vm_compute; set_solver).
  destruct (Put_Remove_round_trip IntComparator "" 7%Z "z" sample (tree_of sample) sample_wf Hin)
    as (t1 & t2 & T2 & H1 & H2 & H3 & H4 & H5 & _).
  split; [exact sample_wf|]. split; [exact Hin|].
  exists t1, t2, T2. exact (conj H1 (conj H2 (conj H3 (conj H4 H5)))).
Defined.

Lemma Floor_Ceiling_of_key_witness :
  wf IntComparator sample (tree_of sample) ∧ 15%Z ∈ keys (tree_of sample)
  ∧ ∃ p, lookup IntComparator sample 15%Z = Some (Some p)
      ∧ Floor IntComparator sample 15%Z = Some (Some p, true)
      ∧ Ceiling IntComparator sample 15%Z = Some (Some p, true).
Proof.
  assert (15%Z ∈ keys (tree_of sample)) as Hin by (vm_compute; set_solver).
  destruct (Floor_Ceiling_of_key IntComparator 15%Z sample (tree_of sample) sample_wf Hin)
    as (p & n & H1 & _ & _ & H2 & H3).
  split; [exact sample_wf|]. split; [exact Hin|].
  exists p. exact (conj H1 (conj H2 H3)).
Defined.


Lemma Min_Max_extremes_witness :
  wf IntComparator (treemap.tree (treemap.mkMap sample)) (tree_of sample)
  ∧ (∃ k v, treemap.Min 0%Z "" (treemap.mkMap sample) = Some (k, v)
       ∧ (k, v) ∈ kvs (tree_of sample)
       ∧ ∀ k', k' ∈ keys (tree_of sample) → kle IntComparator k k')
  ∧ (∃ k v, treemap.Max (treemap.mkMap sample) = Some (Some k, Some v)
       ∧ (k, v) ∈ kvs (tree_of sample)
       ∧ ∀ k', k' ∈ keys (tree_of sample) → kle IntComparator k' k).
Proof.
  destruct (treemap.Min_Max_extremes IntComparator 0%Z "" (treemap.mkMap sample)
              (tree_of sample) sample_wf) as ((k & v & H1 & H2) & (r & H3 & H4)).
  rewrite sample_kvs in H2, H4. destruct H4 as (k' & v' & -> & H4).
  split; [exact sample_wf|]. split.
  - exists k, v. split; [exact H1|]. rewrite sample_kvs. exact H2.
  - exists k', v'. split; [exact H3|]. rewrite sample_kvs. exact H4.
Defined.

Lemma Floor_Ceiling_entries_witness :
  wf IntComparator (treemap.tree (treemap.mkMap sample)) (tree_of sample)
  ∧ (∃ k v, treemap.Floor IntComparator 0%Z "" (treemap.mkMap sample) 12%Z = Some (k, v)
       ∧ (((k, v) ∈ kvs (tree_of sample) ∧ kle IntComparator k 12%Z)
          ∨ (k = 0%Z ∧ v = "")))
  ∧ (∃ k v, treemap.Ceiling IntComparator 0%Z "" (treemap.mkMap sample) 12%Z = Some (k, v)
       ∧ (((k, v) ∈ kvs (tree_of sample) ∧ kle IntComparator 12%Z k)
          ∨ (k = 0%Z ∧ v = ""))).
Proof.
  destruct (treemap.Floor_Ceiling_entries IntComparator 0%Z "" (treemap.mkMap sample)
              (tree_of sample) 12%Z sample_wf) as ((k & v & H1 & H2) & (k' & v' & H3 & H4)).
  split; [exact sample_wf|]. split.
  - exists k, v. split; [exact H1|].
    destruct H2 as [(Ha & Hb & _)|(_ & Ha & Hb)]; [left|right]; exact (conj Ha Hb).
  - exists k', v'. split; [exact H3|].
    destruct H4 as [(Ha & Hb & _)|(_ & Ha & Hb)]; [left|right]; exact (conj Ha Hb).
Defined.

Lemma GetMin_GetMax_values_witness :
  wf IntComparator sample (tree_of sample)
  ∧ redblacktreeextended.GetMin "" sample = Some ("c", true)
  ∧ redblacktreeextended.GetMax sample = Some (Some "b", true).
Proof.
  destruct (redblacktreeextended.GetMin_GetMax_values IntComparator "" sample (tree_of sample)
              sample_wf) as (H1 & H2 & _).
  split; [exact sample_wf|]. split; [exact H1|exact H2].
Defined.

Lemma RemoveMin_RemoveMax_entries_witness :
  wf IntComparator sample (tree_of sample)
  ∧ (∃ t' T', redblacktreeextended.RemoveMin IntComparator sample = Some ((Some "c", true), t')
       ∧ wf IntComparator t' T' ∧ kvs T' = [(10%Z, "a"); (15%Z, "d"); (20%Z, "b")])
  ∧ (∃ t' T', redblacktreeextended.RemoveMax IntComparator sample = Some ((Some "b", true), t')
       ∧ wf IntComparator t' T' ∧ Size t' = (Size sample - 1)%Z).
Proof.
  destruct (redblacktreeextended.RemoveMin_RemoveMax_entries IntComparator sample
              (tree_of sample) sample_wf)
    as ((r1 & t1 & T1 & H1 & H2 & H3) & (r2 & t2 & T2 & H4 & H5 & H6) & _).
  rewrite sample_kvs in H3, H6. simpl in H3, H6.
  destruct H3 as (-> & H3 & _). destruct H6 as (-> & _ & H6).
  split; [exact sample_wf|]. split.
  - exists t1, T1. exact (conj H1 (conj H2 H3)).
  - exists t2, T2. exact (conj H4 (conj H5 H6)).
Defined.

Lemma Any_All_quantify_witness :
  wf IntComparator (treemap.tree (treemap.mkMap sample)) (tree_of sample)
  ∧ treemap_enumerable.Any IntComparator (treemap.mkMap sample) (λ k _, (12 <? k)%Z) = Some true
  ∧ treemap_enumerable.All IntComparator (treemap.mkMap sample) (λ k _, (12 <? k)%Z) = Some false.
Proof.
  destruct (treemap_enumerable.Any_All_quantify IntComparator 0%Z "" (treemap.mkMap sample)
              (tree_of sample) (λ k _, (12 <? k)%Z) sample_wf) as (H1 & H2 & _).
  split; [exact sample_wf|]. split; [exact H1|exact H2].
Defined.

Lemma Find_first_witness :
  wf IntComparator (treemap.tree (treemap.mkMap sample)) (tree_of sample)
  ∧ ∃ k v, treemap_enumerable.Find IntComparator 0%Z "" (treemap.mkMap sample)
             (λ k _, (12 <? k)%Z) = Some (k, v)
      ∧ ((∃ A B, kvs (tree_of sample) = A ++ (k, v) :: B ∧ (12 <? k)%Z = true
            ∧ ∀ k' v', (k', v') ∈ A → (12 <? k')%Z = false)
         ∨ (k = 0%Z ∧ v = "")).
Proof.
  destruct (treemap_enumerable.Find_first IntComparator 0%Z "" (treemap.mkMap sample)
              (tree_of sample) (λ k _, (12 <? k)%Z) sample_wf) as (k & v & H1 & H2).
  split; [exact sample_wf|]. exists k, v. split; [exact H1|].
  destruct H2 as [H2|(_ & Ha & Hb)]; [left; exact H2|right; exact (conj Ha Hb)].
Defined.

Lemma Select_filters_witness :
  wf IntComparator (treemap.tree (treemap.mkMap sample)) (tree_of sample)
  ∧ ∃ m' T', treemap_enumerable.Select IntComparator (treemap.mkMap sample)
               (λ k _, (12 <? k)%Z) = Some m'
      ∧ wf IntComparator (treemap.tree m') T'
      ∧ kvs T' = [(15%Z, "d"); (20%Z, "b")].
Proof.
  destruct (treemap_enumerable.Select_filters IntComparator (treemap.mkMap sample)
              (tree_of sample) (λ k _, (12 <? k)%Z) sample_wf) as (m' & T' & H1 & H2 & H3 & _).
  split; [exact sample_wf|]. exists m', T'. split; [exact H1|]. split; [exact H2|].
  rewrite H3. reflexivity.
Defined.

Lemma Map_puts_images_witness :
  wf IntComparator (treemap.tree (treemap.mkMap sample)) (tree_of sample)
  ∧ ∃ m' T', treemap_enumerable.Map_ IntComparator (treemap.mkMap sample)
               (λ k v, ((k + 1)%Z, v)) = Some m'
      ∧ wf IntComparator (treemap.tree m') T'
      ∧ (11%Z ∈ keys T').
Proof.
  destruct (treemap_enumerable.Map_puts_images IntComparator (treemap.mkMap sample)
              (tree_of sample) (λ k v, ((k + 1)%Z, v)) sample_wf) as (m' & T' & H1 & H2 & _ & H3).
  split; [exact sample_wf|]. exists m', T'. split; [exact H1|]. split; [exact H2|].
  apply H3. exists 10%Z, "a". split; [|reflexivity].
  rewrite sample_kvs. apply list_elem_of_further, list_elem_of_here.
Defined.

Lemma trees_stay_inverse_witness :
  ∃ b, treebidimap.run_bops IntComparator IntComparator 0%Z 0%Z
         [treebidimap.BPut 1%Z 10%Z; treebidimap.BPut 2%Z 10%Z; treebidimap.BPut 3%Z 30%Z;
          treebidimap.BRemove 3%Z; treebidimap.BPut 4%Z 40%Z] treebidimap.NewWith = Some b
    ∧ (∀ k v, treebidimap.Get IntComparator 0%Z b k = Some (v, true)
              ↔ treebidimap.GetKey IntComparator 0%Z b v = Some (k, true))
    ∧ treebidimap.Size b = Size (treebidimap.inverseMap b)
    ∧ ∃ vs, treebidimap.Values IntComparator 0%Z b = Some vs
        ∧ StronglySorted (klt IntComparator) vs.
Proof.
  destruct (treebidimap.trees_stay_inverse IntComparator IntComparator 0%Z 0%Z
              [treebidimap.BPut 1%Z 10%Z; treebidimap.BPut 2%Z 10%Z; treebidimap.BPut 3%Z 30%Z;
               treebidimap.BRemove 3%Z; treebidimap.BPut 4%Z 40%Z])
    as (b & Tf & Ti & H1 & _ & _ & H2 & H3 & vs & H4 & H5 & _).
  exists b. split; [exact H1|]. split; [exact H2|]. split; [exact H3|].
  exists vs. exact (conj H4 H5).
Defined.

Lemma Put_rebinds_witness :
  ∃ b b', treebidimap.run_bops IntComparator IntComparator 0%Z 0%Z
            [treebidimap.BPut 1%Z 10%Z; treebidimap.BPut 2%Z 20%Z] treebidimap.NewWith = Some b
    ∧ treebidimap.Put IntComparator IntComparator 0%Z 0%Z 2%Z 10%Z b = Some b'
    ∧ treebidimap.Get IntComparator 0%Z b' 2%Z = Some (10%Z, true)
    ∧ treebidimap.GetKey IntComparator 0%Z b' 10%Z = Some (2%Z, true).
Proof.
  destruct (treebidimap.Put_rebinds IntComparator IntComparator 0%Z 0%Z
              [treebidimap.BPut 1%Z 10%Z; treebidimap.BPut 2%Z 20%Z] 2%Z 10%Z)
    as (b & b' & H1 & H2 & H3 & H4 & _).
  exists b, b'. exact (conj H1 (conj H2 (conj H3 H4))).
Defined.

From stdpp Require Import gmap.

(** * The hash map (maps/hashmap)

    Go's native map is a finite map: [gmap].  The order in which [Keys] and
    [Values] list a native map is not fixed; they are left out. *)

Module hashmap.
Section HashMap.
Context `{Countable K} {V : Type}.
(** Go's zero value of the value type. *)
Variable zeroV : V.

Record Map := mkMap { m : gmap K V }.

(** [New()] *)
Definition New : Map := mkMap ∅.

(** [m.Put(key, value)] *)
Definition Put (key : K) (value : V) (h : Map) : Map := mkMap (<[key := value]> (m h)).

(** [m.Get(key)]: [value, found = m.m[key]] *)
Definition Get (h : Map) (key : K) : V * bool :=
  match m h !! key with
  | Some v => (v, true)
  | None => (zeroV, false)
  end.

(** [m.Remove(key)] *)
Definition Remove (key : K) (h : Map) : Map := mkMap (delete key (m h)).

(** [m.Size()], [m.Empty()], [m.Clear()] *)
Definition Size (h : Map) : Z := Z.of_nat (size (m h)).
Definition Empty (h : Map) : bool := (Size h =? 0)%Z.
Definition Clear (h : Map) : Map := mkMap ∅.

End HashMap.
Arguments Map K {_ _} V.
End hashmap.

(** * The bidirectional hash map (maps/hashbidimap) *)

Module hashbidimap.
Section HashBidiMap.
Context `{Countable K} `{Countable V}.
Variable zeroK : K.
Variable zeroV : V.

Record Map := mkMap {
  forwardMap : hashmap.Map K V;
  inverseMap : hashmap.Map V K
}.

(** [New()] *)
Definition New : Map := mkMap hashmap.New hashmap.New.

(** [m.Put(key, value)] *)
Definition Put (key : K) (value : V) (b : Map) : Map :=
  let inverse1 :=
    match hashmap.Get zeroV (forwardMap b) key with
    | (valueByKey, true) => hashmap.Remove valueByKey (inverseMap b)
    | (_, false) => inverseMap b
    end in
  let forward1 :=
    match hashmap.Get zeroK inverse1 value with
    | (keyByValue, true) => hashmap.Remove keyByValue (forwardMap b)
    | (_, false) => forwardMap b
    end in
  mkMap (hashmap.Put key value forward1) (hashmap.Put value key inverse1).

(** [m.Get(key)], [m.GetKey(value)] *)
Definition Get (b : Map) (key : K) : V * bool := hashmap.Get zeroV (forwardMap b) key.
Definition GetKey (b : Map) (value : V) : K * bool := hashmap.Get zeroK (inverseMap b) value.

(** [m.Remove(key)] *)
Definition Remove (key : K) (b : Map) : Map :=
  match hashmap.Get zeroV (forwardMap b) key with
  | (value, true) => mkMap (hashmap.Remove key (forwardMap b)) (hashmap.Remove value (inverseMap b))
  | (_, false) => b
  end.

(** [m.Size()], [m.Empty()], [m.Clear()] *)
Definition Size (b : Map) : Z := hashmap.Size (forwardMap b).
Definition Empty (b : Map) : bool := (Size b =? 0)%Z.
Definition Clear (b : Map) : Map :=
  mkMap (hashmap.Clear (forwardMap b)) (hashmap.Clear (inverseMap b)).

(** The operations that change the map. *)
Inductive bop := BPut (key : K) (value : V) | BRemove (key : K) | BClear.

Definition run_bop (o : bop) (b : Map) : Map :=
  match o with
  | BPut key value => Put key value b
  | BRemove key => Remove key b
  | BClear => Clear b
  end.

Definition run_bops (os : list bop) (b : Map) : Map := foldl (λ b o, run_bop o b) b os.













End HashBidiMap.
End hashbidimap.
